(** * rps-mcp: commit-reveal client, outcome resolver and match driver

    A shallow embedding of the TypeScript sources [agent.ts] (class
    [RPSAgent]: secret store, [commit], [reveal], [claimTimeout],
    [waitForPhase], [playMatch]) and [read-helpers.ts]
    ([determineMatchWinner]).

    Conventions.
    - JS [number]s holding ABI [uint8] values and [bigint]s are integers: [Z].
    - [Hex], addresses and every other text value are [string]s, as in the
      source.
    - [Map<string, StoredSecret>] is a [gmap string StoredSecret].
    - Promises are run to completion one after the other (the code awaits
      every call); a promise resolves or rejects: [Reply].
    - Everything outside the process (ledger RPC, wallet, wall clock,
      entropy, the secrets file) is an explicit environment [Env] whose
      hidden state is threaded through every call.
    - The optional [onProgress] callback is taken as not supplied. *)

From Stdlib Require Import ZArith List Bool Ascii String Sorted Lia.
From Stdlib.Strings Require Import Byte.
From stdpp Require Import base gmap strings pretty list.

Local Open Scope Z_scope.
Local Open Scope string_scope.

(** ** Game constants (agent.ts) *)

Module Choice.
Definition None : Z := 0.
Definition Rock : Z := 1.
Definition Paper : Z := 2.
Definition Scissors : Z := 3.
End Choice.

Module MatchState.
Definition WAITING : Z := 0.
Definition ACTIVE : Z := 1.
Definition COMPLETE : Z := 2.
Definition CANCELLED : Z := 3.
End MatchState.

Module RoundPhase.
Definition COMMIT : Z := 0.
Definition REVEAL : Z := 1.
Definition COMPLETE : Z := 2.
End RoundPhase.

(** [ChoiceType]: the union [0 | 1 | 2 | 3] of the values of [Choice]. *)
Inductive ChoiceType : Type := CNone | CRock | CPaper | CScissors.

Definition choice_code (c : ChoiceType) : Z :=
  match c with
  | CNone => Choice.None
  | CRock => Choice.Rock
  | CPaper => Choice.Paper
  | CScissors => Choice.Scissors
  end.

Definition CHOICE_NAMES : list string := ["None"; "Rock"; "Paper"; "Scissors"].
Definition STATE_NAMES : list string := ["Waiting"; "Active"; "Complete"; "Cancelled"].

Definition ZERO_ADDRESS : string := "0x0000000000000000000000000000000000000000".
Definition ZERO_BYTES32 : string :=
  "0x0000000000000000000000000000000000000000000000000000000000000000".
Definition WINS_REQUIRED : Z := 3.

(** JS array read [arr[i]]: [undefined] (here [None]) outside the array. *)
Definition js_index {A} (arr : list A) (i : Z) : option A :=
  if (0 <=? i)%Z then arr !! Z.to_nat i else None.

(** ** Ledger snapshots ([getMatch], [getRound]) *)

Record MatchData : Type := mkMatch {
  player1 : string;
  player2 : string;
  entryFee : Z;
  pot : Z;
  state : Z;
  winsP1 : Z;
  winsP2 : Z;
  currentRound : Z;
  createdAt : Z;
  startedAt : Z
}.

Record RoundData : Type := mkRound {
  commitP1 : string;
  commitP2 : string;
  choiceP1 : Z;
  choiceP2 : Z;
  phase : Z;
  phaseDeadline : Z;
  winner : string
}.

(** ** Outcome resolver (read-helpers.ts) *)

(** The [lastRound] argument of [determineMatchWinner]. *)
Record LastRound : Type := mkLastRound {
  lr_commitP1 : string;
  lr_commitP2 : string;
  lr_choiceP1 : Z;
  lr_choiceP2 : Z
}.

(** [a !== b] on strings. *)
Definition str_neq (a b : string) : bool := negb (String.eqb a b).

(** The [if (lastRound) { ... }] block: [Some w] when one of its four
    [return]s fires, [None] when control falls through to the fallback. *)
Definition forfeit_from_last_round (m : MatchData) (lastRound : LastRound)
  : option string :=
  let p1Committed := str_neq (lr_commitP1 lastRound) ZERO_BYTES32 in
  let p2Committed := str_neq (lr_commitP2 lastRound) ZERO_BYTES32 in
  if p1Committed && negb p2Committed then Some (player1 m)
  else if p2Committed && negb p1Committed then Some (player2 m)
  else if p1Committed && p2Committed then
    let p1Revealed := (lr_choiceP1 lastRound >? 0)%Z in
    let p2Revealed := (lr_choiceP2 lastRound >? 0)%Z in
    if p1Revealed && negb p2Revealed then Some (player1 m)
    else if p2Revealed && negb p1Revealed then Some (player2 m)
    else None
  else None.

(** [determineMatchWinner(match, lastRound?)]; [null] is [None]. *)
Definition determineMatchWinner (m : MatchData) (lastRound : option LastRound)
  : option string :=
  if negb (state m =? MatchState.COMPLETE)%Z then None
  else if (winsP1 m >=? WINS_REQUIRED)%Z then Some (player1 m)
  else if (winsP2 m >=? WINS_REQUIRED)%Z then Some (player2 m)
  else
    match (match lastRound with
           | Some lr => forfeit_from_last_round m lr
           | None => None
           end) with
    | Some w => Some w
    | None =>
        if (winsP1 m >? winsP2 m)%Z then Some (player1 m)
        else if (winsP2 m >? winsP1 m)%Z then Some (player2 m)
        else None
    end.

(** *** The resolver's decision order, in the words of the design document *)

Inductive Side : Type := P1 | P2.

Definition side_player (m : MatchData) (s : Side) : string :=
  match s with P1 => player1 m | P2 => player2 m end.

(** "exactly one of the two holds": the side for which it holds. *)
Definition exactly_one (a b : bool) : option Side :=
  match a, b with
  | true, false => Some P1
  | false, true => Some P2
  | _, _ => None
  end.

Definition committed (c : string) : bool := negb (String.eqb c ZERO_BYTES32).
Definition revealed (c : Z) : bool := negb (c =? Choice.None)%Z.

(** Range of an ABI [uint8] as viem decodes it into a JS number. *)
Definition uint8 (z : Z) : Prop := (0 <= z < 256)%Z.

(** Step 1: a side whose win count reached the threshold (player 1 is
    looked at first). *)
Definition spec_threshold (m : MatchData) : option Side :=
  if (WINS_REQUIRED <=? winsP1 m)%Z then Some P1
  else if (WINS_REQUIRED <=? winsP2 m)%Z then Some P2
  else None.

(** Step 2: exactly one side committed in the last round. *)
Definition spec_commit_forfeit (lr : option LastRound) : option Side :=
  match lr with
  | Some r => exactly_one (committed (lr_commitP1 r)) (committed (lr_commitP2 r))
  | None => None
  end.

(** Step 3: both committed and exactly one revealed. *)
Definition spec_reveal_forfeit (lr : option LastRound) : option Side :=
  match lr with
  | Some r =>
      if committed (lr_commitP1 r) && committed (lr_commitP2 r)
      then exactly_one (revealed (lr_choiceP1 r)) (revealed (lr_choiceP2 r))
      else None
  | None => None
  end.

(** Step 4: the strictly higher win count. *)
Definition spec_fallback (m : MatchData) : option Side :=
  if (winsP2 m <? winsP1 m)%Z then Some P1
  else if (winsP1 m <? winsP2 m)%Z then Some P2
  else None.

(** First step, in order, that names a side. *)
Definition first_of (steps : list (option Side)) : option Side :=
  List.fold_right (fun o acc => match o with Some s => Some s | None => acc end)
                  None steps.

Definition spec_winner (m : MatchData) (lr : option LastRound) : option string :=
  side_player m <$>
    first_of [spec_threshold m; spec_commit_forfeit lr;
              spec_reveal_forfeit lr; spec_fallback m].

(** ** Text helpers *)

(** [String.prototype.toLowerCase] on the texts the agent and the read
    helpers lower-case: addresses, "0x" and hex digits, where it changes
    the letters A to Z only. *)
Definition lower_ascii (c : ascii) : ascii :=
  let n := N_of_ascii c in
  if ((65 <=? n) && (n <=? 90))%N then ascii_of_N (n + 32) else c.

Fixpoint toLowerCase (s : string) : string :=
  match s with
  | EmptyString => EmptyString
  | String c r => String (lower_ascii c) (toLowerCase r)
  end.

Definition hexDigit (n : N) : ascii :=
  match String.get (N.to_nat n) "0123456789abcdef" with
  | Some c => c
  | None => "0"%char
  end.

Definition byteToHex (b : byte) : string :=
  String (hexDigit (Byte.to_N b / 16)) (String (hexDigit (Byte.to_N b mod 16)) "").

(** [Buffer.prototype.toString("hex")]. *)
Fixpoint bytesToHex (bs : list byte) : string :=
  match bs with
  | [] => ""
  | b :: r => byteToHex b +:+ bytesToHex r
  end.

(** ** Promises, exceptions, ledger calls *)

(** The message of a thrown [Error]. *)
Definition Exn : Type := string.

(** A settled promise. *)
Inductive Reply (A : Type) : Type :=
| Resolved (a : A)
| Rejected (e : Exn).
Arguments Resolved {A} a.
Arguments Rejected {A} e.

(** viem's [encodePacked(["uint8", "bytes32"], [choice, secret])] (external
    dependency), after Solidity's packed ABI encoding: the [uint8] is one
    byte (two hex digits; a value outside 0..255 is rejected), the
    [bytes32] must be 32 bytes (66 characters with its [0x]) and is
    appended without padding. *)
Definition strip0x (h : string) : string :=
  if String.prefix "0x" h then String.substring 2 (String.length h - 2) h else h.

Definition encode_uint8 (v : Z) : Reply string :=
  match (if (0 <=? v)%Z then Byte.of_N (Z.to_N v) else None) with
  | Some b => Resolved (byteToHex b)
  | None => Rejected "IntegerOutOfRangeError"
  end.

Definition encodePacked_uint8_bytes32 (choice : Z) (secret : string) : Reply string :=
  match encode_uint8 choice with
  | Rejected e => Rejected e
  | Resolved c =>
      if Nat.eqb (String.length secret) 66
      then Resolved ("0x" +:+ c +:+ strip0x secret)
      else Rejected "BytesSizeMismatchError"
  end.

(** State-changing calls on the arena contract
    ([walletClient.writeContract] with [functionName] and [args]). *)
Inductive Call : Type :=
| CallCommit (matchId : Z) (commitment : string)
| CallReveal (matchId : Z) (choice : Z) (secret : string)
| CallClaimTimeout (matchId : Z).

(** ** Secret store *)

Record StoredSecret : Type := mkSecret {
  ss_choice : Z;
  ss_secret : string
}.

(** The key template [`${chainId}-${matchId}-${round}`]. *)
Definition secretKey (chainId matchId round : Z) : string :=
  pretty chainId +:+ "-" +:+ pretty matchId +:+ "-" +:+ pretty round.

(** The text holds a ["-"]: the separator of the key template. *)
Fixpoint has_dash (t : string) : bool :=
  match t with
  | EmptyString => false
  | String c r => Ascii.eqb c "-" || has_dash r
  end.

(** ** Observable events

    Ghost record of what the process did to the outside, newest first.
    A receipt remembers the call it confirms. *)
Inductive Event : Type :=
| EvNow (t : Z)
| EvGetMatch (matchId : Z) (r : Reply MatchData)
| EvGetRound (matchId : Z) (round : Z) (r : Reply RoundData)
| EvGetBlock (r : Reply Z)
| EvWrite (c : Call) (gas : Z) (r : Reply string)
| EvReceipt (c : Call) (hash : string) (r : Reply string)
| EvSave (snapshot : gmap string StoredSecret)
| EvSleep (ms : Z)
| EvRandom.

(** ** The environment *)

Record Env : Type := mkEnv {
  env_state : Type;
  (* publicClient.readContract: getMatch, getRound; publicClient.getBlock *)
  rpc_getMatch : env_state → Z → env_state * Reply MatchData;
  rpc_getRound : env_state → Z → Z → env_state * Reply RoundData;
  rpc_getBlock : env_state → env_state * Reply Z;
  (* walletClient.writeContract (transaction hash) and
     publicClient.waitForTransactionReceipt (receipt.status) *)
  rpc_write : env_state → Call → Z → env_state * Reply string;
  rpc_receipt : env_state → string → env_state * Reply string;
  (* Date.now() and setTimeout *)
  clock_now : env_state → env_state * Z;
  clock_sleep : env_state → Z → env_state;
  (* node:crypto entropy: a byte stream and an integer *)
  os_randomBytes : env_state → env_state * (nat → byte);
  os_randomInt : env_state → env_state * Z;
  (* writeFileSync of the secrets file; a failure is swallowed by saveSecrets *)
  fs_write : env_state → gmap string StoredSecret → env_state;
  (* viem's keccak256 (external dependency) *)
  keccak256 : string → string;
  (* Number.prototype.toFixed(2) of amount / 1e6: floating point, not modelled *)
  toFixed2_div1e6 : Z → string
}.

Record Agent : Type := mkAgent {
  address : string;
  chainId : Z
}.

Record World (E : Env) : Type := mkWorld {
  ext : env_state E;
  secrets : gmap string StoredSecret;
  trace : list Event
}.
Arguments mkWorld {E} _ _ _.
Arguments ext {E} _.
Arguments secrets {E} _.
Arguments trace {E} _.

(** ** Results of playMatch *)

Record RoundResult : Type := mkRoundResult {
  rr_round : Z;
  rr_myChoice : option string;
  rr_opponentChoice : option string;
  rr_winner : string
}.

Record MatchResult : Type := mkMatchResult {
  mr_matchId : Z;
  mr_won : bool;
  mr_score_player : Z;
  mr_score_opponent : Z;
  mr_rounds : list RoundResult;
  mr_prize : string;
  mr_opponentAddress : string
}.

Inductive WaitResult : Type := WaitOk | TimeoutClaimed | MatchEnded.

(** ** The computation monad: state, exceptions, and loop fuel *)

Inductive Outcome (A : Type) : Type :=
| Ok (a : A)
| Throw (e : Exn)
| OutOfFuel.
Arguments Ok {A} a.
Arguments Throw {A} e.
Arguments OutOfFuel {A}.

Definition M (E : Env) (A : Type) : Type := World E → Outcome A * World E.

Definition ret {E A} (a : A) : M E A := fun w => (Ok a, w).
Definition throw {E A} (e : Exn) : M E A := fun w => (Throw e, w).
Definition out_of_fuel {E A} : M E A := fun w => (OutOfFuel, w).

Definition bind {E A B} (c : M E A) (k : A → M E B) : M E B :=
  fun w =>
    match c w with
    | (Ok a, w') => k a w'
    | (Throw e, w') => (Throw e, w')
    | (OutOfFuel, w') => (OutOfFuel, w')
    end.

(** [try { c } catch { h }]. *)
Definition try_catch {E A} (c : M E A) (h : Exn → M E A) : M E A :=
  fun w =>
    match c w with
    | (Throw e, w') => h e w'
    | r => r
    end.

Notation "'let*' x ':=' c 'in' k" := (bind c (fun x => k))
  (at level 10, x name, c at level 100, k at level 200).
Notation "c ';;' k" := (bind c (fun _ => k))
  (at level 100, k at level 200, right associativity).

(** ** RPSAgent (agent.ts) *)

Section RPSAgent.
Context {E : Env}.
Variable self : Agent.

(** One call into the environment, recorded in the trace. *)
Definition env_call {A} (f : env_state E → env_state E * Reply A)
           (ev : Reply A → Event) : M E A :=
  fun w =>
    let '(x, r) := f (ext w) in
    let w' := mkWorld x (secrets w) (ev r :: trace w) in
    match r with
    | Resolved a => (Ok a, w')
    | Rejected e => (Throw e, w')
    end.

Definition liftReply {A} (r : Reply A) : M E A :=
  match r with
  | Resolved a => ret a
  | Rejected e => throw e
  end.

Definition dateNow : M E Z :=
  fun w =>
    let '(x, t) := clock_now E (ext w) in
    (Ok t, mkWorld x (secrets w) (EvNow t :: trace w)).

(** [await new Promise((r) => setTimeout(r, ms))]. *)
Definition sleep (ms : Z) : M E unit :=
  fun w => (Ok tt, mkWorld (clock_sleep E (ext w) ms) (secrets w) (EvSleep ms :: trace w)).

(** [randomBytes(n)]: the first [n] bytes of fresh entropy. *)
Definition randomBytes (n : nat) : M E (list byte) :=
  fun w =>
    let '(x, f) := os_randomBytes E (ext w) in
    (Ok (List.map f (List.seq 0 n)), mkWorld x (secrets w) (EvRandom :: trace w)).

(** [randomInt(max)]: an integer in [0, max). *)
Definition randomInt (max : Z) : M E Z :=
  fun w =>
    let '(x, n) := os_randomInt E (ext w) in
    (Ok (n mod max)%Z, mkWorld x (secrets w) (EvRandom :: trace w)).

(** *** The secret store: [this.secrets] and [saveSecrets] *)

Definition secrets_get (key : string) : M E (option StoredSecret) :=
  fun w => (Ok (secrets w !! key), w).

Definition secrets_set (key : string) (v : StoredSecret) : M E unit :=
  fun w => (Ok tt, mkWorld (ext w) (<[key := v]> (secrets w)) (trace w)).

Definition secrets_delete (key : string) : M E unit :=
  fun w => (Ok tt, mkWorld (ext w) (delete key (secrets w)) (trace w)).

(** [saveSecrets(this.secrets)]: writes the whole map; a failing write
    only prints a warning. *)
Definition saveSecrets : M E unit :=
  fun w => (Ok tt, mkWorld (fs_write E (ext w) (secrets w)) (secrets w)
                           (EvSave (secrets w) :: trace w)).

(** *** Read functions *)

Definition getMatch (matchId : Z) : M E MatchData :=
  env_call (fun x => rpc_getMatch E x matchId) (EvGetMatch matchId).

Definition getRound (matchId round : Z) : M E RoundData :=
  env_call (fun x => rpc_getRound E x matchId round) (EvGetRound matchId round).

(** [(await this.publicClient.getBlock()).timestamp]. *)
Definition getBlockTimestamp : M E Z :=
  env_call (rpc_getBlock E) EvGetBlock.

(** *** State-changing calls *)

(** [writeContract] followed by [waitForTransactionReceipt] and the
    [receipt.status !== "success"] test; [what] is the text of the error. *)
Definition send (c : Call) (gas : Z) (what : string) : M E string :=
  let* hash := env_call (fun x => rpc_write E x c gas) (EvWrite c gas) in
  let* status := env_call (fun x => rpc_receipt E x hash) (EvReceipt c hash) in
  if str_neq status "success" then throw (what +:+ hash)
  else ret hash.

Definition commit (matchId : Z) (choice : ChoiceType) : M E string :=
  let* m := getMatch matchId in
  let key := secretKey (chainId self) matchId (currentRound m) in
  let* existing := secrets_get key in
  match existing with
  | Some existing =>
      let* packed :=
        liftReply (encodePacked_uint8_bytes32 (ss_choice existing) (ss_secret existing)) in
      let commitment := keccak256 E packed in
      send (CallCommit matchId commitment) 150000 "Commit transaction failed: "
  | None =>
      let* bytes := randomBytes 32 in
      let secret := "0x" +:+ bytesToHex bytes in
      let* packed := liftReply (encodePacked_uint8_bytes32 (choice_code choice) secret) in
      let commitment := keccak256 E packed in
      secrets_set key (mkSecret (choice_code choice) secret) ;;
      saveSecrets ;;
      send (CallCommit matchId commitment) 150000 "Commit transaction failed: "
  end.

Definition reveal (matchId : Z) : M E string :=
  let* m := getMatch matchId in
  let key := secretKey (chainId self) matchId (currentRound m) in
  let* stored := secrets_get key in
  match stored with
  | None =>
      throw ("No stored secret for match " +:+ pretty matchId +:+
             " round " +:+ pretty (currentRound m))
  | Some stored =>
      let* hash :=
        send (CallReveal matchId (ss_choice stored) (ss_secret stored)) 500000
             "Reveal transaction failed: " in
      secrets_delete key ;;
      saveSecrets ;;
      ret hash
  end.

Definition claimTimeout (matchId : Z) : M E string :=
  send (CallClaimTimeout matchId) 500000 "claimTimeout failed: ".

(** *** Game logic *)

Definition pickRandomChoice : M E ChoiceType :=
  let choices := [CRock; CPaper; CScissors] in
  let* i := randomInt 3 in
  ret (List.nth (Z.to_nat i) choices CRock).

(** One pass through the body of the [while] of [waitForPhase]:
    [Some r] for [return r], [None] when the pass ends in the 2 s sleep. *)
Definition waitForPhase_poll (matchId targetPhase : Z) : M E (option WaitResult) :=
  let* m := getMatch matchId in
  if (state m =? MatchState.COMPLETE)%Z || (state m =? MatchState.CANCELLED)%Z
  then ret (Some MatchEnded)
  else
    let* round := getRound matchId (currentRound m) in
    if (phase round =? targetPhase)%Z then ret (Some WaitOk)
    else
      let* claimed :=
        (if (phaseDeadline round >? 0)%Z then
           let* timestamp := getBlockTimestamp in
           if (timestamp >? phaseDeadline round)%Z then
             try_catch (claimTimeout matchId ;; ret true) (fun _ => ret false)
           else ret false
         else ret false) in
      if claimed : bool then ret (Some TimeoutClaimed)
      else sleep 2000 ;; ret None.

Fixpoint waitForPhase_loop (fuel : nat) (matchId targetPhase start timeoutMs : Z)
  : M E WaitResult :=
  match fuel with
  | O => out_of_fuel
  | S fuel' =>
      let* now := dateNow in
      if (now - start <? timeoutMs)%Z then
        let* r := waitForPhase_poll matchId targetPhase in
        match r with
        | Some res => ret res
        | None => waitForPhase_loop fuel' matchId targetPhase start timeoutMs
        end
      else throw "Timeout waiting for phase change"
  end.

Definition waitForPhase (fuel : nat) (matchId targetPhase timeoutMs : Z)
  : M E WaitResult :=
  let* start := dateNow in
  waitForPhase_loop fuel matchId targetPhase start timeoutMs.

(** [formatUsdc(amount)]. *)
Definition formatUsdc (amount : Z) : string := toFixed2_div1e6 E amount.

(** The label of a round's winner as [playMatch] prints it. *)
Definition winnerLabel (w : string) : string :=
  if String.eqb w ZERO_ADDRESS then "Draw"
  else if String.eqb (toLowerCase w) (toLowerCase (address self)) then "You"
  else "Opponent".

Definition roundResultOf (isPlayer1 : bool) (r : Z) (rd : RoundData) : RoundResult :=
  let myC := if isPlayer1 then choiceP1 rd else choiceP2 rd in
  let oppC := if isPlayer1 then choiceP2 rd else choiceP1 rd in
  mkRoundResult r (js_index CHOICE_NAMES myC) (js_index CHOICE_NAMES oppC)
                (winnerLabel (winner rd)).

(** One pass of [for (let r = 1; r <= match.currentRound; r++)]: the
    body with its [try]/[catch] around [getRound]. *)
Definition rebuildRound (matchId : Z) (isPlayer1 : bool) (r : Z)
           (fullRounds : list RoundResult) : M E (list RoundResult) :=
  try_catch
    (let* rd := getRound matchId r in
     if (choiceP1 rd >? 0)%Z && (choiceP2 rd >? 0)%Z
     then ret (fullRounds ++ [roundResultOf isPlayer1 r rd])%list
     else ret fullRounds)
    (fun _ => ret fullRounds).

(** The counted loop: [n] passes starting at index [r]. *)
Fixpoint rebuildRounds (n : nat) (matchId : Z) (isPlayer1 : bool) (r : Z)
         (fullRounds : list RoundResult) : M E (list RoundResult) :=
  match n with
  | O => ret fullRounds
  | S n' =>
      let* acc := rebuildRound matchId isPlayer1 r fullRounds in
      rebuildRounds n' matchId isPlayer1 (r + 1) acc
  end.

(** The [match.state === MatchState.COMPLETE] branch of [playMatch]. *)
Definition finalizeComplete (matchId : Z) (isPlayer1 claimedTimeout : bool)
           (m : MatchData) : M E MatchResult :=
  let myWins := if isPlayer1 then winsP1 m else winsP2 m in
  let oppWins := if isPlayer1 then winsP2 m else winsP1 m in
  let iWon := claimedTimeout || (myWins >? oppWins)%Z in
  let originalPot := (entryFee m * 2)%Z in
  let prize := if iWon then formatUsdc ((originalPot * 98) / 100)%Z else "0.00" in
  let opponent := if isPlayer1 then player2 m else player1 m in
  let* fullRounds :=
    rebuildRounds (Z.to_nat (currentRound m)) matchId isPlayer1 1 [] in
  ret (mkMatchResult matchId iWon myWins oppWins fullRounds
                     (prize +:+ " USDC") opponent).

(** The [match.state === MatchState.CANCELLED] branch of [playMatch]. *)
Definition cancelledResult (matchId : Z) (roundResults : list RoundResult)
  : MatchResult :=
  mkMatchResult matchId false 0 0 roundResults "0.00 USDC (refunded)" "N/A".

(** The locals of [playMatch] that live across passes of its main loop. *)
Record LoopState : Type := mkLoop {
  roundResults : list RoundResult;
  claimedTimeout : bool
}.

(** The first loop of [playMatch]: wait (at most 120 s) for the match to
    be ACTIVE with a round open, or to have ended. *)
Fixpoint waitActive (fuel : nat) (matchId waitStart : Z) : M E unit :=
  match fuel with
  | O => out_of_fuel
  | S fuel' =>
      let* now := dateNow in
      if (now - waitStart <? 120000)%Z then
        let* m := getMatch matchId in
        if (state m =? MatchState.ACTIVE)%Z && (currentRound m >=? 1)%Z then ret tt
        else if (state m =? MatchState.COMPLETE)%Z || (state m =? MatchState.CANCELLED)%Z
        then ret tt
        else sleep 2000 ;; waitActive fuel' matchId waitStart
      else ret tt
  end.

(** The [round.phase === RoundPhase.COMMIT] branch of the main loop. *)
Definition commitPhase (fuel : nat) (matchId : Z) (isPlayer1 : bool)
           (st : LoopState) (round : RoundData) : M E (LoopState + MatchResult) :=
  let myCommit := if isPlayer1 then commitP1 round else commitP2 round in
  (if String.eqb myCommit ZERO_BYTES32 then
     let* choice := pickRandomChoice in
     commit matchId choice ;; ret tt
   else ret tt) ;;
  let* result := waitForPhase fuel matchId RoundPhase.REVEAL 180000 in
  match result with
  | TimeoutClaimed => ret (inl (mkLoop (roundResults st) true))
  | MatchEnded => ret (inl st)
  | WaitOk => ret (inl st)
  end.

(** The [round.phase === RoundPhase.REVEAL] branch of the main loop. *)
Definition revealPhase (matchId : Z) (isPlayer1 : bool) (st : LoopState)
           (m : MatchData) (round : RoundData) : M E (LoopState + MatchResult) :=
  let myChoice := if isPlayer1 then choiceP1 round else choiceP2 round in
  (if (myChoice =? Choice.None)%Z then reveal matchId ;; ret tt else ret tt) ;;
  sleep 3000 ;;
  try_catch
    (let* completedRound := getRound matchId (currentRound m) in
     if (phase completedRound =? RoundPhase.COMPLETE)%Z then
       ret (inl (mkLoop (roundResults st ++
                           [roundResultOf isPlayer1 (currentRound m) completedRound])%list
                        (claimedTimeout st)))
     else ret (inl st))
    (fun _ => ret (inl st)).

(** One pass through the body of [while (true)]: [inr result] for a
    [return], [inl st] for the next pass ([continue] or falling off the
    end of the body). *)
Definition playMatch_pass (fuel : nat) (matchId : Z) (isPlayer1 : bool)
           (st : LoopState) : M E (LoopState + MatchResult) :=
  let* m := getMatch matchId in
  if (state m =? MatchState.WAITING)%Z then
    sleep 2000 ;; ret (inl st)
  else if (state m =? MatchState.COMPLETE)%Z then
    let* res := finalizeComplete matchId isPlayer1 (claimedTimeout st) m in
    ret (inr res)
  else if (state m =? MatchState.CANCELLED)%Z then
    ret (inr (cancelledResult matchId (roundResults st)))
  else
    let* round := getRound matchId (currentRound m) in
    if (phase round =? RoundPhase.COMMIT)%Z then
      commitPhase fuel matchId isPlayer1 st round
    else if (phase round =? RoundPhase.REVEAL)%Z then
      revealPhase matchId isPlayer1 st m round
    else
      sleep 2000 ;; ret (inl st).

Fixpoint playMatch_loop (fuel : nat) (matchId : Z) (isPlayer1 : bool)
         (st : LoopState) : M E MatchResult :=
  match fuel with
  | O => out_of_fuel
  | S fuel' =>
      let* next := playMatch_pass fuel' matchId isPlayer1 st in
      match next with
      | inr res => ret res
      | inl st' => playMatch_loop fuel' matchId isPlayer1 st'
      end
  end.

Definition playMatch (fuel : nat) (matchId : Z) (isPlayer1 : bool) : M E MatchResult :=
  let* waitStart := dateNow in
  waitActive fuel matchId waitStart ;;
  playMatch_loop fuel matchId isPlayer1 (mkLoop [] false).
End RPSAgent.

(* Proofs unfold these one at a time. *)
Arguments send : simpl never.
Arguments waitForPhase : simpl never.
Arguments finalizeComplete : simpl never.
Arguments commitPhase : simpl never.
Arguments revealPhase : simpl never.
Arguments pickRandomChoice : simpl never.
Arguments randomBytes : simpl never.
Arguments bytesToHex : simpl never.
Arguments encodePacked_uint8_bytes32 : simpl never.
Arguments commit : simpl never.
Arguments reveal : simpl never.
Arguments claimTimeout : simpl never.

(** The byte of a choice code, and the secrets [commit] writes: a code
    that fits one byte and a blinding value that is the hex text of 32
    bytes. *)
Definition choice_byte (c : ChoiceType) : byte :=
  match c with
  | CNone => x00
  | CRock => x01
  | CPaper => x02
  | CScissors => x03
  end.

Definition wf_secret (s : StoredSecret) : Prop :=
  ∃ (b : byte) (bs : list byte),
    List.length bs = 32%nat
    ∧ ss_choice s = Z.of_N (Byte.to_N b)
    ∧ ss_secret s = "0x" +:+ bytesToHex bs.

(** ** Reading the trace *)

(** A confirmed timeout claim: the receipt of a [claimTimeout] call that
    reports "success". *)
Definition is_claim_confirmed (ev : Event) : bool :=
  match ev with
  | EvReceipt (CallClaimTimeout _) _ (Resolved st) => String.eqb st "success"
  | _ => false
  end.

Definition claimed_in (tr : list Event) : bool := List.existsb is_claim_confirmed tr.

(** The match of a submitted [claimTimeout] call. *)
Definition claim_submitted (ev : Event) : option Z :=
  match ev with
  | EvWrite (CallClaimTimeout id) _ _ => Some id
  | _ => None
  end.

(** The block timestamp and the round snapshot read right before a point
    of the trace (newest first: the block read, then the round read). *)
Definition observed_before (older : list Event) : option (Z * RoundData) :=
  match older with
  | EvGetBlock (Resolved ts) :: EvGetRound _ _ (Resolved rd) :: _ => Some (ts, rd)
  | _ => None
  end.

(** Every submitted timeout claim of the trace is for match [matchId] and
    directly follows a block read and a round read that satisfy [cond]. *)
Fixpoint claims_obey (matchId : Z) (cond : Z → RoundData → Prop) (tr : list Event)
  : Prop :=
  match tr with
  | [] => True
  | ev :: older =>
      match claim_submitted ev with
      | Some id =>
          id = matchId
          ∧ match observed_before older with
            | Some (ts, rd) => cond ts rd
            | None => False
            end
      | None => True
      end
      ∧ claims_obey matchId cond older
  end.

(** The condition [waitForPhase] tests before claiming: not yet in the
    target phase, a deadline assigned, and the block time past it. *)
Definition deadline_passed (targetPhase : Z) (timestamp : Z) (rd : RoundData) : Prop :=
  phase rd ≠ targetPhase
  ∧ (0 < phaseDeadline rd)%Z
  ∧ (phaseDeadline rd < timestamp)%Z.

(** The condition in the words of the design document: the time exceeds
    the deadline by a grace margin and the opponent's required action is
    still absent (its commitment in COMMIT, its revealed choice in REVEAL). *)
Definition opponent_action_absent (isPlayer1 : bool) (rd : RoundData) : Prop :=
  (phase rd = RoundPhase.COMMIT
   ∧ (if isPlayer1 then commitP2 rd else commitP1 rd) = ZERO_BYTES32)
  ∨ (phase rd = RoundPhase.REVEAL
     ∧ (if isPlayer1 then choiceP2 rd else choiceP1 rd) = Choice.None).

Definition deadline_passed_with_grace (grace : Z) (isPlayer1 : bool)
           (timestamp : Z) (rd : RoundData) : Prop :=
  (phaseDeadline rd + grace < timestamp)%Z ∧ opponent_action_absent isPlayer1 rd.

(** The integers [start, start + 1, ...], [n] of them: the values the
    counter of a counted [for] loop takes. *)
Fixpoint Zseq (start : Z) (n : nat) : list Z :=
  match n with
  | O => []
  | S n' => start :: Zseq (start + 1) n'
  end.

(** [rd.choiceP1 > 0 && rd.choiceP2 > 0]: both sides show a revealed choice. *)
Definition both_revealed (rd : RoundData) : bool :=
  (choiceP1 rd >? 0)%Z && (choiceP2 rd >? 0)%Z.

(** The event is a resolved read of round [k] of the match that shows
    both choices revealed. *)
Definition shows_round (matchId k : Z) (ev : Event) : bool :=
  match ev with
  | EvGetRound id r (Resolved rd) => (id =? matchId)%Z && (r =? k)%Z && both_revealed rd
  | _ => false
  end.

Definition round_shown (matchId : Z) (tr : list Event) (k : Z) : bool :=
  List.existsb (shows_round matchId k) tr.

(** What one pass of the rebuild loop appends for the reply to its read. *)
Definition keep_round (self : Agent) (isPlayer1 : bool) (r : Z)
           (rep : Reply RoundData) : list RoundResult :=
  match rep with
  | Resolved rd => if both_revealed rd then [roundResultOf self isPlayer1 r rd] else []
  | Rejected _ => []
  end.

(** The event is a read of a round of the match with index in [lo, hi). *)
Definition reads_round_in (matchId lo hi : Z) (ev : Event) : Prop :=
  ∃ k rep, ev = EvGetRound matchId k rep ∧ (lo <= k < hi)%Z.

(** The events are all reads of rounds of the match: there is no read of
    the match itself, and no other call, among them. *)
Definition only_round_reads (matchId : Z) (tr : list Event) : Prop :=
  Forall (fun ev => ∃ k rep, ev = EvGetRound matchId k rep) tr.

(** The history entry [rr] was built from a resolved read recorded in [tr]. *)
Definition entry_from (self : Agent) (matchId : Z) (isPlayer1 : bool)
           (tr : list Event) (rr : RoundResult) : Prop :=
  ∃ rd, In (EvGetRound matchId (rr_round rr) (Resolved rd)) tr
        ∧ rr = roundResultOf self isPlayer1 (rr_round rr) rd.

(** The round history [rounds] rebuilt by the reads [fin] of a match that
    ended with round counter [N]: every index 1..N was read, nothing else
    was, and the history holds, in ascending order, exactly the indices
    whose read shows both sides revealed. *)
Definition history_of (self : Agent) (matchId : Z) (isPlayer1 : bool) (N : Z)
           (fin : list Event) (rounds : list RoundResult) : Prop :=
  Forall (reads_round_in matchId 1 (1 + Z.of_nat (Z.to_nat N))) fin
  ∧ (∀ k, (1 <= k <= N)%Z → ∃ rep, In (EvGetRound matchId k rep) fin)
  ∧ List.map rr_round rounds
    = List.filter (round_shown matchId fin) (Zseq 1 (Z.to_nat N))
  ∧ Forall (entry_from self matchId isPlayer1 fin) rounds.

(** The result [playMatch] returns for the COMPLETE snapshot [m]. *)
Definition complete_outcome (isPlayer1 claimed : bool) (m : MatchData)
           (res : MatchResult) : Prop :=
  let myWins := if isPlayer1 then winsP1 m else winsP2 m in
  let oppWins := if isPlayer1 then winsP2 m else winsP1 m in
  mr_won res = claimed || (myWins >? oppWins)%Z
  ∧ mr_score_player res = myWins
  ∧ mr_score_opponent res = oppWins.

(** What [playMatch] returns after its last read [m] of the match, given
    whether a timeout claim of its own was confirmed before that read
    ([claimed]) and the reads [fin] it made afterwards. *)
Definition final_outcome (self : Agent) (matchId : Z) (isPlayer1 claimed : bool)
           (m : MatchData) (fin : list Event) (res : MatchResult) : Prop :=
  (state m = MatchState.COMPLETE
   ∧ complete_outcome isPlayer1 claimed m res
   ∧ history_of self matchId isPlayer1 (currentRound m) fin (mr_rounds res))
  ∨ (state m = MatchState.CANCELLED
     ∧ fin = []
     ∧ ∃ rounds, res = cancelledResult matchId rounds).

(** A computation that confirms no timeout claim, whatever the world it
    runs in. *)
Definition quiet (E : Env) {A : Type} (c : M E A) : Prop :=
  ∀ w, ∃ new, trace (c w).2 = (new ++ trace w)%list ∧ claimed_in new = false.

(** What a pass of the main loop of [playMatch] reports to the loop. *)
Definition pass_post {E : Env} (self : Agent) (matchId : Z) (isPlayer1 : bool)
           (st : LoopState) (w : World E) (out : Outcome (LoopState + MatchResult))
           (w' : World E) : Prop :=
  match out with
  | Ok (inl st') =>
      ∃ new, trace w' = (new ++ trace w)%list
             ∧ claimedTimeout st' = claimedTimeout st || claimed_in new
  | Ok (inr res) =>
      ∃ m fin, trace w' = (fin ++ EvGetMatch matchId (Resolved m) :: trace w)%list
               ∧ final_outcome self matchId isPlayer1 (claimedTimeout st) m fin res
  | _ => True
  end.

(** ** A scripted environment

    Replies are a function of the number of environment calls made so far
    (and of the call's arguments); used for the concrete runs below. *)

Record Script : Type := mkScript {
  sc_match : nat → Z → Reply MatchData;
  sc_round : nat → Z → Z → Reply RoundData;
  sc_block : nat → Reply Z;
  sc_write : nat → Call → Reply string;
  sc_receipt : nat → string → Reply string
}.

Definition scripted (sc : Script) : Env :=
  {| env_state := nat;
     rpc_getMatch := fun n id => (S n, sc_match sc n id);
     rpc_getRound := fun n id r => (S n, sc_round sc n id r);
     rpc_getBlock := fun n => (S n, sc_block sc n);
     rpc_write := fun n c _ => (S n, sc_write sc n c);
     rpc_receipt := fun n h => (S n, sc_receipt sc n h);
     clock_now := fun n => (S n, 1000 * Z.of_nat n)%Z;
     clock_sleep := fun n _ => S n;
     os_randomBytes := fun n => (S n, fun i => if Nat.even i then x2a else x17);
     os_randomInt := fun n => (S n, Z.of_nat n);
     fs_write := fun n _ => S n;
     keccak256 := fun s => "keccak256(" +:+ s +:+ ")";
     toFixed2_div1e6 := fun z =>
       let cents := ((z mod 1000000) / 10000)%Z in
       pretty (z / 1000000)%Z +:+ "." +:+ pretty (cents / 10)%Z +:+ pretty (cents mod 10)%Z |}.

Definition startWorld (sc : Script) (store : gmap string StoredSecret)
  : World (scripted sc) :=
  mkWorld (O : env_state (scripted sc)) store [].

Definition demoAgent : Agent := mkAgent "0xA11ce00000000000000000000000000000000001" 8453.
Definition demoOpponent : string := "0xB0b0000000000000000000000000000000000002".

Definition demoMatch (st w1 w2 rnd : Z) : MatchData :=
  mkMatch (address demoAgent) demoOpponent 1000000 2000000 st w1 w2 rnd 1700000000 1700000060.

Definition demoCommit : string :=
  "0x1111111111111111111111111111111111111111111111111111111111111111".

Definition demoRound (c1 c2 : string) (ch1 ch2 ph deadline : Z) : RoundData :=
  mkRound c1 c2 ch1 ch2 ph deadline ZERO_ADDRESS.

(** Match 7 is ACTIVE in round 1, still in COMMIT with only player 1
    committed; the phase deadline is 1000 and the latest block is stamped
    [blockTime]; every transaction is accepted. After [endsAt]
    environment calls the match reads as [finalState] with no wins. *)
Definition timeoutScript (blockTime : Z) (endsAt : nat) (finalState : Z) : Script :=
  mkScript
    (fun n _ => Resolved (if (n <? endsAt)%nat
                          then demoMatch MatchState.ACTIVE 0 0 1
                          else demoMatch finalState 0 0 1))
    (fun _ _ _ => Resolved (demoRound demoCommit ZERO_BYTES32 0 0 RoundPhase.COMMIT 1000))
    (fun _ => Resolved blockTime)
    (fun _ _ => Resolved "0xfeed")
    (fun _ _ => Resolved "success").

(** Match 7 is over after three rounds, two wins to nil: rounds 1 and 2
    were played out, round 3 was forfeited at reveal by player 2. *)
Definition forfeitScript : Script :=
  mkScript
    (fun _ _ => Resolved (demoMatch MatchState.COMPLETE 2 0 3))
    (fun _ _ r => Resolved (if (r <? 3)%Z
                            then mkRound demoCommit demoCommit Choice.Rock Choice.Scissors
                                         RoundPhase.COMPLETE 0 (address demoAgent)
                            else demoRound demoCommit demoCommit Choice.Paper Choice.None
                                           RoundPhase.REVEAL 1000))
    (fun _ => Resolved 2000%Z)
    (fun _ _ => Resolved "0xfeed")
    (fun _ _ => Resolved "success").

(** Match 7 was cancelled. *)
Definition cancelledScript : Script :=
  mkScript
    (fun _ _ => Resolved (demoMatch MatchState.CANCELLED 0 0 0))
    (fun _ _ _ => Rejected "round not found")
    (fun _ => Resolved 2000%Z)
    (fun _ _ => Resolved "0xfeed")
    (fun _ _ => Resolved "success").

(** A secret as [commit] stores it: Rock and 32 bytes of blinding. *)
Definition demoSecret : StoredSecret := mkSecret Choice.Rock demoCommit.
Definition demoStore : gmap string StoredSecret := {[ "8453-7-1" := demoSecret ]}.

(** The result a run returned ([playMatch] returned in each run below). *)
Definition resultOf {E : Env} (run : Outcome MatchResult * World E) : MatchResult :=
  match run.1 with
  | Ok res => res
  | _ => cancelledResult 0 []
  end.

(** A first commit of Rock for round 1 of match 7 into an empty store,
    and the secret it stores (the 32 bytes of the scripted entropy). *)
Definition firstCommit :=
  commit demoAgent 7 CRock (startWorld (timeoutScript 2000 12 MatchState.COMPLETE) ∅).

Definition firstSecret : StoredSecret :=
  mkSecret Choice.Rock
    ("0x" +:+ bytesToHex (List.map (fun i => if Nat.even i then x2a else x17)
                                   (List.seq 0 32))).

(** The concrete runs. *)

(** The opponent never commits; the block is stamped 2000, past the
    deadline 1000; the claim goes through and the match then reads
    COMPLETE at 0-0. *)
Definition timeoutRun :=
  playMatch demoAgent 5 7 true
            (startWorld (timeoutScript 2000 12 MatchState.COMPLETE) ∅).

Definition forfeitRun :=
  playMatch demoAgent 5 7 true (startWorld forfeitScript ∅).

Definition cancelledRun :=
  playMatch demoAgent 5 7 false (startWorld cancelledScript ∅).

(** The wait loop alone, with the block stamped 1001: one second past
    the deadline 1000. *)
Definition graceRun :=
  waitForPhase 3 7 RoundPhase.REVEAL 180000
               (startWorld (timeoutScript 1001 100 MatchState.ACTIVE) ∅).

(** ** Further definitions: the resolver under a swap of the sides *)

(** The same match and last round with the two sides exchanged. *)
Definition swapMatch (m : MatchData) : MatchData :=
  mkMatch (player2 m) (player1 m) (entryFee m) (pot m) (state m)
          (winsP2 m) (winsP1 m) (currentRound m) (createdAt m) (startedAt m).

Definition swapLastRound (lr : LastRound) : LastRound :=
  mkLastRound (lr_commitP2 lr) (lr_commitP1 lr) (lr_choiceP2 lr) (lr_choiceP1 lr).

(** ** Further definitions: what a state-changing call leaves in the trace *)

(** The events [send c gas] puts on top of [base], and its outcome: it
    resolves with the hash after a receipt that says "success"; it throws
    after a rejected write, or after a write and a receipt that is
    rejected or says anything else. *)
Definition send_shape (c : Call) (gas : Z) (out : Outcome string)
           (base tr : list Event) : Prop :=
  (∃ h, out = Ok h
        ∧ tr = EvReceipt c h (Resolved "success") :: EvWrite c gas (Resolved h) :: base)
  ∨ (∃ e, out = Throw e
          ∧ ((∃ r, tr = EvWrite c gas (Rejected r) :: base)
             ∨ (∃ h rr, rr ≠ Resolved "success"
                        ∧ tr = EvReceipt c h rr :: EvWrite c gas (Resolved h) :: base))).

(** Between [w] and [w'] the store did not change, or the newest save in
    the trace of [w'] holds the store of [w']. *)
Definition saved_last {E : Env} (w w' : World E) : Prop :=
  secrets w' = secrets w
  ∨ ∃ pre older,
      trace w' = (pre ++ EvSave (secrets w') :: older)%list
      ∧ Forall (fun ev => ∀ snap, ev ≠ EvSave snap) pre.

(** The commitment rebuilt from a stored secret. *)
Definition commitmentOf (E : Env) (s : StoredSecret) : Reply string :=
  match encodePacked_uint8_bytes32 (ss_choice s) (ss_secret s) with
  | Resolved packed => Resolved (keccak256 E packed)
  | Rejected e => Rejected e
  end.

(** ** Further definitions: the course of [commit] and [reveal] *)

(** The course [commit] takes from [w], case by case on the reply to its
    read of the match and on what the store holds under the key of the
    round; [run] is what the call returned and the world it left. *)
Definition commit_outline {E : Env} (self : Agent) (matchId : Z) (choice : ChoiceType)
           (w : World E) (run : Outcome string * World E) : Prop :=
  match (rpc_getMatch E (ext w) matchId).2 with
  | Rejected e =>
      run.1 = Throw e ∧ secrets run.2 = secrets w
      ∧ trace run.2 = EvGetMatch matchId (Rejected e) :: trace w
  | Resolved m =>
      let key := secretKey (chainId self) matchId (currentRound m) in
      let read := EvGetMatch matchId (Resolved m) :: trace w in
      match secrets w !! key with
      | Some old =>
          secrets run.2 = secrets w
          ∧ match encodePacked_uint8_bytes32 (ss_choice old) (ss_secret old) with
            | Rejected e => run.1 = Throw e ∧ trace run.2 = read
            | Resolved packed =>
                send_shape (CallCommit matchId (keccak256 E packed)) 150000
                           run.1 read (trace run.2)
            end
      | None =>
          ∃ bs, List.length bs = 32%nat
                ∧ let s := mkSecret (choice_code choice) ("0x" +:+ bytesToHex bs) in
                  let packed := "0x" +:+ bytesToHex (choice_byte choice :: bs) in
                  encodePacked_uint8_bytes32 (ss_choice s) (ss_secret s) = Resolved packed
                  ∧ secrets run.2 = <[key := s]> (secrets w)
                  ∧ send_shape (CallCommit matchId (keccak256 E packed)) 150000 run.1
                               (EvSave (<[key := s]> (secrets w)) :: EvRandom :: read)
                               (trace run.2)
      end
  end.

(** The course [reveal] takes from [w]. *)
Definition reveal_outline {E : Env} (self : Agent) (matchId : Z)
           (w : World E) (run : Outcome string * World E) : Prop :=
  match (rpc_getMatch E (ext w) matchId).2 with
  | Rejected e =>
      run.1 = Throw e ∧ secrets run.2 = secrets w
      ∧ trace run.2 = EvGetMatch matchId (Rejected e) :: trace w
  | Resolved m =>
      let key := secretKey (chainId self) matchId (currentRound m) in
      let read := EvGetMatch matchId (Resolved m) :: trace w in
      match secrets w !! key with
      | None =>
          run.1 = Throw ("No stored secret for match " +:+ pretty matchId +:+
                         " round " +:+ pretty (currentRound m))
          ∧ secrets run.2 = secrets w ∧ trace run.2 = read
      | Some st =>
          let call := CallReveal matchId (ss_choice st) (ss_secret st) in
          (∃ h, run.1 = Ok h
                ∧ secrets run.2 = delete key (secrets w)
                ∧ trace run.2 = EvSave (delete key (secrets w))
                                  :: EvReceipt call h (Resolved "success")
                                  :: EvWrite call 500000 (Resolved h) :: read)
          ∨ (∃ e, run.1 = Throw e
                  ∧ secrets run.2 = secrets w
                  ∧ send_shape call 500000 (Throw e) read (trace run.2))
      end
  end.

(** No event of the list is a submitted transaction. *)
Definition no_writes (tr : list Event) : Prop :=
  Forall (fun ev => ∀ c gas r, ev ≠ EvWrite c gas r) tr.

(** The environment of the first commit. *)
Definition demoEnv : Env := scripted (timeoutScript 2000 12 MatchState.COMPLETE).

(** The reveal that follows the first commit, in the world it left. *)
Definition firstReveal := reveal demoAgent 7 firstCommit.2.

(** ** Further definitions: relations a computation keeps *)

(** [c] relates the world it starts in to the world it leaves by [R],
    whatever its outcome. *)
Definition keeps {E : Env} (R : World E → World E → Prop) {A : Type} (c : M E A)
  : Prop :=
  ∀ w, R w (c w).2.

(** The store is as it was and the trace grew by events that satisfy [φ]. *)
Definition step_ok {E : Env} (φ : Event → Prop) (w w' : World E) : Prop :=
  secrets w' = secrets w
  ∧ ∃ new, trace w' = (new ++ trace w)%list ∧ Forall φ new.

(** The trace grew by events that satisfy [φ]. *)
Definition emitted {E : Env} (φ : Event → Prop) (w w' : World E) : Prop :=
  ∃ new, trace w' = (new ++ trace w)%list ∧ Forall φ new.

(** The confirmed reveal of the secret [s] for match [matchId]. *)
Definition reveal_confirmed (matchId : Z) (s : StoredSecret) (ev : Event) : Prop :=
  ∃ h, ev = EvReceipt (CallReveal matchId (ss_choice s) (ss_secret s)) h
                      (Resolved "success").

(** Every secret the store of [w] holds is still in the store of [w']
    under its key, unless its reveal for match [matchId] was confirmed in
    between. *)
Definition sec_kept {E : Env} (matchId : Z) (w w' : World E) : Prop :=
  ∃ new, trace w' = (new ++ trace w)%list
         ∧ ∀ k s, secrets w !! k = Some s →
                  secrets w' !! k = Some s
                  ∨ Exists (reveal_confirmed matchId s) new.

(** ** Further definitions: what the result of [waitForPhase] means *)

(** The event is a read (of a match, a round or the latest block) that
    was rejected with [e]. *)
Definition rejected_read (e : Exn) (ev : Event) : Prop :=
  (∃ id, ev = EvGetMatch id (Rejected e))
  ∨ (∃ id r, ev = EvGetRound id r (Rejected e))
  ∨ ev = EvGetBlock (Rejected e).

(** The newest events of the trace [tr] that [waitForPhase] leaves, by
    outcome; [base] is the trace it started from. *)
Definition wait_verdict (matchId targetPhase timeoutMs : Z) (base : list Event)
           (out : Outcome WaitResult) (tr : list Event) : Prop :=
  match out with
  | Ok WaitOk =>
      ∃ m rd older,
        tr = EvGetRound matchId (currentRound m) (Resolved rd)
               :: EvGetMatch matchId (Resolved m) :: older
        ∧ phase rd = targetPhase
        ∧ state m ≠ MatchState.COMPLETE ∧ state m ≠ MatchState.CANCELLED
  | Ok MatchEnded =>
      ∃ m older,
        tr = EvGetMatch matchId (Resolved m) :: older
        ∧ (state m = MatchState.COMPLETE ∨ state m = MatchState.CANCELLED)
  | Ok TimeoutClaimed =>
      ∃ h older,
        tr = EvReceipt (CallClaimTimeout matchId) h (Resolved "success") :: older
  | Throw e =>
      (e = "Timeout waiting for phase change"
       ∧ ∃ t start between,
           tr = (EvNow t :: between ++ EvNow start :: base)%list
           ∧ (timeoutMs <= t - start)%Z)
      ∨ (∃ ev older, tr = ev :: older ∧ rejected_read e ev)
  | OutOfFuel => True
  end.

(** ** Read helpers (read-helpers.ts): match details *)

(** One entry of [rounds] in the object [getMatchDetails] returns. *)
Record RoundView : Type := mkRoundView {
  rv_round : Z;
  rv_phase : option string;
  rv_choiceP1 : option string;
  rv_choiceP2 : option string;
  rv_winner : string;
  rv_phaseDeadline : option Z
}.

(** The object [getMatchDetails] returns; [md_winner] is [None] for [null]. *)
Record MatchDetails : Type := mkMatchDetails {
  md_matchId : Z;
  md_player1 : string;
  md_player2 : string;
  md_entryFee : string;
  md_pot : string;
  md_state : option string;
  md_winner : option string;
  md_score : string;
  md_currentRound : Z;
  md_createdAt : string;
  md_rounds : list RoundView
}.

Definition roundView (r : Z) (round : RoundData) : RoundView :=
  mkRoundView r
    (js_index ["Commit"; "Reveal"; "Complete"] (phase round))
    (js_index ["None"; "Rock"; "Paper"; "Scissors"] (choiceP1 round))
    (js_index ["None"; "Rock"; "Paper"; "Scissors"] (choiceP2 round))
    (if String.eqb (winner round) ZERO_ADDRESS then "Draw" else winner round)
    (if (phaseDeadline round >? 0)%Z then Some (phaseDeadline round) else None).

(** The commitments and choices [getMatchDetails] keeps of a round. *)
Definition lastRawOf (round : RoundData) : LastRound :=
  mkLastRound (commitP1 round) (commitP2 round) (choiceP1 round) (choiceP2 round).

Section ReadHelpers.
Context {E : Env}.
(* new Date(Number(createdAt) * 1000).toISOString(): throws a RangeError
   on a time value out of range *)
Variable toISOString : Z → Reply string.

(** [for (let r = 1; r <= maxRound; r++) { try { ... } catch { break; } }]:
    [n] passes are left, [r] is the counter. *)
Fixpoint detailRounds (n : nat) (mid r : Z) (rounds : list RoundView)
         (lastRawRound : option LastRound)
  : M E (list RoundView * option LastRound) :=
  match n with
  | O => ret (rounds, lastRawRound)
  | S n' =>
      let* step :=
        try_catch (let* round := getRound mid r in ret (Some round))
                  (fun _ => ret None) in
      match step with
      | Some round =>
          detailRounds n' mid (r + 1) (rounds ++ [roundView r round])%list
                       (Some (lastRawOf round))
      | None => ret (rounds, lastRawRound)
      end
  end.

Definition getMatchDetails (matchId : Z) : M E MatchDetails :=
  let mid := matchId in
  let* m := getMatch mid in
  let maxRound := currentRound m in
  let* looped := detailRounds (Z.to_nat maxRound) mid 1 [] None in
  let rounds := looped.1 in
  let lastRawRound := looped.2 in
  let winner :=
    if (state m =? MatchState.COMPLETE)%Z
    then Some (default "timeout" (determineMatchWinner m lastRawRound))
    else None in
  let* created := liftReply (toISOString (createdAt m)) in
  ret (mkMatchDetails
         matchId
         (player1 m)
         (if String.eqb (player2 m) ZERO_ADDRESS then "None (waiting)" else player2 m)
         (formatUsdc (E:=E) (entryFee m) +:+ " USDC")
         (formatUsdc (E:=E) (if str_neq (player2 m) ZERO_ADDRESS
                             then entryFee m * 2 else entryFee m)%Z +:+ " USDC")
         (js_index STATE_NAMES (state m))
         winner
         (pretty (winsP1 m) +:+ " - " +:+ pretty (winsP2 m))
         (currentRound m)
         created
         rounds).
End ReadHelpers.

(** The entries for the rounds [rds], numbered from [r]. *)
Fixpoint views (r : Z) (rds : list RoundData) : list RoundView :=
  match rds with
  | [] => []
  | rd :: rest => roundView r rd :: views (r + 1) rest
  end.

(** The resolved reads of the rounds [rds], numbered from [r], oldest first. *)
Fixpoint round_reads (matchId r : Z) (rds : list RoundData) : list Event :=
  match rds with
  | [] => []
  | rd :: rest => EvGetRound matchId r (Resolved rd) :: round_reads matchId (r + 1) rest
  end.

(** A run of [getMatchDetails] for the forfeited match. *)
Definition detailsRun :=
  getMatchDetails (fun z => Resolved (pretty z)) 7 (startWorld forfeitScript ∅).

(** ** Tools (tools.ts): play_round *)

(** The double quote, for texts that hold one. *)
Definition dquote : string := String (Ascii.ascii_of_nat 34) EmptyString.

(** The text a template literal prints for an array read. *)
Definition js_text (o : option string) : string := default "undefined" o.

(** What the read [choiceMap[choiceStr]] gives on the object literal
    [{ rock, paper, scissors }]: one of its own three members; a member
    that every plain object inherits from [Object.prototype], which is
    not [undefined] and not a choice code (of these names only
    [constructor] and [__proto__] are all lower-case); or [undefined]. *)
Inductive ChoiceArg : Type :=
| OwnChoice (c : ChoiceType)
| InheritedMember
| NoSuchKey.

Definition objectPrototypeNames : list string :=
  ["constructor"; "__proto__"; "hasOwnProperty"; "isPrototypeOf";
   "propertyIsEnumerable"; "toLocaleString"; "toString"; "valueOf";
   "__defineGetter__"; "__defineSetter__"; "__lookupGetter__"; "__lookupSetter__"].

Definition choiceMap (choiceStr : string) : ChoiceArg :=
  if String.eqb choiceStr "rock" then OwnChoice CRock
  else if String.eqb choiceStr "paper" then OwnChoice CPaper
  else if String.eqb choiceStr "scissors" then OwnChoice CScissors
  else if existsb (String.eqb choiceStr) objectPrototypeNames
  then InheritedMember
  else NoSuchKey.

(** The ends of the object returned for a round that completed. *)
Inductive RoundEnding : Type :=
| MatchOver (matchWinner prize : string)
| MatchGoesOn (nextRound : Z) (message : string).

(** The objects [play_round] hands to [JSON.stringify]. *)
Inductive PlayRoundReply : Type :=
| PRError (error : string)
| PRTimeoutWin (matchId round : Z) (yourChoice : option string) (message : string)
               (matchComplete : bool) (you opponent : Z)
| PRIncomplete (matchId round : Z) (yourChoice : option string) (message : string)
| PRRound (matchId round : Z) (yourChoice opponentChoice : option string)
          (roundWinner : string) (you opponent : Z) (ending : RoundEnding).

Section Tools.
Context {E : Env}.
(* String.prototype.toLowerCase of the platform: the lower-casing of
   Unicode text; [args.choice] is any text the caller sends *)
Variable toLowerCase : string → string.
Variable self : Agent.

(** [agent.commit(matchId, choice)] for the value the map read gave. An
    inherited member takes the same course as a choice until
    [encodePacked] is asked to encode it as [uint8], which throws (the
    text of that error is not modelled). *)
Definition commitArg (matchId : Z) (arg : ChoiceArg) : M E string :=
  match arg with
  | OwnChoice c => commit self matchId c
  | _ =>
      let* m := getMatch matchId in
      let key := secretKey (chainId self) matchId (currentRound m) in
      let* existing := secrets_get key in
      match existing with
      | Some existing =>
          let* packed :=
            liftReply (encodePacked_uint8_bytes32 (ss_choice existing)
                                                  (ss_secret existing)) in
          let commitment := keccak256 E packed in
          send (CallCommit matchId commitment) 150000 "Commit transaction failed: "
      | None =>
          let* bytes := randomBytes 32 in
          throw "Cannot convert to a BigInt"
      end
  end.

(** [CHOICE_NAMES[choice]]. *)
Definition choiceName (arg : ChoiceArg) : option string :=
  match arg with
  | OwnChoice c => js_index CHOICE_NAMES (choice_code c)
  | _ => None
  end.

(** The claim of a timeout inside a wait loop of [play_round], up to its
    [return]. *)
Definition timeoutWin (matchId roundNum : Z) (yourChoice : option string)
           (isPlayer1 : bool) (message : string) : M E PlayRoundReply :=
  claimTimeout matchId ;;
  sleep 3000 ;;
  let* finalMatch := getMatch matchId in
  ret (PRTimeoutWin matchId roundNum yourChoice message
         (state finalMatch =? MatchState.COMPLETE)%Z
         (if isPlayer1 then winsP1 finalMatch else winsP2 finalMatch)
         (if isPlayer1 then winsP2 finalMatch else winsP1 finalMatch)).

(** The two wait loops of [play_round],
    [while (Date.now() < commitWait)] and [while (Date.now() < revealWait)].
    They differ in the test that leaves the loop ([leave]), in the item of
    the opponent that must be missing for a claim ([absent]) and in the
    message of the result. [Some r] is [return r]; [None] is the end of
    the loop. *)
Fixpoint roundWait (fuel : nat) (leave absent : RoundData → bool)
         (onTimeout : M E PlayRoundReply) (matchId roundNum waitUntil : Z)
  : M E (option PlayRoundReply) :=
  match fuel with
  | O => out_of_fuel
  | S fuel' =>
      let* now := dateNow in
      if (now <? waitUntil)%Z then
        sleep 3000 ;;
        let* round := getRound matchId roundNum in
        if leave round then ret None
        else
          let* late :=
            (if (phaseDeadline round >? 0)%Z then
               let* t := dateNow in
               ret (t / 1000 >? phaseDeadline round + 5)%Z
             else ret false) in
          if late : bool then
            if absent round then
              let* r := onTimeout in ret (Some r)
            else roundWait fuel' leave absent onTimeout matchId roundNum waitUntil
          else roundWait fuel' leave absent onTimeout matchId roundNum waitUntil
      else ret None
  end.

(** The three phases of [play_round], from [const roundNum] on: what it
    does once the match was found ACTIVE and the caller one of its players. *)
Definition play_round_phases (fuel : nat) (matchId : Z) (choice : ChoiceArg)
           (isPlayer1 : bool) (roundNum : Z) : M E PlayRoundReply :=
  let addr := toLowerCase (address self) in
  let yourChoice := choiceName choice in
  (* Phase 1: commit *)
  let* round := getRound matchId roundNum in
  let* early :=
    (if (phase round =? RoundPhase.COMMIT)%Z then
       let myCommit := if isPlayer1 then commitP1 round else commitP2 round in
       (if String.eqb myCommit ZERO_BYTES32
        then commitArg matchId choice ;; ret tt
        else ret tt) ;;
       let* now := dateNow in
       let commitWait := (now + 90000)%Z in
       roundWait fuel
         (fun round => negb (phase round =? RoundPhase.COMMIT)%Z)
         (fun round =>
            String.eqb (if isPlayer1 then commitP2 round else commitP1 round)
                       ZERO_BYTES32)
         (timeoutWin matchId roundNum yourChoice isPlayer1
                     "Opponent timed out on commit. You win!")
         matchId roundNum commitWait
     else ret None) in
  match early with
  | Some reply => ret reply
  | None =>
      (* Phase 2: reveal *)
      let* round := getRound matchId roundNum in
      let* early :=
        (if (phase round =? RoundPhase.REVEAL)%Z then
           let myChoice := if isPlayer1 then choiceP1 round else choiceP2 round in
           (if (myChoice =? Choice.None)%Z
            then reveal self matchId ;; ret tt
            else ret tt) ;;
           let* now := dateNow in
           let revealWait := (now + 90000)%Z in
           roundWait fuel
             (fun round => (phase round =? RoundPhase.COMPLETE)%Z)
             (fun round =>
                ((if isPlayer1 then choiceP2 round else choiceP1 round)
                 =? Choice.None)%Z)
             (timeoutWin matchId roundNum yourChoice isPlayer1
                         "Opponent timed out on reveal. You win!")
             matchId roundNum revealWait
         else ret None) in
      match early with
      | Some reply => ret reply
      | None =>
          (* Phase 3: the result *)
          let* round := getRound matchId roundNum in
          let* updatedMatch := getMatch matchId in
          if negb (phase round =? RoundPhase.COMPLETE)%Z then
            ret (PRIncomplete matchId roundNum yourChoice
                   "Round did not complete within the expected time. Use get_round to check status.")
          else
            let myC := if isPlayer1 then choiceP1 round else choiceP2 round in
            let oppC := if isPlayer1 then choiceP2 round else choiceP1 round in
            let winner :=
              if String.eqb (winner round) ZERO_ADDRESS then "draw"
              else if String.eqb (toLowerCase (winner round)) addr then "you"
              else "opponent" in
            let myWins :=
              if isPlayer1 then winsP1 updatedMatch else winsP2 updatedMatch in
            let oppWins :=
              if isPlayer1 then winsP2 updatedMatch else winsP1 updatedMatch in
            ret (PRRound matchId roundNum
                   (js_index CHOICE_NAMES myC) (js_index CHOICE_NAMES oppC)
                   winner myWins oppWins
                   (if (state updatedMatch =? MatchState.COMPLETE)%Z then
                      let iWon := (myWins >? oppWins)%Z in
                      let originalPot := (entryFee updatedMatch * 2)%Z in
                      MatchOver (if iWon then "you" else "opponent")
                                (if iWon
                                 then formatUsdc (E:=E) ((originalPot * 98) / 100)%Z
                                      +:+ " USDC"
                                 else "0.00 USDC")
                    else
                      MatchGoesOn (currentRound updatedMatch)
                        "Round complete. Call play_round again for the next round."))
      end
  end.

(** [case "play_round"] of [handleToolCall]; [choiceRaw] is [args.choice]. *)
Definition play_round (fuel : nat) (matchId : Z) (choiceRaw : string)
  : M E PlayRoundReply :=
  let choiceStr := toLowerCase choiceRaw in
  let choice := choiceMap choiceStr in
  match choice with
  | NoSuchKey =>
      ret (PRError ("Invalid choice " +:+ dquote +:+ choiceRaw +:+ dquote +:+
                    ". Must be rock, paper, or scissors."))
  | _ =>
      let* m := getMatch matchId in
      if negb (state m =? MatchState.ACTIVE)%Z then
        ret (PRError ("Match #" +:+ pretty matchId +:+ " is not ACTIVE (current: " +:+
                      js_text (js_index STATE_NAMES (state m)) +:+ ")"))
      else
        let addr := toLowerCase (address self) in
        let isPlayer1 := String.eqb (toLowerCase (player1 m)) addr in
        let isPlayer2 := String.eqb (toLowerCase (player2 m)) addr in
        if negb isPlayer1 && negb isPlayer2 then
          ret (PRError ("You are not a player in match #" +:+ pretty matchId +:+ "."))
        else
          play_round_phases fuel matchId choice isPlayer1 (currentRound m)
  end.
End Tools.

Arguments commitArg : simpl never.
Arguments timeoutWin : simpl never.
Arguments play_round_phases : simpl never.

(** *** Reading the trace of [play_round] *)

(** The wall-clock time and the round snapshot read right before a point
    of the trace (newest first: the clock read, then the round read),
    with the match and the index of the round that was read. *)
Definition observed_locally (older : list Event) : option (Z * Z * Z * RoundData) :=
  match older with
  | EvNow t :: EvGetRound id r (Resolved rd) :: _ => Some (t, id, r, rd)
  | _ => None
  end.

(** Every submitted timeout claim of the trace is for match [matchId]
    and directly follows a clock read and a read of a round of that match
    that satisfy [cond]. *)
Fixpoint claims_follow (matchId : Z) (cond : Z → Z → RoundData → Prop)
         (tr : list Event) : Prop :=
  match tr with
  | [] => True
  | ev :: older =>
      match claim_submitted ev with
      | Some id =>
          id = matchId
          ∧ match observed_locally older with
            | Some (t, id', r, rd) => id' = matchId ∧ cond t r rd
            | None => False
            end
      | None => True
      end
      ∧ claims_follow matchId cond older
  end.

(** The condition [play_round] tests before it claims, on the clock read
    [t] (milliseconds) and the snapshot [rd] of round [r]: the round is
    the one being played, a deadline is assigned, the wall clock in whole
    seconds is more than 5 past it, and the opponent's item is missing
    (its commitment while the round is in COMMIT; its revealed choice
    while the round is not COMPLETE). *)
Definition round_claim_cond (isPlayer1 : bool) (roundNum : Z)
           (t r : Z) (rd : RoundData) : Prop :=
  r = roundNum
  ∧ (0 < phaseDeadline rd)%Z
  ∧ (phaseDeadline rd + 5 < t / 1000)%Z
  ∧ ((phase rd = RoundPhase.COMMIT
      ∧ (if isPlayer1 then commitP2 rd else commitP1 rd) = ZERO_BYTES32)
     ∨ (phase rd ≠ RoundPhase.COMPLETE
        ∧ (if isPlayer1 then choiceP2 rd else choiceP1 rd) = Choice.None)).

(** The trace grew by events whose timeout claims follow [cond]. *)
Definition claims_kept {E : Env} (matchId : Z) (cond : Z → Z → RoundData → Prop)
           (w w' : World E) : Prop :=
  ∃ new, trace w' = (new ++ trace w)%list ∧ claims_follow matchId cond new.

(** The match a state-changing call is about. *)
Definition call_match (c : Call) : Z :=
  match c with
  | CallCommit id _ => id
  | CallReveal id _ _ => id
  | CallClaimTimeout id => id
  end.

(** Match 7 is ACTIVE in round 1, in COMMIT with only player 1 committed
    and the phase deadline at second 1; after 12 environment calls it
    reads COMPLETE. Every transaction is accepted. *)
Definition lateScript : Script :=
  mkScript
    (fun n _ => Resolved (if (n <? 12)%nat
                          then demoMatch MatchState.ACTIVE 0 0 1
                          else demoMatch MatchState.COMPLETE 0 0 1))
    (fun _ _ _ => Resolved (demoRound demoCommit ZERO_BYTES32 0 0 RoundPhase.COMMIT 1))
    (fun _ => Resolved 2000%Z)
    (fun _ _ => Resolved "0xfeed")
    (fun _ _ => Resolved "success").

(** A run of [play_round] on that script; its texts are ASCII, where the
    lower-casing is the one of the addresses. *)
Definition roundRun :=
  play_round toLowerCase demoAgent 5 7 "Rock" (startWorld lateScript ∅).

(** The event is a submitted transaction. *)
Definition is_write (ev : Event) : Prop := ∃ c gas r, ev = EvWrite c gas r.

(** If the event is a submitted transaction, it is about match [matchId]. *)
Definition writes_for (matchId : Z) (ev : Event) : Prop :=
  ∀ c gas r, ev = EvWrite c gas r → call_match c = matchId.

(** The store of [w'] holds nothing that the store of [w] did not hold. *)
Definition no_new_secret {E : Env} (w w' : World E) : Prop :=
  secrets w' ⊆ secrets w.

(** ** The rest of the agent (agent.ts): matches in batches, joining,
       creating, refunds *)

(** Transaction receipts, as far as the code reads them. *)
Record Log : Type := mkLog {
  log_address : string;
  log_topics : list string
}.

Record Receipt : Type := mkReceipt {
  rc_status : string;
  rc_logs : list Log
}.

(** The state-changing calls of this part: [approve] on the USDC token,
    the others on the arena. *)
Inductive CallX : Type :=
| CallApprove (spender : string) (amount : Z)
| CallCreateMatch (entryFee : Z)
| CallJoinMatch (matchId : Z)
| CallCancelMatch (matchId : Z)
| CallClaimMatchExpiry (matchId : Z).

(** The events of this part, newest first in the log. An item of a
    multicall reply is [None] when its status is not "success". *)
Inductive EventX : Type :=
| EvMatchCounter (r : Reply Z)
| EvMulticall (ids : list Z) (r : Reply (list (option MatchData)))
| EvWriteX (c : CallX) (gas : option Z) (r : Reply string)
| EvReceiptX (c : CallX) (hash : string) (r : Reply Receipt).

(** The further operations of the environment, over the same hidden
    state. *)
Record EnvX (E : Env) : Type := mkEnvX {
  (* publicClient.readContract: matchCounter; publicClient.multicall of
     getMatch calls with allowFailure *)
  rpc_matchCounter : env_state E → env_state E * Reply Z;
  rpc_multicall : env_state E → list Z → env_state E * Reply (list (option MatchData));
  (* walletClient.writeContract and publicClient.waitForTransactionReceipt *)
  rpc_writeX : env_state E → CallX → option Z → env_state E * Reply string;
  rpc_receiptX : env_state E → string → env_state E * Reply Receipt;
  (* BigInt(text): throws a SyntaxError on a text that is no integer *)
  BigInt : string → Reply Z
}.
Arguments rpc_matchCounter {E} _ _.
Arguments rpc_multicall {E} _ _ _.
Arguments rpc_writeX {E} _ _ _ _.
Arguments rpc_receiptX {E} _ _ _.
Arguments BigInt {E} _ _.

(** The environment [E] with a log of the further calls kept beside its
    state; the operations of [E] leave the log alone. *)
Definition logged (E : Env) : Env :=
  {| env_state := env_state E * list EventX;
     rpc_getMatch := fun s id =>
       let r := rpc_getMatch E s.1 id in ((r.1, s.2), r.2);
     rpc_getRound := fun s id k =>
       let r := rpc_getRound E s.1 id k in ((r.1, s.2), r.2);
     rpc_getBlock := fun s =>
       let r := rpc_getBlock E s.1 in ((r.1, s.2), r.2);
     rpc_write := fun s c gas =>
       let r := rpc_write E s.1 c gas in ((r.1, s.2), r.2);
     rpc_receipt := fun s h =>
       let r := rpc_receipt E s.1 h in ((r.1, s.2), r.2);
     clock_now := fun s =>
       let r := clock_now E s.1 in ((r.1, s.2), r.2);
     clock_sleep := fun s ms => (clock_sleep E s.1 ms, s.2);
     os_randomBytes := fun s =>
       let r := os_randomBytes E s.1 in ((r.1, s.2), r.2);
     os_randomInt := fun s =>
       let r := os_randomInt E s.1 in ((r.1, s.2), r.2);
     fs_write := fun s store => (fs_write E s.1 store, s.2);
     keccak256 := keccak256 E;
     toFixed2_div1e6 := toFixed2_div1e6 E |}.

(** The state of [E] and the log of further calls in a world. *)
Definition inner {E : Env} (w : World (logged E)) : env_state E := (ext w).1.
Definition xlog {E : Env} (w : World (logged E)) : list EventX := (ext w).2.

(** [Map.prototype.set] on a map that remembers insertion order: an
    existing key keeps its place. *)
Fixpoint map_set {V : Type} (k : Z) (v : V) (l : list (Z * V)) : list (Z * V) :=
  match l with
  | [] => [(k, v)]
  | (k', v') :: rest =>
      if (k' =? k)%Z then (k, v) :: rest else (k', v') :: map_set k v rest
  end.

(** One entry of the list [findOpenMatches] returns. *)
Record MatchInfo : Type := mkMatchInfo {
  mi_matchId : Z;
  mi_player1 : string;
  mi_player2 : string;
  mi_entryFee : string;
  mi_pot : string;
  mi_state : option string;
  mi_winsP1 : Z;
  mi_winsP2 : Z;
  mi_currentRound : Z;
  mi_createdAt : Z;
  mi_startedAt : Z
}.

Definition JOIN_TIMEOUT : Z := 600.
Definition MULTICALL_BATCH : Z := 500.

(** The objects [claim_refund] hands to [JSON.stringify]. *)
Inductive ClaimRefundReply : Type :=
| CRRefunded (matchId : Z) (reason message : string)
| CRNoAction (matchId : Z) (message : string).

Section AgentMore.
Context {E : Env}.
Variable X : EnvX E.
(* this.arenaAddress *)
Variable arenaAddress : string.

(** One of the further calls into the environment, recorded in the log. *)
Definition ext_call {A} (f : env_state E → env_state E * Reply A)
           (ev : Reply A → EventX) : M (logged E) A :=
  fun w =>
    let '(x, r) := f (inner w) in
    let w' := mkWorld (E:=logged E) (x, ev r :: xlog w) (secrets w) (trace w) in
    match r with
    | Resolved a => (Ok a, w')
    | Rejected e => (Throw e, w')
    end.

Definition getMatchCounter : M (logged E) Z :=
  ext_call (rpc_matchCounter X) EvMatchCounter.

Definition writeContractX (c : CallX) (gas : option Z) : M (logged E) string :=
  ext_call (fun x => rpc_writeX X x c gas) (EvWriteX c gas).

Definition waitForTransactionReceiptX (c : CallX) (hash : string)
  : M (logged E) Receipt :=
  ext_call (fun x => rpc_receiptX X x hash) (EvReceiptX c hash).

(** [approveUsdc(amount)]: the receipt is awaited, its status is not read. *)
Definition approveUsdc (amount : Z) : M (logged E) string :=
  let* hash := writeContractX (CallApprove arenaAddress amount) None in
  waitForTransactionReceiptX (CallApprove arenaAddress amount) hash ;;
  sleep 1000 ;;
  ret hash.



(** [!fee] for [fee : bigint | undefined]. *)
Definition falsy (fee : option Z) : bool :=
  match fee with
  | None => true
  | Some f => (f =? 0)%Z
  end.

(** [for (let i = 0; i < 5; i++)] of [joinMatch]: [n] passes are left. *)
Fixpoint joinMatch_fee (n : nat) (matchId : Z) (fee : option Z)
  : M (logged E) (option Z) :=
  match n with
  | O => ret fee
  | S n' =>
      let* m := getMatch matchId in
      if (entryFee m >? 0)%Z then ret (Some (entryFee m))
      else sleep 1000 ;; joinMatch_fee n' matchId fee
  end.

Definition joinMatch (matchId : Z) (entryFee : option Z) : M (logged E) string :=
  let fee := entryFee in
  let* fee :=
    (if falsy fee then
       let* fee := joinMatch_fee 5 matchId fee in
       if falsy fee
       then throw ("Could not get entry fee for match " +:+ pretty matchId)
       else ret fee
     else ret fee) in
  match fee with
  | None => throw ("Could not get entry fee for match " +:+ pretty matchId)
  | Some fee =>
      approveUsdc fee ;;
      let* hash := writeContractX (CallJoinMatch matchId) None in
      waitForTransactionReceiptX (CallJoinMatch matchId) hash ;;
      ret hash
  end.

(** [writeContract], [waitForTransactionReceipt] and the
    [receipt.status !== "success"] test of [claimMatchExpiry] and
    [cancelMatch]. *)
Definition sendX (c : CallX) (gas : Z) (what : string) : M (logged E) string :=
  let* hash := writeContractX c (Some gas) in
  let* receipt := waitForTransactionReceiptX c hash in
  if str_neq (rc_status receipt) "success" then throw (what +:+ hash)
  else ret hash.

Definition claimMatchExpiry (matchId : Z) : M (logged E) string :=
  sendX (CallClaimMatchExpiry matchId) 500000 "claimMatchExpiry failed: ".

Definition cancelMatch (matchId : Z) : M (logged E) string :=
  sendX (CallCancelMatch matchId) 150000 "cancelMatch failed: ".

(** [for (let id = batchStart; id <= batchEnd; id++)]: the ids of a batch. *)
Definition batchIds (batchStart batchEnd : Z) : list Z :=
  Zseq batchStart (Z.to_nat (batchEnd - batchStart + 1)).

(** [for (let j = 0; j < results.length; j++)]: the items with status
    "success" are set under [batchStart + j]. *)
Fixpoint storeResults (batchStart j : Z) (results : list (option MatchData))
         (matches : list (Z * MatchData)) : list (Z * MatchData) :=
  match results with
  | [] => matches
  | r :: rest =>
      storeResults batchStart (j + 1) rest
        (match r with
         | Some res => map_set (batchStart + j)%Z res matches
         | None => matches
         end)
  end.

(** [for (let batchStart = startId; batchStart <= endId; batchStart += batchSize)]. *)
Fixpoint getMatches_loop (fuel : nat) (batchStart endId : Z)
         (matches : list (Z * MatchData)) : M (logged E) (list (Z * MatchData)) :=
  match fuel with
  | O => out_of_fuel
  | S fuel' =>
      if (batchStart <=? endId)%Z then
        let batchSize := MULTICALL_BATCH in
        let batchEnd :=
          if (batchStart + batchSize - 1 >? endId)%Z then endId
          else (batchStart + batchSize - 1)%Z in
        let contracts := batchIds batchStart batchEnd in
        let* results :=
          ext_call (fun x => rpc_multicall X x contracts) (EvMulticall contracts) in
        getMatches_loop fuel' (batchStart + batchSize) endId
                        (storeResults batchStart 0 results matches)
      else ret matches
  end.

(** [getMatches(startId, endId)]. The loop is given one pass per id of
    the range and one more; it never needs them all. *)
Definition getMatches (startId endId : Z) : M (logged E) (list (Z * MatchData)) :=
  getMatches_loop (S (Z.to_nat (endId - startId + 1))) startId endId [].

(** The entry [findOpenMatches] pushes for a match. *)
Definition matchInfo (id : Z) (m : MatchData) : MatchInfo :=
  mkMatchInfo id (player1 m) (player2 m)
    (formatUsdc (E:=E) (entryFee m) +:+ " USDC")
    (formatUsdc (E:=E) (pot m) +:+ " USDC")
    (js_index STATE_NAMES (state m))
    (winsP1 m) (winsP2 m) (currentRound m) (createdAt m) (startedAt m).

(** [for (const [id, match] of allMatches)] of [findOpenMatches]. *)
Fixpoint scanOpen (allMatches : list (Z * MatchData)) (open : list MatchInfo)
  : M (logged E) (list MatchInfo) :=
  match allMatches with
  | [] => ret open
  | (id, m) :: rest =>
      if (state m =? MatchState.WAITING)%Z then
        let* t := dateNow in
        let now := (t / 1000)%Z in
        if (now <=? createdAt m + JOIN_TIMEOUT)%Z
        then scanOpen rest (open ++ [matchInfo id m])%list
        else scanOpen rest open
      else scanOpen rest open
  end.

Definition findOpenMatches : M (logged E) (list MatchInfo) :=
  let* counter := getMatchCounter in
  let start := if (counter >? 50)%Z then (counter - 50 + 1)%Z else 1%Z in
  let* allMatches := getMatches start counter in
  scanOpen allMatches [].

(** [case "claim_refund"] of [handleToolCall]. *)
Definition claim_refund (matchId : Z) : M (logged E) ClaimRefundReply :=
  let* m := getMatch matchId in
  let st := state m in
  if (st =? MatchState.ACTIVE)%Z then
    claimMatchExpiry matchId ;;
    ret (CRRefunded matchId "Match expired (exceeded 20-minute duration limit)"
                    "Both players refunded their entry fee.")
  else if (st =? MatchState.WAITING)%Z then
    cancelMatch matchId ;;
    ret (CRRefunded matchId "Match cancelled (no opponent joined within timeout)"
                    "Entry fee refunded.")
  else if (st =? MatchState.COMPLETE)%Z then
    ret (CRNoAction matchId "Match already completed. No refund needed.")
  else
    ret (CRNoAction matchId "Match already cancelled. Funds were already refunded.").
End AgentMore.

Arguments approveUsdc : simpl never.
Arguments sendX : simpl never.
Arguments getMatches : simpl never.

(** The multicall requests of a log, in the order of the log. *)
Fixpoint requests (log : list EventX) : list (list Z) :=
  match log with
  | [] => []
  | EvMulticall ids _ :: rest => ids :: requests rest
  | _ :: rest => requests rest
  end.

(** The items of the resolved multicall replies of a log, in the order
    of the log. *)
Fixpoint replies (log : list EventX) : list (list (option MatchData)) :=
  match log with
  | [] => []
  | EvMulticall _ (Resolved rs) :: rest => rs :: replies rest
  | _ :: rest => replies rest
  end.

(** The ids paired with the items that succeeded. *)
Fixpoint kept (ids : list Z) (rs : list (option MatchData)) : list (Z * MatchData) :=
  match ids, rs with
  | id :: ids', Some m :: rs' => (id, m) :: kept ids' rs'
  | _ :: ids', None :: rs' => kept ids' rs'
  | _, _ => []
  end.

(** A multicall answers with one item per call it was given. *)
Definition multicall_aligned {E : Env} (X : EnvX E) : Prop :=
  ∀ x ids rs, (rpc_multicall X x ids).2 = Resolved rs →
              List.length rs = List.length ids.

(** The events of [k] passes of the fee loop of [joinMatch] that found
    no fee: the reads [ms] (oldest first), each followed by a sleep of one
    second; newest first. *)
Fixpoint fee_polls (matchId : Z) (ms : list MatchData) : list Event :=
  match ms with
  | [] => []
  | m :: rest =>
      (fee_polls matchId rest ++ [EvSleep 1000; EvGetMatch matchId (Resolved m)])%list
  end.

(** The log event is a submission or a receipt that was rejected with [e]. *)
Definition rejectedX (e : Exn) (ev : EventX) : Prop :=
  (∃ c gas, ev = EvWriteX c gas (Rejected e))
  ∨ (∃ c h, ev = EvReceiptX c h (Rejected e)).


(** ** Read helpers (read-helpers.ts): the leaderboard *)

(** The counters kept per player while the leaderboard is built. *)
Record Stats : Type := mkStats {
  st_address : string;
  st_matchesPlayed : Z;
  st_matchesWon : Z;
  st_matchesLost : Z;
  st_roundsWon : Z;
  st_roundsLost : Z;
  st_totalEarnings : Z;
  st_totalWagered : Z
}.

(** One entry of [players] in the object [getLeaderboard] returns. *)
Record PlayerStats : Type := mkPlayerStats {
  ps_address : string;
  ps_matchesPlayed : Z;
  ps_matchesWon : Z;
  ps_matchesLost : Z;
  ps_roundsWon : Z;
  ps_roundsLost : Z;
  ps_winRate : string;
  ps_totalWagered : string;
  ps_profitLoss : string
}.

Record Leaderboard : Type := mkLeaderboard {
  lb_players : list PlayerStats;
  lb_totalMatches : Z;
  lb_totalVolume : string
}.

(** [statsMap]: a [Map] from lowercase address to counters, in insertion
    order. [statsMap.has], [statsMap.set] of a key that is absent, and
    the update of the counters of the object stored under a key (its keys
    are distinct, so this changes one entry). *)
Definition smap_has (k : string) (l : list (string * Stats)) : bool :=
  List.existsb (fun p => String.eqb p.1 k) l.

Definition smap_add (k : string) (address : string) (l : list (string * Stats))
  : list (string * Stats) :=
  (l ++ [(k, mkStats address 0 0 0 0 0 0 0)])%list.

Definition smap_update (k : string) (f : Stats → Stats) (l : list (string * Stats))
  : list (string * Stats) :=
  List.map (fun p => if String.eqb p.1 k then (p.1, f p.2) else p) l.

(** The four groups of assignments of the tally loop. *)
Definition played (fee won lost : Z) (s : Stats) : Stats :=
  mkStats (st_address s) (st_matchesPlayed s + 1) (st_matchesWon s) (st_matchesLost s)
          (st_roundsWon s + won) (st_roundsLost s + lost)
          (st_totalEarnings s) (st_totalWagered s + fee).

Definition wonMatch (prize : Z) (s : Stats) : Stats :=
  mkStats (st_address s) (st_matchesPlayed s) (st_matchesWon s + 1) (st_matchesLost s)
          (st_roundsWon s) (st_roundsLost s)
          (st_totalEarnings s + prize) (st_totalWagered s).

Definition lostMatch (s : Stats) : Stats :=
  mkStats (st_address s) (st_matchesPlayed s) (st_matchesWon s) (st_matchesLost s + 1)
          (st_roundsWon s) (st_roundsLost s)
          (st_totalEarnings s) (st_totalWagered s).

(** The key of [forfeitRounds]. *)
Definition forfeitKey (matchId round : Z) : string :=
  pretty matchId +:+ "-" +:+ pretty round.

(** The locals of [getLeaderboard] that the tally loop changes. *)
Record Tally : Type := mkTally {
  statsMap : list (string * Stats);
  volume : Z;
  completedMatches : Z
}.

(** One pass of the second [for (const [matchId, match] of allMatches)]. *)
Definition tallyMatch (forfeitRounds : gmap string LastRound) (acc : Tally)
           (entry : Z * MatchData) : Tally :=
  let matchId := entry.1 in
  let m := entry.2 in
  if negb (state m =? MatchState.COMPLETE)%Z then acc
  else
    let completed := (completedMatches acc + 1)%Z in
    let p1 := toLowerCase (player1 m) in
    let p2 := toLowerCase (player2 m) in
    let sm := statsMap acc in
    let sm := if negb (smap_has p1 sm) then smap_add p1 (player1 m) sm else sm in
    let sm := if str_neq p2 ZERO_ADDRESS && negb (smap_has p2 sm)
              then smap_add p2 (player2 m) sm else sm in
    let has2 := str_neq p2 ZERO_ADDRESS in
    let sm := smap_update p1 (played (entryFee m) (winsP1 m) (winsP2 m)) sm in
    let sm := if has2
              then smap_update p2 (played (entryFee m) (winsP2 m) (winsP1 m)) sm
              else sm in
    let vol := if has2 then (volume acc + entryFee m * 2)%Z else volume acc in
    let lastRound := forfeitRounds !! forfeitKey matchId (currentRound m) in
    let winner := determineMatchWinner m lastRound in
    let originalPot := (entryFee m * 2)%Z in
    let prize := ((originalPot * 98) / 100)%Z in
    let sm :=
      match winner with
      | Some winner =>
          if String.eqb winner "" then sm
          else
            let winnerIsP1 := String.eqb (toLowerCase winner) p1 in
            if winnerIsP1 then
              let sm := smap_update p1 (wonMatch prize) sm in
              if has2 then smap_update p2 lostMatch sm else sm
            else
              let sm := smap_update p1 lostMatch sm in
              if has2 then smap_update p2 (wonMatch prize) sm else sm
      | None => sm
      end in
    mkTally sm vol completed.

(** [players.sort((a, b) => b.matchesWon !== a.matchesWon
                             ? b.matchesWon - a.matchesWon : 0)]:
    a stable sort by descending [matchesWon]. *)
Fixpoint insertPlayer (x : PlayerStats) (l : list PlayerStats) : list PlayerStats :=
  match l with
  | [] => [x]
  | y :: rest =>
      if (ps_matchesWon y - ps_matchesWon x <=? 0)%Z then x :: y :: rest
      else y :: insertPlayer x rest
  end.

Definition sortPlayers (l : list PlayerStats) : list PlayerStats :=
  List.fold_right insertPlayer [] l.

Section Leaderboard.
Context {E : Env}.
Variable X : EnvX E.
(* ((won / played) * 100).toFixed(0): floating point, not modelled *)
Variable winRateText : Z → Z → string.

(** The first [for (const [matchId, match] of allMatches)]: the last
    round of every match that ended below the threshold is read; a read
    that fails is skipped. *)
Fixpoint fetchForfeitRounds (allMatches : list (Z * MatchData))
         (forfeitRounds : gmap string LastRound)
  : M (logged E) (gmap string LastRound) :=
  match allMatches with
  | [] => ret forfeitRounds
  | (matchId, m) :: rest =>
      if (state m =? MatchState.COMPLETE)%Z && (winsP1 m <? WINS_REQUIRED)%Z
         && (winsP2 m <? WINS_REQUIRED)%Z && (currentRound m >? 0)%Z
      then
        let* forfeitRounds :=
          try_catch
            (let* round := getRound matchId (currentRound m) in
             ret (<[forfeitKey matchId (currentRound m) := lastRawOf round]>
                    forfeitRounds))
            (fun _ => ret forfeitRounds) in
        fetchForfeitRounds rest forfeitRounds
      else fetchForfeitRounds rest forfeitRounds
  end.

(** The entry pushed by [statsMap.forEach]. *)
Definition playerOf (s : Stats) : PlayerStats :=
  let profitLoss := (st_totalEarnings s - st_totalWagered s)%Z in
  mkPlayerStats (st_address s) (st_matchesPlayed s) (st_matchesWon s)
    (st_matchesLost s) (st_roundsWon s) (st_roundsLost s)
    (winRateText (st_matchesWon s) (st_matchesPlayed s) +:+ "%")
    (formatUsdc (E:=E) (st_totalWagered s) +:+ " USDC")
    ((if (profitLoss >=? 0)%Z then "+" else "") +:+
     formatUsdc (E:=E) profitLoss +:+ " USDC").

Definition listPlayers (sm : list (string * Stats)) : list PlayerStats :=
  List.map playerOf
    (List.filter (fun s => (st_matchesPlayed s >? 0)%Z) (List.map snd sm)).

Definition getLeaderboard : M (logged E) Leaderboard :=
  let* counter := getMatchCounter X in
  let* allMatches := getMatches X 1 counter in
  let* forfeitRounds := fetchForfeitRounds allMatches ∅ in
  let tally := List.fold_left (tallyMatch forfeitRounds) allMatches (mkTally [] 0 0) in
  let players := listPlayers (statsMap tally) in
  ret (mkLeaderboard (sortPlayers players) (completedMatches tally)
                     (formatUsdc (E:=E) (volume tally) +:+ " USDC")).
End Leaderboard.

(** The sum of a counter over a list. *)
Definition sumZ {A : Type} (f : A → Z) (l : list A) : Z :=
  List.fold_right (fun x acc => (f x + acc)%Z) 0%Z l.

(** The counters of a player are in order: wins and losses are counted
    among the matches played. *)
Definition stats_ok (s : Stats) : Prop :=
  (0 <= st_matchesWon s)%Z ∧ (0 <= st_matchesLost s)%Z
  ∧ (st_matchesWon s + st_matchesLost s <= st_matchesPlayed s)%Z.

(** The map is in order: its keys are distinct, each key is the lowercase
    of the address stored under it, and the counters are in order. *)
Definition smap_ok (sm : list (string * Stats)) : Prop :=
  NoDup (List.map fst sm)
  ∧ Forall (fun p => p.1 = toLowerCase (st_address p.2) ∧ stats_ok p.2) sm.

(** The map of a pass of the tally loop after the two [statsMap.set]
    of players not seen before. *)
Definition ensured (m : MatchData) (sm : list (string * Stats))
  : list (string * Stats) :=
  let p1 := toLowerCase (player1 m) in
  let p2 := toLowerCase (player2 m) in
  let sm := if negb (smap_has p1 sm) then smap_add p1 (player1 m) sm else sm in
  if str_neq p2 ZERO_ADDRESS && negb (smap_has p2 sm)
  then smap_add p2 (player2 m) sm else sm.

(** The updates of a pass of the tally loop: [decided] says that there is
    a winner, [winnerIsP1] that it is player 1, [has2] that there is a
    second player. *)
Definition tallied (p1 p2 : string) (has2 decided winnerIsP1 : bool)
           (fee w1 w2 prize : Z) (sm : list (string * Stats))
  : list (string * Stats) :=
  let sm1 := smap_update p1 (played fee w1 w2) sm in
  let sm2 := if has2 then smap_update p2 (played fee w2 w1) sm1 else sm1 in
  if decided then
    if winnerIsP1 then
      let sm' := smap_update p1 (wonMatch prize) sm2 in
      if has2 then smap_update p2 lostMatch sm' else sm'
    else
      let sm' := smap_update p1 lostMatch sm2 in
      if has2 then smap_update p2 (wonMatch prize) sm' else sm'
  else sm2.

(** What the tally keeps from pass to pass: the map is in order and the
    matches won, and the matches lost, do not outnumber the matches
    counted. *)
Definition tally_ok (t : Tally) : Prop :=
  smap_ok (statsMap t)
  ∧ (sumZ (fun p => st_matchesWon p.2) (statsMap t) <= completedMatches t)%Z
  ∧ (sumZ (fun p => st_matchesLost p.2) (statsMap t) <= completedMatches t)%Z.

(** *** Scripted further operations *)

(** A match that waits for an opponent. *)
Definition openMatch (fee : Z) : MatchData :=
  mkMatch demoOpponent ZERO_ADDRESS fee fee MatchState.WAITING 0 0 0 1700000000 0.

(** Further operations for a scripted environment: the match counter
    reads [counter]; the multicall item of an even id succeeds, that of an
    odd id fails; every submission is accepted with hash "0xbeef"; every
    receipt carries [status] and [logs]; [BigInt] reads "0x2a" as 42. *)
Definition scriptedX (sc : Script) (counter : Z) (status : string) (logs : list Log)
  : EnvX (scripted sc) :=
  mkEnvX (scripted sc)
    (fun n => (S n, Resolved counter))
    (fun n ids =>
       (S n, Resolved (List.map (fun id => if Z.even id
                                           then Some (openMatch 1000000) else None) ids)))
    (fun n _ _ => (S n, Resolved "0xbeef"))
    (fun n _ => (S n, Resolved (mkReceipt status logs)))
    (fun t => if String.eqb t "0x2a" then Resolved 42%Z else Rejected "SyntaxError").

Definition startWorldX (sc : Script) : World (logged (scripted sc)) :=
  mkWorld (E:=logged (scripted sc)) (O, []) ∅ [].

Definition demoArena : string := "0xAAAA000000000000000000000000000000000001".

(** Match 7 waits for an opponent; its entry fee reads 0 until the
    environment has been called 3 times, 1000000 afterwards. *)
Definition syncScript : Script :=
  mkScript
    (fun n _ => Resolved (openMatch (if (n <? 3)%nat then 0 else 1000000)))
    (fun _ _ _ => Rejected "round not found")
    (fun _ => Resolved 2000%Z)
    (fun _ _ => Resolved "0xfeed")
    (fun _ _ => Resolved "success").

(** The runs of this part. *)
Definition batchRun :=
  getMatches (scriptedX syncScript 3 "success" []) 1 3 (startWorldX syncScript).

Definition openRun :=
  findOpenMatches (scriptedX syncScript 3 "success" []) (startWorldX syncScript).

Definition lookupRun :=
  joinMatch (scriptedX syncScript 3 "reverted" []) demoArena 7 None
            (startWorldX syncScript).

Definition revertedRun :=
  joinMatch (scriptedX syncScript 3 "reverted" []) demoArena 7 (Some 1000000)
            (startWorldX syncScript).

Definition refundRun :=
  claim_refund (scriptedX syncScript 3 "success" []) 7 (startWorldX syncScript).


(** An entry of the leaderboard is in order. *)
Definition player_ok (p : PlayerStats) : Prop :=
  (0 <= ps_matchesWon p)%Z ∧ (0 <= ps_matchesLost p)%Z
  ∧ (ps_matchesWon p + ps_matchesLost p <= ps_matchesPlayed p)%Z
  ∧ (1 <= ps_matchesPlayed p)%Z.

(** Further operations in which two matches were played and every
    multicall item is a match that player 1 won 3-1. *)
Definition boardX (sc : Script) : EnvX (scripted sc) :=
  mkEnvX (scripted sc)
    (fun n => (S n, Resolved 2%Z))
    (fun n ids =>
       (S n, Resolved (List.map (fun _ => Some (demoMatch MatchState.COMPLETE 3 1 4)) ids)))
    (fun n _ _ => (S n, Resolved "0xbeef"))
    (fun n _ => (S n, Resolved (mkReceipt "success" [])))
    (fun _ => Rejected "SyntaxError").

Definition boardRun :=
  getLeaderboard (boardX syncScript) (fun won played => pretty (won * 100 / played)%Z)
                 (startWorldX syncScript).

Definition boardResult : Leaderboard :=
  match boardRun.1 with
  | Ok lb => lb
  | _ => mkLeaderboard [] 0 ""
  end.

(** ** Theorems: outcome resolver *)

(** C10. For a match whose state is not COMPLETE (WAITING, ACTIVE,
    CANCELLED, or any other state code), [determineMatchWinner] returns
    [null], whatever the win counts and the last-round fragments are. *)
Theorem determineMatchWinner_not_complete (m : MatchData) (lr : option LastRound) :
  state m ≠ MatchState.COMPLETE →
  determineMatchWinner m lr = None.
Proof.
  intros Hst. unfold determineMatchWinner.
  destruct (Z.eqb_spec (state m) MatchState.COMPLETE) as [He | _]; [contradiction | reflexivity].
Qed.

Lemma determineMatchWinner_not_complete_witness :
  state (demoMatch MatchState.CANCELLED 3 0 4) ≠ MatchState.COMPLETE ∧
  determineMatchWinner (demoMatch MatchState.CANCELLED 3 0 4)
    (Some (mkLastRound demoCommit ZERO_BYTES32 1 0)) = None.
Proof.
  split.
  - discriminate.
  - apply determineMatchWinner_not_complete. discriminate.
Defined.

Lemma revealed_gt0 (c : Z) : uint8 c → (c >? 0)%Z = revealed c.
Proof.
  unfold uint8, revealed, Choice.None. intros [H0 _].
  destruct (Z.eqb_spec c 0) as [-> | Hne]; simpl; [reflexivity | lia].
Qed.

(** C3. On a COMPLETE match [determineMatchWinner] decides in the order:
    (1) a side whose win count reached the threshold 3; (2) the only side
    that committed in the last round; (3) with both committed, the only
    side that revealed; (4) the strictly higher win count, and [null]
    when the counts are equal. *)
Theorem determineMatchWinner_decision_order (m : MatchData) (lr : option LastRound) :
  state m = MatchState.COMPLETE →
  (∀ r, lr = Some r → uint8 (lr_choiceP1 r) ∧ uint8 (lr_choiceP2 r)) →
  determineMatchWinner m lr = spec_winner m lr.
Proof.
  intros Hst Hu8.
  unfold determineMatchWinner, spec_winner, first_of, spec_threshold, spec_fallback.
  rewrite Hst. simpl.
  rewrite (Z.geb_leb (winsP1 m)), (Z.geb_leb (winsP2 m)).
  rewrite (Z.gtb_ltb (winsP1 m)), (Z.gtb_ltb (winsP2 m)).
  destruct (WINS_REQUIRED <=? winsP1 m)%Z; [reflexivity |].
  destruct (WINS_REQUIRED <=? winsP2 m)%Z; [reflexivity |].
  destruct lr as [r |]; simpl.
  - destruct (Hu8 r eq_refl) as [H1 H2].
    unfold forfeit_from_last_round, str_neq, committed.
    rewrite (revealed_gt0 _ H1), (revealed_gt0 _ H2).
    destruct (String.eqb (lr_commitP1 r) ZERO_BYTES32),
             (String.eqb (lr_commitP2 r) ZERO_BYTES32); simpl;
      try reflexivity;
      try (destruct (winsP2 m <? winsP1 m)%Z, (winsP1 m <? winsP2 m)%Z; reflexivity).
    destruct (revealed (lr_choiceP1 r)), (revealed (lr_choiceP2 r)); simpl;
      try reflexivity;
      destruct (winsP2 m <? winsP1 m)%Z, (winsP1 m <? winsP2 m)%Z; reflexivity.
  - destruct (winsP2 m <? winsP1 m)%Z, (winsP1 m <? winsP2 m)%Z; reflexivity.
Qed.

Lemma determineMatchWinner_decision_order_witness :
  determineMatchWinner (demoMatch MatchState.COMPLETE 1 1 3)
    (Some (mkLastRound demoCommit demoCommit 0 2)) = Some demoOpponent.
Proof.
  rewrite determineMatchWinner_decision_order.
  - reflexivity.
  - reflexivity.
  - intros r Hr. injection Hr as <-. unfold uint8. simpl. lia.
Defined.

(** ** Theorems: secret store, commit and reveal *)

Section StoreTheorems.
Context {E : Env}.
Variable self : Agent.

Lemma env_call_trace {A} (f : env_state E → env_state E * Reply A) ev (w : World E) :
  trace (env_call f ev w).2 = ev (f (ext w)).2 :: trace w.
Proof. unfold env_call. destruct (f (ext w)) as [x [a | e]]; reflexivity. Qed.

Lemma randomBytes_cases (n : nat) (w : World E) :
  ∃ bs w', randomBytes n w = (Ok bs, w') ∧ List.length bs = n
           ∧ secrets w' = secrets w ∧ trace w' = EvRandom :: trace w.
Proof.
  unfold randomBytes. destruct (os_randomBytes E (ext w)) as [x f].
  eexists _, _. split; [reflexivity |].
  rewrite List.length_map, List.length_seq. auto.
Qed.

(** What [send] does: it resolves exactly when the write was accepted
    and its receipt reports "success"; otherwise it throws, after the
    write alone or after the write and a receipt that is not a success.
    It never touches the store. *)
Lemma send_cases c gas what (w : World E) :
  ∃ out w', send c gas what w = (out, w') ∧ secrets w' = secrets w ∧
    ((∃ h, out = Ok h ∧
           trace w' = EvReceipt c h (Resolved "success")
                        :: EvWrite c gas (Resolved h) :: trace w)
     ∨ (∃ e, out = Throw e ∧
             ((∃ r, trace w' = EvWrite c gas (Rejected r) :: trace w)
              ∨ (∃ h rr, rr ≠ Resolved "success" ∧
                         trace w' = EvReceipt c h rr
                                      :: EvWrite c gas (Resolved h) :: trace w)))).
Proof.
  unfold send, bind, env_call.
  destruct (rpc_write E (ext w) c gas) as [x [h | e]]; simpl.
  - destruct (rpc_receipt E x h) as [x' [st | e]]; simpl.
    + unfold str_neq. destruct (String.eqb_spec st "success") as [-> | Hne]; simpl.
      * eexists _, _. split; [reflexivity |]. split; [reflexivity |].
        left. eexists. split; reflexivity.
      * eexists _, _. split; [reflexivity |]. split; [reflexivity |].
        right. eexists. split; [reflexivity |]. right.
        exists h, (Resolved st). split; [congruence | reflexivity].
    + eexists _, _. split; [reflexivity |]. split; [reflexivity |].
      right. eexists. split; [reflexivity |]. right.
      exists h, (Rejected e). split; [discriminate | reflexivity].
  - eexists _, _. split; [reflexivity |]. split; [reflexivity |].
    right. eexists. split; [reflexivity |]. left. eexists. reflexivity.
Qed.

(** The write events [send] adds all carry the call [c] and the gas. *)
Lemma send_writes c gas what (w : World E) c' gas' r' :
  In (EvWrite c' gas' r') (trace (send c gas what w).2) →
  In (EvWrite c' gas' r') (trace w) ∨ (c' = c ∧ gas' = gas).
Proof.
  destruct (send_cases c gas what w) as (out & w' & Hq & _ & Ht). rewrite Hq. simpl.
  destruct Ht as [(h & _ & Ht) | (e & _ & [(r & Ht) | (h & rr & _ & Ht)])];
    rewrite Ht; simpl; intros Hin.
  - destruct Hin as [[=] | [[= <- <- <-] | Hin]]; auto.
  - destruct Hin as [[= <- <- <-] | Hin]; auto.
  - destruct Hin as [[=] | [[= <- <- <-] | Hin]]; auto.
Qed.

(** *** Keys: distinct (chain, match, round) triples have distinct keys *)

Lemma pretty_N_char_no_dash (x : N) : Ascii.eqb (pretty_N_char x) "-" = false.
Proof. unfold pretty_N_char. repeat case_match; reflexivity. Qed.

Lemma pretty_N_go_no_dash (x : N) (t : string) :
  has_dash t = false → has_dash (pretty_N_go x t) = false.
Proof.
  revert t. induction (N.lt_wf_0 x) as [x _ IH]; intros t Ht.
  assert (x = 0 ∨ 0 < x)%N as [-> | Hpos] by lia.
  - now rewrite pretty_N_go_0.
  - rewrite pretty_N_go_step by exact Hpos. apply IH.
    + now apply N.div_lt.
    + simpl. now rewrite pretty_N_char_no_dash.
Qed.

Lemma pretty_nonneg_no_dash (z : Z) : (0 <= z)%Z → has_dash (pretty z) = false.
Proof.
  destruct z as [| p | p]; intros Hz; [reflexivity | | lia].
  unfold pretty, pretty_Z, pretty, pretty_positive, pretty, pretty_N.
  case_decide; [reflexivity |]. now apply pretty_N_go_no_dash.
Qed.

(** A text without the separator, followed by the separator, is read back
    unambiguously. *)
Lemma split_at_dash (a a' b b' : string) :
  has_dash a = false → has_dash a' = false →
  a +:+ String "-" b = a' +:+ String "-" b' → a = a' ∧ b = b'.
Proof.
  revert a'. induction a as [| c a IH]; intros [| c' a']; simpl.
  - intros _ _ [= ->]. auto.
  - intros _ Hd [= <- _]. simpl in Hd. discriminate.
  - intros Hd _ [= -> _]. simpl in Hd. discriminate.
  - intros Hd Hd' [= -> Hrest].
    apply orb_false_elim in Hd as [_ Hd]. apply orb_false_elim in Hd' as [_ Hd'].
    destruct (IH a' Hd Hd' Hrest) as [-> ->]. auto.
Qed.

Lemma secretKey_inj (c m r c' m' r' : Z) :
  (0 <= c)%Z → (0 <= m)%Z → (0 <= c')%Z → (0 <= m')%Z →
  secretKey c m r = secretKey c' m' r' → c = c' ∧ m = m' ∧ r = r'.
Proof.
  intros Hc Hm Hc' Hm'. unfold secretKey. intros Heq.
  apply split_at_dash in Heq as [Hcc Heq]; try now apply pretty_nonneg_no_dash.
  apply split_at_dash in Heq as [Hmm Hrr]; try now apply pretty_nonneg_no_dash.
  apply (inj pretty) in Hcc, Hmm, Hrr. auto.
Qed.

(** C4. A secret already stored under a key survives every [commit]
    unchanged; and when the key of this commit itself holds a secret,
    the store is left as it was and the only commitment the call
    submits is the one rebuilt from the stored (choice, blinding value):
    the freshly supplied choice is not used. *)
Theorem commit_never_overwrites (matchId : Z) (choice : ChoiceType)
        (w : World E) (k : string) (s : StoredSecret) :
  secrets w !! k = Some s →
  secrets (commit self matchId choice w).2 !! k = Some s
  ∧ ∀ m, (rpc_getMatch E (ext w) matchId).2 = Resolved m →
         k = secretKey (chainId self) matchId (currentRound m) →
         secrets (commit self matchId choice w).2 = secrets w
         ∧ ∀ c gas r,
             In (EvWrite c gas r) (trace (commit self matchId choice w).2) →
             In (EvWrite c gas r) (trace w)
             ∨ ∃ packed,
                 encodePacked_uint8_bytes32 (ss_choice s) (ss_secret s) = Resolved packed
                 ∧ c = CallCommit matchId (keccak256 E packed).
Proof.
  intros Hk. unfold commit, bind, getMatch, env_call, secrets_get.
  destruct (rpc_getMatch E (ext w) matchId) as [x [m | e]]; simpl.
  2:{ split; [exact Hk | intros m [=]]. }
  set (key := secretKey (chainId self) matchId (currentRound m)).
  destruct (secrets w !! key) as [old |] eqn:Hold.
  - (* a secret exists under this commit's key: reuse it *)
    destruct (encodePacked_uint8_bytes32 (ss_choice old) (ss_secret old))
      as [packed | e] eqn:Hpack; simpl.
    + match goal with
      | |- context [send ?c ?g ?t ?w0] =>
          pose proof (send_writes c g t w0) as Hw;
          destruct (send_cases c g t w0) as (out & w1 & Hq & Hs & _);
          rewrite Hq in *; clear Hq
      end.
      simpl in *. rewrite Hs. split; [exact Hk |].
      intros m' [= <-] ->. split; [reflexivity |].
      fold key in Hk. rewrite Hold in Hk. injection Hk as ->.
      intros c gas r0 Hin.
      destruct (Hw _ _ _ Hin) as [[[=] | Hin'] | [-> _]]; [left; exact Hin' | right].
      exists packed. split; [exact Hpack | reflexivity].
    + split; [exact Hk |]. intros m' [= <-] ->. split; [reflexivity |].
      intros c gas r0 [[=] | Hin]. left; exact Hin.
  - (* no secret under this commit's key: [k] is another key *)
    assert (Hne : key ≠ k) by (intros ->; congruence).
    match goal with
    | |- context [randomBytes ?n ?w0] =>
        destruct (randomBytes_cases n w0) as (bs & wr & Hq & _ & Hsr & _);
        rewrite Hq; clear Hq
    end.
    simpl in Hsr. simpl.
    destruct (encodePacked_uint8_bytes32 _ _) as [packed | e]; simpl.
    + match goal with
      | |- context [send ?c ?g ?t ?w0] =>
          destruct (send_cases c g t w0) as (out & w1 & Hq & Hs & _);
          rewrite Hq; clear Hq
      end.
      simpl in *. rewrite Hs, Hsr. split.
      * rewrite lookup_insert_ne by exact Hne. exact Hk.
      * intros m' [= <-] Hkey. exfalso. apply Hne. symmetry. exact Hkey.
    + rewrite Hsr. split; [exact Hk |].
      intros m' [= <-] Hkey. exfalso. apply Hne. symmetry. exact Hkey.
Qed.

(** C5. When no secret is stored under the key of the current round,
    [reveal] throws its "No stored secret" error; the only thing it has
    done by then is the read of the match: no transaction was submitted
    and the store is as it was. *)
Theorem reveal_without_secret_fails (matchId : Z) (w : World E) (m : MatchData) :
  (rpc_getMatch E (ext w) matchId).2 = Resolved m →
  secrets w !! secretKey (chainId self) matchId (currentRound m) = None →
  (reveal self matchId w).1 =
    Throw ("No stored secret for match " +:+ pretty matchId +:+
           " round " +:+ pretty (currentRound m))
  ∧ trace (reveal self matchId w).2 = EvGetMatch matchId (Resolved m) :: trace w
  ∧ secrets (reveal self matchId w).2 = secrets w.
Proof.
  intros Hm Hnone. unfold reveal, bind, getMatch, env_call, secrets_get.
  destruct (rpc_getMatch E (ext w) matchId) as [x r]. simpl in Hm. subst r.
  simpl. rewrite Hnone. simpl. auto.
Qed.

(** C6. [reveal] removes the stored secret exactly on the success path.
    Among the events the call adds there is a receipt that says
    "success" if and only if [reveal] resolves; and when it resolves a
    secret was stored under the key, the store is the old one without
    that key, and the deletion and the save of the shrunk store follow
    that receipt. Whenever [reveal] throws (the read, the submission or
    the receipt was rejected, the receipt was not "success", or there
    was nothing stored) the store is exactly as before and nothing was
    saved. *)
Theorem reveal_deletes_only_on_success (matchId : Z) (w : World E) :
  ∃ new,
    trace (reveal self matchId w).2 = (new ++ trace w)%list
    ∧ ((∃ c h, In (EvReceipt c h (Resolved "success")) new)
       ↔ ∃ h, (reveal self matchId w).1 = Ok h)
    ∧ match reveal self matchId w with
      | (Ok h, w') =>
          ∃ m st,
            let key := secretKey (chainId self) matchId (currentRound m) in
            let call := CallReveal matchId (ss_choice st) (ss_secret st) in
            secrets w !! key = Some st
            ∧ secrets w' = delete key (secrets w)
            ∧ secrets w' !! key = None
            ∧ trace w' = EvSave (delete key (secrets w))
                           :: EvReceipt call h (Resolved "success")
                           :: EvWrite call 500000 (Resolved h)
                           :: EvGetMatch matchId (Resolved m) :: trace w
      | (Throw _, w') =>
          secrets w' = secrets w
          ∧ (∀ snap, ¬ In (EvSave snap) new)
          ∧ ∀ snap, In (EvSave snap) (trace w') → In (EvSave snap) (trace w)
      | (OutOfFuel, _) => False
      end.
Proof.
  unfold reveal, bind, getMatch, env_call, secrets_get.
  destruct (rpc_getMatch E (ext w) matchId) as [x [m | e]]; simpl.
  2:{ exists [EvGetMatch matchId (Rejected e)]. split; [reflexivity |]. split.
      - split; [intros (c & h & [[=] | []]) | intros (h & [=])].
      - split; [reflexivity |]. split.
        + intros snap [[=] | []].
        + intros snap [[=] | H]; exact H. }
  destruct (secrets w !! secretKey (chainId self) matchId (currentRound m))
    as [st |] eqn:Hst; simpl.
  2:{ exists [EvGetMatch matchId (Resolved m)]. split; [reflexivity |]. split.
      - split; [intros (c & h & [[=] | []]) | intros (h & [=])].
      - split; [reflexivity |]. split.
        + intros snap [[=] | []].
        + intros snap [[=] | H]; exact H. }
  match goal with
  | |- context [send ?c ?g ?t ?w0] =>
      destruct (send_cases c g t w0) as (out & w1 & Hq & Hs & Ht);
      rewrite Hq in *; clear Hq
  end.
  simpl in *.
  destruct Ht as [(h & -> & Ht) | (e & -> & Ht)]; simpl.
  - eexists [EvSave _; EvReceipt _ h (Resolved "success"); EvWrite _ 500000 (Resolved h);
             EvGetMatch matchId (Resolved m)].
    rewrite Hs, Ht. split; [reflexivity |]. split.
    + split; [intros _; exists h; reflexivity |].
      intros _. eexists _, h. right. left. reflexivity.
    + exists m, st. simpl. split; [exact Hst |]. split; [reflexivity |].
      split; [apply lookup_delete_eq | reflexivity].
  - destruct Ht as [(r & Ht) | (h & rr & Hrr & Ht)]; rewrite Ht.
    + eexists [EvWrite _ 500000 (Rejected r); EvGetMatch matchId (Resolved m)].
      split; [reflexivity |]. split.
      * split; [intros (c & h & [[=] | [[=] | []]]) | intros (h & [=])].
      * split; [exact Hs |]. split.
        -- intros snap [[=] | [[=] | []]].
        -- intros snap [[=] | [[=] | H]]; exact H.
    + eexists [EvReceipt _ h rr; EvWrite _ 500000 (Resolved h);
               EvGetMatch matchId (Resolved m)].
      split; [reflexivity |]. split.
      * split; [| intros (h' & [=])].
        intros (c & h' & [Heq | [[=] | [[=] | []]]]).
        exfalso. apply Hrr. congruence.
      * split; [exact Hs |]. split.
        -- intros snap [[=] | [[=] | [[=] | []]]].
        -- intros snap [[=] | [[=] | [[=] | H]]]; exact H.
Qed.

(** *** The packed encoding *)

Lemma length_bytesToHex (bs : list byte) :
  String.length (bytesToHex bs) = (2 * List.length bs)%nat.
Proof.
  induction bs as [| b r IH]; [reflexivity |].
  change (bytesToHex (b :: r))
    with (String (hexDigit (Byte.to_N b / 16))
            (String (hexDigit (Byte.to_N b mod 16)) (bytesToHex r))).
  simpl String.length. rewrite IH. simpl. lia.
Qed.

Lemma substring_all (t : string) : String.substring 0 (String.length t) t = t.
Proof. induction t as [| c t IH]; simpl; [reflexivity | now rewrite IH]. Qed.

Lemma strip0x_prefixed (t : string) : strip0x ("0x" +:+ t) = t.
Proof.
  change ("0x" +:+ t) with (String "0" (String "x" t)).
  unfold strip0x. simpl. rewrite Nat.sub_0_r.
  replace (String.prefix "" t) with true by (destruct t; reflexivity).
  apply substring_all.
Qed.

Lemma encode_uint8_byte (b : byte) :
  encode_uint8 (Z.of_N (Byte.to_N b)) = Resolved (byteToHex b).
Proof.
  unfold encode_uint8.
  destruct (Z.leb_spec 0 (Z.of_N (Byte.to_N b))) as [_ | Hneg]; [| lia].
  rewrite N2Z.id, Byte.of_to_N. reflexivity.
Qed.

(** The payload that is hashed is the hex text of the 33 bytes
    "choice code, then the 32 bytes of the blinding value". *)
Lemma encodePacked_bytes (b : byte) (bs : list byte) :
  List.length bs = 32%nat →
  encodePacked_uint8_bytes32 (Z.of_N (Byte.to_N b)) ("0x" +:+ bytesToHex bs)
  = Resolved ("0x" +:+ bytesToHex (b :: bs)).
Proof.
  intros Hlen. unfold encodePacked_uint8_bytes32.
  rewrite encode_uint8_byte.
  assert (Hl : String.length ("0x" +:+ bytesToHex bs) = 66%nat).
  { change ("0x" +:+ bytesToHex bs) with (String "0" (String "x" (bytesToHex bs))).
    cbn [String.length]. rewrite length_bytesToHex, Hlen. reflexivity. }
  rewrite Hl. simpl Nat.eqb. cbv iota.
  rewrite strip0x_prefixed. reflexivity.
Qed.

Lemma choice_code_byte (c : ChoiceType) :
  choice_code c = Z.of_N (Byte.to_N (choice_byte c)).
Proof. destruct c; reflexivity. Qed.

(** C8. Every commitment that [commit] submits is [keccak256] of the
    tight packing of 33 bytes: the one-byte choice code followed by the
    32-byte blinding value, namely those of the secret that the store
    holds under the key of the round once the call is over. For a
    fresh key the code is that of the choice passed in (Rock 1, Paper 2,
    Scissors 3) and the write is always attempted. *)
Theorem commit_hash_is_keccak_of_packing (matchId : Z) (choice : ChoiceType)
        (w : World E) :
  (∀ k s, secrets w !! k = Some s → wf_secret s) →
  (∀ c gas r,
      In (EvWrite c gas r) (trace (commit self matchId choice w).2) →
      In (EvWrite c gas r) (trace w)
      ∨ ∃ m b bs,
          let key := secretKey (chainId self) matchId (currentRound m) in
          (rpc_getMatch E (ext w) matchId).2 = Resolved m
          ∧ List.length bs = 32%nat
          ∧ secrets (commit self matchId choice w).2 !! key
            = Some (mkSecret (Z.of_N (Byte.to_N b)) ("0x" +:+ bytesToHex bs))
          ∧ c = CallCommit matchId (keccak256 E ("0x" +:+ bytesToHex (b :: bs)))
          ∧ (secrets w !! key = None → Z.of_N (Byte.to_N b) = choice_code choice))
  ∧ (∀ m, (rpc_getMatch E (ext w) matchId).2 = Resolved m →
          secrets w !! secretKey (chainId self) matchId (currentRound m) = None →
          ∃ bs r, List.length bs = 32%nat ∧
            In (EvWrite (CallCommit matchId
                           (keccak256 E ("0x" +:+ bytesToHex (choice_byte choice :: bs))))
                        150000 r)
               (trace (commit self matchId choice w).2)).
Proof.
  intros Hwf. unfold commit, bind, getMatch, env_call, secrets_get.
  destruct (rpc_getMatch E (ext w) matchId) as [x [m | e]]; simpl.
  2:{ split; [| intros m [=]]. intros c gas r [[=] | Hin]. left; exact Hin. }
  set (key := secretKey (chainId self) matchId (currentRound m)).
  destruct (secrets w !! key) as [old |] eqn:Hold; simpl.
  - destruct (Hwf _ _ Hold) as (b & bs & Hlen & Hc & Hs).
    destruct old as [oc os]. simpl in Hc, Hs. subst oc os. simpl.
    rewrite (encodePacked_bytes b bs Hlen). simpl.
    split; [| intros m' [= <-] Hn; fold key in Hn; congruence].
    intros c gas r Hin.
    match type of Hin with
    | context [send ?c0 ?g ?t ?w0] =>
        apply send_writes in Hin as Hw;
        destruct (send_cases c0 g t w0) as (out & w1 & Hq & Hsec & _);
        rewrite Hq in *; clear Hq
    end.
    simpl in *.
    destruct Hw as [[[=] | Hin'] | [-> _]]; [left; exact Hin' | right].
    exists m, b, bs. simpl. fold key. rewrite Hsec, Hold.
    repeat split; try reflexivity; [exact Hlen | discriminate].
  - match goal with
    | |- context [randomBytes ?n ?w0] =>
        destruct (randomBytes_cases n w0) as (bs & wr & Hq & Hlen & Hsr & Htr);
        rewrite Hq; clear Hq
    end.
    simpl in Hsr, Htr. simpl.
    rewrite (choice_code_byte choice).
    rewrite (encodePacked_bytes (choice_byte choice) bs Hlen). simpl.
    match goal with
    | |- context [send ?c0 ?g ?t ?w0] =>
        pose proof (send_writes c0 g t w0) as Hw;
        destruct (send_cases c0 g t w0) as (out & w1 & Hq & Hsec & Ht);
        rewrite Hq in *; clear Hq
    end.
    simpl in *. rewrite Htr, Hsr in *. simpl in *. split.
    + intros c gas r Hin.
      destruct (Hw _ _ _ Hin) as [[[=] | [[=] | [[=] | Hin']]] | [-> _]];
        [left; exact Hin' | right].
      exists m, (choice_byte choice), bs. simpl. fold key.
      rewrite Hsec, lookup_insert_eq, <- (choice_code_byte choice).
      repeat split; try reflexivity. exact Hlen.
    + intros m' [= <-] _. exists bs.
      destruct Ht as [(h & _ & Ht) | (e & _ & [(r & Ht) | (h & rr & _ & Ht)])];
        rewrite Ht; eexists; split; try exact Hlen; simpl; eauto.
Qed.
(** Well-formedness of the store is an invariant of [commit] and
    [reveal]: from the empty store, every secret ever held is one that
    [commit] wrote. *)
Lemma commit_keeps_wf (matchId : Z) (choice : ChoiceType) (w : World E) :
  (∀ k s, secrets w !! k = Some s → wf_secret s) →
  ∀ k s, secrets (commit self matchId choice w).2 !! k = Some s → wf_secret s.
Proof.
  intros Hwf. unfold commit, bind, getMatch, env_call, secrets_get.
  destruct (rpc_getMatch E (ext w) matchId) as [x [m | e]]; simpl; [| exact Hwf].
  set (key := secretKey (chainId self) matchId (currentRound m)).
  destruct (secrets w !! key) as [old |] eqn:Hold; simpl.
  - destruct (encodePacked_uint8_bytes32 _ _) as [packed | e]; simpl; [| exact Hwf].
    match goal with
    | |- context [send ?c0 ?g ?t ?w0] =>
        destruct (send_cases c0 g t w0) as (out & w1 & Hq & Hsec & _);
        rewrite Hq; clear Hq
    end.
    simpl in *. rewrite Hsec. exact Hwf.
  - match goal with
    | |- context [randomBytes ?n ?w0] =>
        destruct (randomBytes_cases n w0) as (bs & wr & Hq & Hlen & Hsr & _);
        rewrite Hq; clear Hq
    end.
    simpl in Hsr. simpl.
    destruct (encodePacked_uint8_bytes32 _ _) as [packed | e]; simpl;
      [| rewrite Hsr; exact Hwf].
    match goal with
    | |- context [send ?c0 ?g ?t ?w0] =>
        destruct (send_cases c0 g t w0) as (out & w1 & Hq & Hsec & _);
        rewrite Hq; clear Hq
    end.
    simpl in *. rewrite Hsec, Hsr. intros k s Hks.
    apply lookup_insert_Some in Hks as [[_ <-] | [_ Hks]]; [| eauto].
    exists (choice_byte choice), bs. simpl.
    split; [exact Hlen |]. split; [apply choice_code_byte | reflexivity].
Qed.

Lemma reveal_keeps_wf (matchId : Z) (w : World E) :
  (∀ k s, secrets w !! k = Some s → wf_secret s) →
  ∀ k s, secrets (reveal self matchId w).2 !! k = Some s → wf_secret s.
Proof.
  intros Hwf. unfold reveal, bind, getMatch, env_call, secrets_get.
  destruct (rpc_getMatch E (ext w) matchId) as [x [m | e]]; simpl; [| exact Hwf].
  destruct (secrets w !! secretKey (chainId self) matchId (currentRound m))
    as [st |]; simpl; [| exact Hwf].
  match goal with
  | |- context [send ?c0 ?g ?t ?w0] =>
      destruct (send_cases c0 g t w0) as (out & w1 & Hq & Hsec & _);
      rewrite Hq; clear Hq
  end.
  simpl in Hsec. destruct out as [h | e |]; simpl; rewrite Hsec; [| exact Hwf ..].
  intros k s Hks. apply lookup_delete_Some in Hks as [_ Hks]. eauto.
Qed.
End StoreTheorems.

(** ** Theorems: the wait loop *)

Local Open Scope list_scope.

Ltac finish :=
  repeat split; try reflexivity; simpl; repeat split; auto; try discriminate.

Section WaitTheorems.
Context {E : Env}.

Lemma claims_obey_app matchId cond (a b : list Event) :
  claims_obey matchId cond a → claims_obey matchId cond b →
  claims_obey matchId cond (a ++ b).
Proof.
  induction a as [| ev a IH]; simpl; [auto |].
  intros [Hev Ha] Hb. split; [| auto].
  destruct (claim_submitted ev) as [id |]; [| exact I].
  destruct Hev as [Hid Hobs]. split; [exact Hid |].
  destruct a as [| [] a']; simpl in *; try contradiction.
  destruct r as [ts |]; [| contradiction].
  destruct a' as [| [] a'']; simpl in *; try contradiction.
  exact Hobs.
Qed.

(** What one pass of the wait loop does. Its new events obey the claim
    condition of the code, and they hold a confirmed claim exactly when
    the pass returns [timeout_claimed]. *)
Lemma waitForPhase_poll_cases (matchId targetPhase : Z) (w : World E) :
  ∃ out w' new,
    waitForPhase_poll matchId targetPhase w = (out, w')
    ∧ trace w' = new ++ trace w
    ∧ secrets w' = secrets w
    ∧ claims_obey matchId (deadline_passed targetPhase) new
    ∧ claimed_in new = match out with Ok (Some TimeoutClaimed) => true | _ => false end
    ∧ out ≠ OutOfFuel.
Proof.
  unfold waitForPhase_poll, bind, getMatch, getRound, getBlockTimestamp, env_call.
  destruct (rpc_getMatch E (ext w) matchId) as [x [m | e]]; simpl.
  2:{ eexists _, _, [_]. finish. }
  destruct ((state m =? MatchState.COMPLETE)%Z || (state m =? MatchState.CANCELLED)%Z);
    simpl.
  { eexists _, _, [_]. finish. }
  destruct (rpc_getRound E x matchId (currentRound m)) as [x1 [rd | e]]; simpl.
  2:{ eexists _, _, [_; _]. finish. }
  destruct (Z.eqb_spec (phase rd) targetPhase) as [Hph | Hph]; simpl.
  { eexists _, _, [_; _]. finish. }
  destruct (Z.gtb_spec (phaseDeadline rd) 0) as [Hdl | Hdl]; simpl.
  2:{ unfold sleep. simpl. eexists _, _, [_; _; _].
      finish. }
  destruct (rpc_getBlock E x1) as [x2 [ts | e]]; simpl.
  2:{ eexists _, _, [_; _; _]. finish. }
  destruct (Z.gtb_spec ts (phaseDeadline rd)) as [Hts | Hts]; simpl.
  2:{ unfold sleep. simpl. eexists _, _, [_; _; _; _].
      finish. }
  unfold try_catch, claimTimeout, bind.
  match goal with
  | |- context [send ?c ?g ?t ?w0] =>
      destruct (send_cases c g t w0) as (out & w1 & Hq & Hs & Ht);
      rewrite Hq; clear Hq
  end.
  simpl in Hs, Ht.
  assert (Hcond : deadline_passed targetPhase ts rd) by (unfold deadline_passed; lia).
  destruct Ht as [(h & -> & Ht) | (e & -> & [(r & Ht) | (h & rr & Hrr & Ht)])]; simpl.
  - eexists _, _, [_; _; _; _; _]. split; [reflexivity |].
    split; [rewrite Ht; reflexivity |]. split; [exact Hs |].
    finish.
  - unfold sleep. simpl. eexists _, _, [_; _; _; _; _]. split; [reflexivity |].
    split; [simpl; rewrite Ht; reflexivity |]. split; [exact Hs |].
    finish.
  - unfold sleep. simpl. eexists _, _, [_; _; _; _; _; _]. split; [reflexivity |].
    split; [simpl; rewrite Ht; reflexivity |]. split; [exact Hs |].
    finish.
    destruct rr as [st |]; [| reflexivity].
    destruct (String.eqb_spec st "success") as [-> | _]; [congruence | reflexivity].
Qed.

Lemma claimed_in_app (a b : list Event) :
  claimed_in (a ++ b) = claimed_in a || claimed_in b.
Proof. apply List.existsb_app. Qed.

Lemma waitForPhase_loop_cases (fuel : nat) (matchId targetPhase start timeoutMs : Z)
      (w : World E) :
  ∃ out w' new,
    waitForPhase_loop fuel matchId targetPhase start timeoutMs w = (out, w')
    ∧ trace w' = new ++ trace w
    ∧ secrets w' = secrets w
    ∧ claims_obey matchId (deadline_passed targetPhase) new
    ∧ claimed_in new = match out with Ok TimeoutClaimed => true | _ => false end.
Proof.
  revert w. induction fuel as [| fuel IH]; intros w.
  - exists OutOfFuel, w, []. finish.
  - cbn [waitForPhase_loop]. unfold bind at 1. unfold dateNow.
    destruct (clock_now E (ext w)) as [x now]; simpl.
    set (w0 := mkWorld x (secrets w) (EvNow now :: trace w)).
    destruct (now - start <? timeoutMs)%Z.
    2:{ eexists _, _, [_]. finish. }
    unfold bind.
    destruct (waitForPhase_poll_cases matchId targetPhase w0)
      as (out1 & w1 & new1 & Hq & Ht & Hs & Hc & Hcl & Hnf).
    rewrite Hq. destruct out1 as [[res |] | e |].
    + exists (Ok res), w1, (new1 ++ [EvNow now]).
      split; [reflexivity |].
      split; [rewrite Ht, <- List.app_assoc; reflexivity |].
      split; [exact Hs |].
      split; [apply claims_obey_app; simpl; auto |].
      rewrite claimed_in_app, Hcl. simpl. rewrite orb_false_r.
      destruct res; reflexivity.
    + destruct (IH w1) as (out2 & w2 & new2 & Hq2 & Ht2 & Hs2 & Hc2 & Hcl2).
      rewrite Hq2. exists out2, w2, (new2 ++ new1 ++ [EvNow now]).
      split; [reflexivity |].
      split; [rewrite Ht2, Ht, <- !List.app_assoc; reflexivity |].
      split; [rewrite Hs2, Hs; reflexivity |].
      split; [repeat apply claims_obey_app; simpl; auto |].
      rewrite !claimed_in_app, Hcl, Hcl2. simpl. rewrite !orb_false_r. reflexivity.
    + exists (Throw e), w1, (new1 ++ [EvNow now]).
      split; [reflexivity |].
      split; [rewrite Ht, <- List.app_assoc; reflexivity |].
      split; [exact Hs |].
      split; [apply claims_obey_app; simpl; auto |].
      rewrite claimed_in_app, Hcl. reflexivity.
    + exfalso. apply Hnf. reflexivity.
Qed.

Lemma waitForPhase_cases (fuel : nat) (matchId targetPhase timeoutMs : Z) (w : World E) :
  ∃ out w' new,
    waitForPhase fuel matchId targetPhase timeoutMs w = (out, w')
    ∧ trace w' = new ++ trace w
    ∧ secrets w' = secrets w
    ∧ claims_obey matchId (deadline_passed targetPhase) new
    ∧ claimed_in new = match out with Ok TimeoutClaimed => true | _ => false end.
Proof.
  unfold waitForPhase, bind, dateNow.
  destruct (clock_now E (ext w)) as [x start]; simpl.
  set (w0 := mkWorld x (secrets w) (EvNow start :: trace w)).
  destruct (waitForPhase_loop_cases fuel matchId targetPhase start timeoutMs w0)
    as (out & w1 & new & Hq & Ht & Hs & Hc & Hcl).
  rewrite Hq. exists out, w1, (new ++ [EvNow start]).
  split; [reflexivity |].
  split; [rewrite Ht, <- List.app_assoc; reflexivity |].
  split; [exact Hs |].
  split; [apply claims_obey_app; simpl; auto |].
  rewrite claimed_in_app, Hcl. simpl. rewrite orb_false_r. reflexivity.
Qed.

(** C2 (as the code has it). Every timeout claim that [waitForPhase]
    submits is for its own match and directly follows a round read and
    a block read showing: the round is not in the target phase, a phase
    deadline is assigned (positive), and the block timestamp is strictly
    past that deadline. No grace margin is added and the opponent's
    commitment or revealed choice is not looked at. *)
Theorem waitForPhase_claims_only_past_deadline
        (fuel : nat) (matchId targetPhase timeoutMs : Z) (w : World E) :
  ∃ new,
    trace (waitForPhase fuel matchId targetPhase timeoutMs w).2 = new ++ trace w
    ∧ claims_obey matchId (deadline_passed targetPhase) new.
Proof.
  destruct (waitForPhase_cases fuel matchId targetPhase timeoutMs w)
    as (out & w1 & new & Hq & Ht & _ & Hc & _).
  rewrite Hq. exists new. split; assumption.
Qed.
End WaitTheorems.

(** ** Theorems: the match driver *)

Section DriverLemmas.
Context {E : Env}.
Variable self : Agent.

Lemma in_Zseq (k start : Z) (n : nat) :
  In k (Zseq start n) ↔ (start <= k < start + Z.of_nat n)%Z.
Proof.
  revert start. induction n as [| n IH]; intros start; simpl Zseq.
  - simpl. lia.
  - simpl In. rewrite IH. lia.
Qed.

Lemma length_Zseq (start : Z) (n : nat) : List.length (Zseq start n) = n.
Proof.
  revert start. induction n as [| n IH]; intros start; simpl;
    [reflexivity | now rewrite IH].
Qed.

Lemma Zseq_sorted (start : Z) (n : nat) :
  StronglySorted Z.lt (Zseq start n).
Proof.
  revert start. induction n as [| n IH]; intros start; simpl; constructor.
  - apply IH.
  - apply List.Forall_forall. intros k Hk. apply in_Zseq in Hk. lia.
Qed.

Lemma filter_sorted (f : Z → bool) (l : list Z) :
  StronglySorted Z.lt l → StronglySorted Z.lt (List.filter f l).
Proof.
  induction 1 as [| a l Hl IH Ha]; simpl; [constructor |].
  destruct (f a); [| exact IH]. constructor; [exact IH |].
  apply List.Forall_forall. intros k Hk. apply List.filter_In in Hk as [Hk _].
  rewrite List.Forall_forall in Ha. auto.
Qed.

Lemma filter_length_lt (f : Z → bool) (l : list Z) (k : Z) :
  In k l → f k = false → (List.length (List.filter f l) < List.length l)%nat.
Proof.
  induction l as [| a l IH]; simpl; [contradiction |].
  intros [-> | Hin] Hf.
  - rewrite Hf. pose proof (List.filter_length_le f l). lia.
  - specialize (IH Hin Hf). destruct (f a); simpl; lia.
Qed.

Lemma round_shown_app matchId (a b : list Event) k :
  round_shown matchId (a ++ b) k = round_shown matchId a k || round_shown matchId b k.
Proof. apply List.existsb_app. Qed.

(** Reads of other indices do not show round [k]. *)
Lemma round_shown_outside matchId lo hi (tr : list Event) k :
  Forall (reads_round_in matchId lo hi) tr → ¬ (lo <= k < hi)%Z →
  round_shown matchId tr k = false.
Proof.
  intros Hall Hk. unfold round_shown. apply not_true_is_false. intros Hex.
  apply List.existsb_exists in Hex as (ev & Hin & Hshow).
  rewrite List.Forall_forall in Hall.
  destruct (Hall ev Hin) as (k' & rep & -> & Hrange).
  destruct rep as [rd |]; simpl in Hshow; [| discriminate].
  apply andb_prop in Hshow as [Hshow _]. apply andb_prop in Hshow as [_ Hshow].
  apply Z.eqb_eq in Hshow. lia.
Qed.

Lemma reads_round_in_weaken matchId lo hi lo' hi' (tr : list Event) :
  (lo' <= lo)%Z → (hi <= hi')%Z →
  Forall (reads_round_in matchId lo hi) tr → Forall (reads_round_in matchId lo' hi') tr.
Proof.
  intros Hlo Hhi. apply List.Forall_impl.
  intros ev (k & rep & -> & Hr). exists k, rep. split; [reflexivity | lia].
Qed.

(** One pass of the rebuild loop: one read of round [r], and the entry
    is appended exactly when the read resolves with both sides revealed. *)
Lemma rebuildRound_cases (matchId : Z) (isPlayer1 : bool) (r : Z)
      (acc : list RoundResult) (w : World E) :
  ∃ rep w',
    rebuildRound self matchId isPlayer1 r acc w
    = (Ok (acc ++ keep_round self isPlayer1 r rep), w')
    ∧ trace w' = EvGetRound matchId r rep :: trace w
    ∧ secrets w' = secrets w.
Proof.
  unfold rebuildRound, try_catch, bind, getRound, env_call.
  destruct (rpc_getRound E (ext w) matchId r) as [x [rd | e]]; simpl.
  - exists (Resolved rd). simpl. unfold both_revealed.
    destruct ((choiceP1 rd >? 0)%Z && (choiceP2 rd >? 0)%Z); simpl;
      rewrite ?List.app_nil_r; eexists; repeat split; reflexivity.
  - exists (Rejected e). simpl. rewrite List.app_nil_r.
    eexists; repeat split; reflexivity.
Qed.

Lemma shows_round_own matchId r rep :
  List.map rr_round (keep_round self true r rep)
  = (if shows_round matchId r (EvGetRound matchId r rep) then [r] else [])
  ∧ List.map rr_round (keep_round self false r rep)
    = (if shows_round matchId r (EvGetRound matchId r rep) then [r] else []).
Proof.
  destruct rep as [rd |]; simpl; [| auto].
  rewrite !Z.eqb_refl. simpl. destruct (both_revealed rd); auto.
Qed.

Lemma rebuildRounds_cases (n : nat) (matchId : Z) (isPlayer1 : bool) (r : Z)
      (acc : list RoundResult) (w : World E) :
  ∃ kept w' fin,
    rebuildRounds self n matchId isPlayer1 r acc w = (Ok (acc ++ kept), w')
    ∧ trace w' = fin ++ trace w
    ∧ secrets w' = secrets w
    ∧ Forall (reads_round_in matchId r (r + Z.of_nat n)) fin
    ∧ (∀ k, (r <= k < r + Z.of_nat n)%Z → ∃ rep, In (EvGetRound matchId k rep) fin)
    ∧ List.map rr_round kept = List.filter (round_shown matchId fin) (Zseq r n)
    ∧ Forall (entry_from self matchId isPlayer1 fin) kept.
Proof.
  revert r acc w. induction n as [| n IH]; intros r acc w.
  - exists [], w, []. simpl. rewrite List.app_nil_r.
    split; [reflexivity |]. split; [reflexivity |]. split; [reflexivity |].
    split; [constructor |]. split; [intros k Hk; lia |].
    split; [reflexivity | constructor].
  - cbn [rebuildRounds]. unfold bind.
    destruct (rebuildRound_cases matchId isPlayer1 r acc w)
      as (rep & w1 & Hq1 & Ht1 & Hs1).
    rewrite Hq1.
    destruct (IH (r + 1)%Z (acc ++ keep_round self isPlayer1 r rep) w1)
      as (kept2 & w2 & fin2 & Hq2 & Ht2 & Hs2 & Hall2 & Hcov2 & Hmap2 & Hent2).
    rewrite Hq2.
    set (e := EvGetRound matchId r rep).
    exists (keep_round self isPlayer1 r rep ++ kept2), w2, (fin2 ++ [e]).
    split; [now rewrite List.app_assoc |].
    split; [rewrite Ht2, Ht1, <- List.app_assoc; reflexivity |].
    split; [congruence |].
    split.
    { apply List.Forall_app. split.
      - eapply reads_round_in_weaken; [| | exact Hall2]; lia.
      - repeat constructor. exists r, rep. split; [reflexivity | lia]. }
    split.
    { intros k Hk. destruct (Z.eq_dec k r) as [-> | Hne].
      - exists rep. apply List.in_or_app. right. left. reflexivity.
      - destruct (Hcov2 k ltac:(lia)) as [rep' Hin]. exists rep'.
        apply List.in_or_app. left. exact Hin. }
    split.
    { assert (Hhead : List.map rr_round (keep_round self isPlayer1 r rep)
                      = if shows_round matchId r e then [r] else []).
      { destruct (shows_round_own matchId r rep) as [Ht Hf].
        destruct isPlayer1; assumption. }
      assert (Htail : List.filter (round_shown matchId (fin2 ++ [e])) (Zseq (r + 1) n)
                      = List.filter (round_shown matchId fin2) (Zseq (r + 1) n)).
      { apply List.filter_ext_in. intros k Hk. apply in_Zseq in Hk.
        rewrite round_shown_app. unfold round_shown at 2. simpl.
        destruct rep as [rd |]; simpl; [| now rewrite orb_false_r].
        destruct (Z.eqb_spec r k) as [-> | _]; [lia |].
        rewrite andb_false_r. simpl. now rewrite orb_false_r. }
      rewrite List.map_app, Hmap2, Hhead. cbn [Zseq List.filter].
      rewrite Htail, round_shown_app.
      rewrite (round_shown_outside matchId (r + 1) (r + 1 + Z.of_nat n) fin2 r Hall2)
        by lia.
      change (round_shown matchId [e] r) with (shows_round matchId r e || false).
      rewrite orb_false_r, orb_false_l.
      destruct (shows_round matchId r e); reflexivity. }
    apply List.Forall_app. split.
    + destruct rep as [rd |]; simpl; [| constructor].
      destruct (both_revealed rd); constructor; [| constructor].
      exists rd. simpl. split; [| reflexivity].
      apply List.in_or_app. right. left. reflexivity.
    + eapply List.Forall_impl; [| exact Hent2].
      intros rr (rd & Hin & Heq). exists rd. split; [| exact Heq].
      apply List.in_or_app. left. exact Hin.
Qed.

Lemma finalizeComplete_cases (matchId : Z) (isPlayer1 claimed : bool)
      (m : MatchData) (w : World E) :
  ∃ res w' fin,
    finalizeComplete self matchId isPlayer1 claimed m w = (Ok res, w')
    ∧ trace w' = fin ++ trace w
    ∧ secrets w' = secrets w
    ∧ complete_outcome isPlayer1 claimed m res
    ∧ history_of self matchId isPlayer1 (currentRound m) fin (mr_rounds res).
Proof.
  unfold finalizeComplete, bind.
  destruct (rebuildRounds_cases (Z.to_nat (currentRound m)) matchId isPlayer1 1 [] w)
    as (kept & w1 & fin & Hq & Ht & Hs & Hall & Hcov & Hmap & Hent).
  rewrite Hq. simpl. eexists _, w1, fin.
  split; [reflexivity |]. split; [exact Ht |]. split; [exact Hs |].
  split; [repeat split |]. unfold history_of. simpl.
  split; [exact Hall |]. split; [| split; assumption].
  intros k Hk. apply Hcov. lia.
Qed.

(** *** Computations that confirm no timeout claim *)

Lemma quiet_ret {A} (a : A) : quiet E (ret a).
Proof. intros w. exists []. auto. Qed.

Lemma quiet_throw {A} (e : Exn) : quiet E (@throw E A e).
Proof. intros w. exists []. auto. Qed.

Lemma quiet_bind {A B} (c : M E A) (k : A → M E B) :
  quiet E c → (∀ a, quiet E (k a)) → quiet E (bind c k).
Proof.
  intros Hc Hk w. unfold bind.
  destruct (Hc w) as (n1 & Ht1 & Hq1).
  destruct (c w) as [[a | e |] w1]; simpl in *; try (exists n1; auto; fail).
  destruct (Hk a w1) as (n2 & Ht2 & Hq2).
  exists (n2 ++ n1). rewrite Ht2, Ht1, List.app_assoc, claimed_in_app, Hq1, Hq2. auto.
Qed.

Lemma quiet_try_catch {A} (c : M E A) (h : Exn → M E A) :
  quiet E c → (∀ e, quiet E (h e)) → quiet E (try_catch c h).
Proof.
  intros Hc Hh w. unfold try_catch.
  destruct (Hc w) as (n1 & Ht1 & Hq1).
  destruct (c w) as [[a | e |] w1]; simpl in *; try (exists n1; auto; fail).
  destruct (Hh e w1) as (n2 & Ht2 & Hq2).
  exists (n2 ++ n1). rewrite Ht2, Ht1, List.app_assoc, claimed_in_app, Hq1, Hq2. auto.
Qed.

Lemma quiet_env_call {A} (f : env_state E → env_state E * Reply A) ev :
  (∀ r, is_claim_confirmed (ev r) = false) → quiet E (env_call f ev).
Proof.
  intros Hev w. rewrite env_call_trace. exists [ev (f (ext w)).2].
  split; [reflexivity |]. simpl. now rewrite Hev.
Qed.

Lemma quiet_liftReply {A} (r : Reply A) : quiet E (@liftReply E A r).
Proof. destruct r; [apply quiet_ret | apply quiet_throw]. Qed.

Lemma quiet_getMatch matchId : quiet E (getMatch matchId).
Proof. apply quiet_env_call. reflexivity. Qed.

Lemma quiet_getRound matchId r : quiet E (getRound matchId r).
Proof. apply quiet_env_call. reflexivity. Qed.

Lemma quiet_dateNow : quiet E dateNow.
Proof.
  intros w. unfold dateNow. destruct (clock_now E (ext w)) as [x t].
  exists [EvNow t]. auto.
Qed.

Lemma quiet_sleep ms : quiet E (sleep ms).
Proof. intros w. exists [EvSleep ms]. auto. Qed.

Lemma quiet_randomBytes n : quiet E (randomBytes n).
Proof.
  intros w. destruct (randomBytes_cases n w) as (bs & w' & Hq & _ & _ & Ht).
  rewrite Hq. exists [EvRandom]. auto.
Qed.

Lemma quiet_randomInt max : quiet E (randomInt max).
Proof.
  intros w. unfold randomInt. destruct (os_randomInt E (ext w)) as [x n].
  exists [EvRandom]. auto.
Qed.

Lemma quiet_secrets_get key : quiet E (secrets_get key).
Proof. intros w. exists []. auto. Qed.

Lemma quiet_secrets_set key v : quiet E (secrets_set key v).
Proof. intros w. exists []. auto. Qed.

Lemma quiet_secrets_delete key : quiet E (secrets_delete key).
Proof. intros w. exists []. auto. Qed.

Lemma quiet_saveSecrets : quiet E saveSecrets.
Proof. intros w. exists [EvSave (secrets w)]. auto. Qed.

(** Sending any call other than [claimTimeout] confirms no claim. *)
Lemma quiet_send c gas what :
  (∀ id, c ≠ CallClaimTimeout id) → quiet E (send c gas what).
Proof.
  intros Hc w. destruct (send_cases c gas what w) as (out & w' & Hq & _ & Ht).
  rewrite Hq. simpl.
  assert (Hrec : ∀ h rr, is_claim_confirmed (EvReceipt c h rr) = false).
  { intros h rr. destruct c; try reflexivity. exfalso. eapply Hc. reflexivity. }
  destruct Ht as [(h & _ & Ht) | (e & _ & [(r & Ht) | (h & rr & _ & Ht)])];
    rewrite Ht.
  - eexists [_; _]. split; [reflexivity |].
    unfold claimed_in. cbn [List.existsb]. now rewrite Hrec.
  - eexists [_]. split; reflexivity.
  - eexists [_; _]. split; [reflexivity |].
    unfold claimed_in. cbn [List.existsb]. now rewrite Hrec.
Qed.
End DriverLemmas.

Create HintDb quiet.
#[global] Hint Resolve quiet_ret quiet_throw quiet_liftReply quiet_getMatch
  quiet_getRound quiet_dateNow quiet_sleep quiet_randomBytes quiet_randomInt
  quiet_secrets_get quiet_secrets_set quiet_secrets_delete quiet_saveSecrets : quiet.

(** Walks down a computation built from the primitives above. *)
Ltac quiet_steps :=
  repeat first
    [ apply quiet_send; discriminate
    | solve [auto with quiet]
    | apply quiet_bind; [| intros ?]
    | apply quiet_try_catch; [| intros ?]
    | match goal with
      | |- quiet _ (match ?x with _ => _ end) => destruct x
      end ].

Section DriverTheorems.
Context {E : Env}.
Variable self : Agent.

Lemma quiet_commit matchId choice : quiet E (commit self matchId choice).
Proof. unfold commit. quiet_steps. Qed.

Lemma quiet_reveal matchId : quiet E (reveal self matchId).
Proof. unfold reveal. quiet_steps. Qed.

Lemma quiet_pickRandomChoice : quiet E pickRandomChoice.
Proof. unfold pickRandomChoice. quiet_steps. Qed.

Lemma quiet_waitActive fuel matchId waitStart :
  quiet E (waitActive fuel matchId waitStart).
Proof.
  induction fuel as [| fuel IH]; cbn [waitActive].
  - intros w. exists []. auto.
  - quiet_steps.
Qed.

(** Running a computation that confirms no claim, then its continuation. *)
Lemma bind_quiet {A B} (c : M E A) (k : A → M E B) (w : World E) :
  quiet E c →
  ∃ out1 w1 new1,
    trace w1 = new1 ++ trace w ∧ claimed_in new1 = false
    ∧ bind c k w = match out1 with
                   | Ok a => k a w1
                   | Throw e => (Throw e, w1)
                   | OutOfFuel => (OutOfFuel, w1)
                   end.
Proof.
  intros Hq. destruct (Hq w) as (new1 & Ht & Hc). unfold bind.
  destruct (c w) as [out1 w1]. exists out1, w1, new1.
  split; [exact Ht |]. split; [exact Hc |]. destruct out1; reflexivity.
Qed.

Lemma commitPhase_cases fuel matchId isPlayer1 st round (w : World E) :
  ∃ out w', commitPhase self fuel matchId isPlayer1 st round w = (out, w')
    ∧ match out with
      | Ok (inl st') =>
          ∃ new, trace w' = new ++ trace w
                 ∧ claimedTimeout st' = claimedTimeout st || claimed_in new
      | Ok (inr _) => False
      | _ => True
      end.
Proof.
  unfold commitPhase.
  match goal with
  | |- context [bind ?c ?k w] =>
      destruct (bind_quiet c k w) as (out1 & w1 & new1 & Ht1 & Hc1 & Hq)
  end.
  { destruct (String.eqb _ _); quiet_steps. }
  rewrite Hq. clear Hq.
  destruct out1 as [[] | e |]; [| eexists _, _; split; [reflexivity | exact I] ..].
  unfold bind.
  destruct (waitForPhase_cases fuel matchId RoundPhase.REVEAL 180000 w1)
    as (out2 & w2 & new2 & Hq2 & Ht2 & _ & _ & Hc2).
  rewrite Hq2.
  destruct out2 as [[] | e |]; simpl;
    eexists _, _; (split; [reflexivity |]); try exact I;
    exists (new2 ++ new1); rewrite Ht2, Ht1, List.app_assoc, claimed_in_app, Hc1, Hc2;
    simpl; rewrite ?orb_false_r, ?orb_true_r; auto.
Qed.

Lemma revealPhase_cases matchId isPlayer1 st m round (w : World E) :
  ∃ out w', revealPhase self matchId isPlayer1 st m round w = (out, w')
    ∧ match out with
      | Ok (inl st') =>
          ∃ new, trace w' = new ++ trace w
                 ∧ claimedTimeout st' = claimedTimeout st || claimed_in new
      | Ok (inr _) => False
      | _ => True
      end.
Proof.
  unfold revealPhase.
  match goal with
  | |- context [bind ?c ?k w] =>
      destruct (bind_quiet c k w) as (out1 & w1 & new1 & Ht1 & Hc1 & Hq)
  end.
  { destruct (Z.eqb _ _); quiet_steps. }
  rewrite Hq. clear Hq.
  destruct out1 as [[] | e |]; [| eexists _, _; split; [reflexivity | exact I] ..].
  unfold bind, sleep, try_catch, getRound, env_call. simpl.
  destruct (rpc_getRound E _ matchId (currentRound m)) as [x [cr | e]]; simpl.
  - destruct (phase cr =? RoundPhase.COMPLETE)%Z; simpl;
      eexists _, _; (split; [reflexivity |]); simpl;
      exists (EvGetRound matchId (currentRound m) (Resolved cr) :: EvSleep 3000 :: new1);
      rewrite Ht1; simpl; rewrite Hc1, orb_false_r; auto.
  - eexists _, _; (split; [reflexivity |]); simpl.
    exists (EvGetRound matchId (currentRound m) (Rejected e) :: EvSleep 3000 :: new1).
    rewrite Ht1; simpl; rewrite Hc1, orb_false_r; auto.
Qed.

Lemma playMatch_pass_cases fuel matchId isPlayer1 st (w : World E) :
  ∃ out w', playMatch_pass self fuel matchId isPlayer1 st w = (out, w')
            ∧ pass_post self matchId isPlayer1 st w out w'.
Proof.
  unfold playMatch_pass. unfold bind at 1. unfold getMatch, env_call.
  destruct (rpc_getMatch E (ext w) matchId) as [x [m | e]]; simpl.
  2:{ eexists _, _. split; [reflexivity | exact I]. }
  set (w0 := mkWorld x (secrets w) (EvGetMatch matchId (Resolved m) :: trace w)).
  destruct (Z.eqb_spec (state m) MatchState.WAITING) as [Hw | Hw].
  { eexists _, _. split; [reflexivity |]. simpl.
    exists [EvSleep 2000; EvGetMatch matchId (Resolved m)].
    split; [reflexivity |]. simpl. now rewrite orb_false_r. }
  destruct (Z.eqb_spec (state m) MatchState.COMPLETE) as [Hc | Hc].
  { unfold bind.
    destruct (finalizeComplete_cases self matchId isPlayer1 (claimedTimeout st) m w0)
      as (res & w1 & fin & Hq & Ht & _ & Hout & Hhist).
    rewrite Hq. eexists _, _. split; [reflexivity |]. simpl.
    exists m, fin. split; [exact Ht |]. left. auto. }
  destruct (Z.eqb_spec (state m) MatchState.CANCELLED) as [Hx | Hx].
  { eexists _, _. split; [reflexivity |]. simpl.
    exists m, []. split; [reflexivity |]. right. eauto. }
  unfold bind at 1. unfold getRound, env_call. simpl.
  destruct (rpc_getRound E x matchId (currentRound m)) as [x1 [rd | e]]; simpl.
  2:{ eexists _, _. split; [reflexivity | exact I]. }
  set (w1 := mkWorld x1 (secrets w) _).
  assert (Hlift : ∀ out w',
             match out with
             | Ok (inl st') =>
                 ∃ new, trace w' = new ++ trace w1
                        ∧ claimedTimeout st' = claimedTimeout st || claimed_in new
             | Ok (inr _) => False
             | _ => True
             end → pass_post self matchId isPlayer1 st w out w').
  { intros out w' H. destruct out as [[st' | res] | e |]; simpl; auto; [| contradiction].
    destruct H as (new & Ht & Hcl).
    exists (new ++ [EvGetRound matchId (currentRound m) (Resolved rd);
                    EvGetMatch matchId (Resolved m)]).
    split; [rewrite Ht, <- List.app_assoc; reflexivity |].
    rewrite claimed_in_app. simpl. now rewrite orb_false_r. }
  destruct (phase rd =? RoundPhase.COMMIT)%Z.
  { destruct (commitPhase_cases fuel matchId isPlayer1 st rd w1) as (out & w' & Hq & H).
    rewrite Hq. eauto. }
  destruct (phase rd =? RoundPhase.REVEAL)%Z.
  { destruct (revealPhase_cases matchId isPlayer1 st m rd w1) as (out & w' & Hq & H).
    rewrite Hq. eauto. }
  eexists _, _. split; [reflexivity |]. apply Hlift. simpl.
  exists [EvSleep 2000]. split; [reflexivity |]. simpl. now rewrite orb_false_r.
Qed.

Lemma playMatch_loop_returns fuel matchId isPlayer1 st (w : World E) res w' :
  playMatch_loop self fuel matchId isPlayer1 st w = (Ok res, w') →
  ∃ m fin before,
    trace w' = fin ++ EvGetMatch matchId (Resolved m) :: before ++ trace w
    ∧ final_outcome self matchId isPlayer1
                    (claimedTimeout st || claimed_in before) m fin res.
Proof.
  revert st w. induction fuel as [| fuel IH]; intros st w; cbn [playMatch_loop].
  - discriminate.
  - unfold bind.
    destruct (playMatch_pass_cases fuel matchId isPlayer1 st w) as (out & w1 & Hq & Hp).
    rewrite Hq. destruct out as [[st' | r] | e |]; simpl in Hp; try discriminate.
    + intros Hloop. destruct Hp as (new & Ht & Hcl).
      destruct (IH _ _ Hloop) as (m & fin & before & Ht' & Hfin).
      exists m, fin, (before ++ new).
      split; [rewrite Ht', Ht, <- List.app_assoc; reflexivity |].
      rewrite claimed_in_app, (orb_comm (claimed_in before)), orb_assoc, <- Hcl.
      exact Hfin.
    + intros [= <- <-]. destruct Hp as (m & fin & Ht & Hfin).
      exists m, fin, []. simpl. rewrite orb_false_r. auto.
Qed.

(** Every result of [playMatch]: the last thing it read of the match is a
    COMPLETE or CANCELLED snapshot [m]; after it come only the re-reads
    [fin] of the rounds; and the result is the one for [m], with the
    timeout flag saying whether a [claimTimeout] of this run was
    confirmed before ([before]). *)
Lemma playMatch_returns fuel matchId isPlayer1 (w : World E) res w' :
  playMatch self fuel matchId isPlayer1 w = (Ok res, w') →
  ∃ m fin before,
    trace w' = fin ++ EvGetMatch matchId (Resolved m) :: before ++ trace w
    ∧ final_outcome self matchId isPlayer1 (claimed_in before) m fin res.
Proof.
  unfold playMatch.
  match goal with
  | |- context [bind ?c ?k w] =>
      destruct (bind_quiet c k w) as (out1 & w1 & new1 & Ht1 & Hc1 & Hq)
  end.
  { quiet_steps. }
  rewrite Hq. clear Hq. destruct out1 as [start | e |]; try discriminate.
  match goal with
  | |- context [bind ?c ?k w1] =>
      destruct (bind_quiet c k w1) as (out2 & w2 & new2 & Ht2 & Hc2 & Hq)
  end.
  { apply quiet_waitActive. }
  rewrite Hq. clear Hq. destruct out2 as [[] | e |]; try discriminate.
  intros Hloop. apply playMatch_loop_returns in Hloop as (m & fin & before & Ht & Hfin).
  exists m, fin, (before ++ new2 ++ new1).
  split; [rewrite Ht, Ht2, Ht1, <- !List.app_assoc; reflexivity |].
  rewrite !claimed_in_app, Hc1, Hc2, !orb_false_r. exact Hfin.
Qed.

Lemma final_outcome_reads matchId isPlayer1 claimed m fin res :
  final_outcome self matchId isPlayer1 claimed m fin res →
  only_round_reads matchId fin
  ∧ (state m = MatchState.COMPLETE ∨ state m = MatchState.CANCELLED).
Proof.
  intros [(Hc & _ & Hall & _) | (Hx & -> & _)].
  - split; [| left; exact Hc].
    eapply List.Forall_impl; [| exact Hall].
    intros ev (k & rep & -> & _). eauto.
  - split; [constructor | right; exact Hx].
Qed.

(** C1. Whenever [playMatch] returns for a match it last read as
    COMPLETE, the win decision of the result is
    [claimedTimeout || myWins > oppWins], where [claimedTimeout] holds
    exactly when a [claimTimeout] of this run was confirmed: a confirmed
    claim gives "won" whatever the score (0-0 included), and without one
    "won" holds if and only if the local win count is strictly above the
    opponent's. *)
Theorem playMatch_win_decision (fuel : nat) (matchId : Z) (isPlayer1 : bool)
        (w : World E) (res : MatchResult) (w' : World E) :
  playMatch self fuel matchId isPlayer1 w = (Ok res, w') →
  ∃ m fin before,
    trace w' = fin ++ EvGetMatch matchId (Resolved m) :: before ++ trace w
    ∧ only_round_reads matchId fin
    ∧ (state m = MatchState.COMPLETE →
       let myWins := if isPlayer1 then winsP1 m else winsP2 m in
       let oppWins := if isPlayer1 then winsP2 m else winsP1 m in
       mr_won res = claimed_in before || (myWins >? oppWins)%Z
       ∧ (claimed_in before = true → mr_won res = true)
       ∧ (claimed_in before = false → (mr_won res = true ↔ (oppWins < myWins)%Z))
       ∧ mr_score_player res = myWins
       ∧ mr_score_opponent res = oppWins).
Proof.
  intros Hrun.
  destruct (playMatch_returns _ _ _ _ _ _ Hrun) as (m & fin & before & Ht & Hfin).
  exists m, fin, before. split; [exact Ht |].
  split; [exact (proj1 (final_outcome_reads _ _ _ _ _ _ Hfin)) |].
  destruct Hfin as [(Hc & (Hwon & Hp & Ho) & Hhist) | (Hx & -> & _)].
  - intros _. cbv zeta. rewrite Hwon.
    repeat split; auto.
    + intros ->. reflexivity.
    + rewrite H. simpl. intros Hgt. apply Z.gtb_lt in Hgt. exact Hgt.
    + rewrite H. simpl. intros Hlt. apply Z.gtb_lt. exact Hlt.
  - intros Hc. rewrite Hc in Hx. discriminate.
Qed.

(** C7. Whenever [playMatch] returns for a match it last read as
    COMPLETE with round counter N, it has re-read every round 1..N (and
    nothing else) after that read, and the history of the result holds,
    in ascending order, exactly the rounds whose re-read shows both
    choices revealed, each entry built from that re-read. So when round
    N itself does not show both choices, the history is shorter than N. *)
Theorem playMatch_round_history (fuel : nat) (matchId : Z) (isPlayer1 : bool)
        (w : World E) (res : MatchResult) (w' : World E) :
  playMatch self fuel matchId isPlayer1 w = (Ok res, w') →
  ∃ m fin before,
    trace w' = fin ++ EvGetMatch matchId (Resolved m) :: before ++ trace w
    ∧ only_round_reads matchId fin
    ∧ (state m = MatchState.COMPLETE →
       let N := currentRound m in
       history_of self matchId isPlayer1 N fin (mr_rounds res)
       ∧ StronglySorted Z.lt (List.map rr_round (mr_rounds res))
       ∧ (∀ k, In k (List.map rr_round (mr_rounds res))
               ↔ (1 <= k <= N)%Z ∧ round_shown matchId fin k = true)
       ∧ ((1 <= N)%Z → round_shown matchId fin N = false →
          (Z.of_nat (List.length (mr_rounds res)) < N)%Z)).
Proof.
  intros Hrun.
  destruct (playMatch_returns _ _ _ _ _ _ Hrun) as (m & fin & before & Ht & Hfin).
  exists m, fin, before. split; [exact Ht |].
  split; [exact (proj1 (final_outcome_reads _ _ _ _ _ _ Hfin)) |].
  intros Hc. cbv zeta.
  destruct Hfin as [(_ & _ & Hhist) | (Hx & _)]; [| rewrite Hc in Hx; discriminate].
  split; [exact Hhist |].
  destruct Hhist as (_ & _ & Hmap & _). rewrite Hmap.
  split; [apply filter_sorted, Zseq_sorted |].
  split.
  - intros k. rewrite List.filter_In, in_Zseq.
    split; intros [H1 H2]; (split; [lia | exact H2]).
  - intros HN Hlast.
    rewrite <- (List.length_map rr_round), Hmap.
    pose proof (length_Zseq 1 (Z.to_nat (currentRound m))) as Hlen.
    assert (Hin : In (currentRound m) (Zseq 1 (Z.to_nat (currentRound m)))).
    { apply in_Zseq. lia. }
    pose proof (filter_length_lt (round_shown matchId fin) _ _ Hin Hlast) as Hlt.
    rewrite Hlen in Hlt. lia.
Qed.

(** The COMPLETE branch always returns: the re-reads of the rounds cannot
    make [playMatch] throw. *)
Lemma playMatch_complete_returns (fuel : nat) (matchId : Z) (isPlayer1 : bool)
      (st : LoopState) (w : World E) (m : MatchData) :
  (rpc_getMatch E (ext w) matchId).2 = Resolved m →
  state m = MatchState.COMPLETE →
  ∃ res w' fin,
    playMatch_loop self (S fuel) matchId isPlayer1 st w = (Ok res, w')
    ∧ trace w' = fin ++ EvGetMatch matchId (Resolved m) :: trace w
    ∧ secrets w' = secrets w
    ∧ complete_outcome isPlayer1 (claimedTimeout st) m res
    ∧ history_of self matchId isPlayer1 (currentRound m) fin (mr_rounds res).
Proof.
  intros Hm Hc. cbn [playMatch_loop]. unfold bind at 1. unfold playMatch_pass.
  unfold bind at 1. unfold getMatch, env_call.
  destruct (rpc_getMatch E (ext w) matchId) as [x r]. simpl in Hm. subst r.
  simpl. rewrite Hc. simpl. unfold bind.
  match goal with
  | |- context [finalizeComplete _ _ _ ?ct _ ?w0] =>
      destruct (finalizeComplete_cases self matchId isPlayer1 ct m w0)
        as (res & w1 & fin & Hq & Ht & Hs & Hout & Hhist)
  end.
  rewrite Hq. simpl. exists res, w1, fin. auto.
Qed.

(** On [uint8] choices, "both choices > 0" is "both choices are not None". *)
Lemma both_revealed_not_none (rd : RoundData) :
  uint8 (choiceP1 rd) → uint8 (choiceP2 rd) →
  both_revealed rd = revealed (choiceP1 rd) && revealed (choiceP2 rd).
Proof.
  intros H1 H2. unfold both_revealed.
  now rewrite (revealed_gt0 _ H1), (revealed_gt0 _ H2).
Qed.

(** C9 (as the code has it). When the main loop of [playMatch] reads the
    match as CANCELLED it returns at once, without throwing and without
    any further call: won is false, the score is 0-0, the prize text is
    "0.00 USDC (refunded)", the opponent address is "N/A", and the
    rounds are those collected so far. *)
Theorem playMatch_cancelled (fuel : nat) (matchId : Z) (isPlayer1 : bool)
        (st : LoopState) (w : World E) (m : MatchData) :
  (rpc_getMatch E (ext w) matchId).2 = Resolved m →
  state m = MatchState.CANCELLED →
  ∃ res w',
    playMatch_loop self (S fuel) matchId isPlayer1 st w = (Ok res, w')
    ∧ trace w' = EvGetMatch matchId (Resolved m) :: trace w
    ∧ secrets w' = secrets w
    ∧ mr_won res = false
    ∧ mr_score_player res = 0%Z ∧ mr_score_opponent res = 0%Z
    ∧ mr_prize res = "0.00 USDC (refunded)"
    ∧ mr_opponentAddress res = "N/A"
    ∧ mr_rounds res = roundResults st.
Proof.
  intros Hm Hx. cbn [playMatch_loop]. unfold bind at 1. unfold playMatch_pass.
  unfold bind at 1. unfold getMatch, env_call.
  destruct (rpc_getMatch E (ext w) matchId) as [x r]. simpl in Hm. subst r.
  simpl. rewrite Hx. simpl. eexists _, _. repeat split; reflexivity.
Qed.
End DriverTheorems.

(** ** Concrete runs *)

Lemma outcome_eta {E : Env} {A : Type} (run : Outcome A * World E) (a : A) :
  run.1 = Ok a → run = (Ok a, run.2).
Proof. destruct run as [out w]. simpl. intros ->. reflexivity. Qed.

Lemma commit_never_overwrites_witness :
  secrets firstCommit.2 !! "8453-7-1" = Some firstSecret
  ∧ secrets (commit demoAgent 7 CPaper firstCommit.2).2 !! "8453-7-1" = Some firstSecret.
Proof.
  assert (H : secrets firstCommit.2 !! "8453-7-1" = Some firstSecret)
    by (vm_compute; reflexivity).
  split; [exact H |].
  exact (proj1 (commit_never_overwrites demoAgent 7 CPaper firstCommit.2
                  "8453-7-1" firstSecret H)).
Defined.

Lemma reveal_without_secret_fails_witness :
  (reveal demoAgent 7 (startWorld (timeoutScript 2000 12 MatchState.COMPLETE) ∅)).1
  = Throw "No stored secret for match 7 round 1"
  ∧ trace (reveal demoAgent 7 (startWorld (timeoutScript 2000 12 MatchState.COMPLETE) ∅)).2
    = [EvGetMatch 7 (Resolved (demoMatch MatchState.ACTIVE 0 0 1))].
Proof.
  destruct (reveal_without_secret_fails demoAgent 7
              (startWorld (timeoutScript 2000 12 MatchState.COMPLETE) ∅)
              (demoMatch MatchState.ACTIVE 0 0 1))
    as (H1 & H2 & _).
  - reflexivity.
  - vm_compute. reflexivity.
  - split; [exact H1 | exact H2].
Defined.

Lemma demoStore_wf (k : string) (s : StoredSecret) :
  demoStore !! k = Some s → wf_secret s.
Proof.
  unfold demoStore. intros H. apply lookup_singleton_Some in H as [_ <-].
  exists x01, (List.repeat x11 32). repeat split; reflexivity.
Qed.

Lemma commit_hash_is_keccak_of_packing_witness :
  ∃ bs r,
    List.length bs = 32%nat
    ∧ In (EvWrite (CallCommit 9 ("keccak256(0x" +:+ bytesToHex (x02 :: bs) +:+ ")"))
                  150000 r)
         (trace (commit demoAgent 9 CPaper
                   (startWorld (timeoutScript 2000 12 MatchState.COMPLETE) demoStore)).2).
Proof.
  destruct (commit_hash_is_keccak_of_packing demoAgent 9 CPaper
              (startWorld (timeoutScript 2000 12 MatchState.COMPLETE) demoStore)
              demoStore_wf) as [_ H].
  apply (H (demoMatch MatchState.ACTIVE 0 0 1)).
  - reflexivity.
  - vm_compute. reflexivity.
Defined.

Lemma playMatch_win_decision_witness :
  timeoutRun.1 = Ok (resultOf timeoutRun)
  ∧ mr_won (resultOf timeoutRun) = true
  ∧ mr_score_player (resultOf timeoutRun) = 0%Z
  ∧ mr_score_opponent (resultOf timeoutRun) = 0%Z
  ∧ ∃ m fin before,
      trace timeoutRun.2 = fin ++ EvGetMatch 7 (Resolved m) :: before ++ []
      ∧ only_round_reads 7 fin
      ∧ (state m = MatchState.COMPLETE →
         mr_won (resultOf timeoutRun) = claimed_in before || (winsP1 m >? winsP2 m)%Z
         ∧ (claimed_in before = true → mr_won (resultOf timeoutRun) = true)
         ∧ (claimed_in before = false →
            (mr_won (resultOf timeoutRun) = true ↔ (winsP2 m < winsP1 m)%Z))
         ∧ mr_score_player (resultOf timeoutRun) = winsP1 m
         ∧ mr_score_opponent (resultOf timeoutRun) = winsP2 m).
Proof.
  assert (H1 : timeoutRun.1 = Ok (resultOf timeoutRun)) by (vm_compute; reflexivity).
  assert (Hrun : playMatch demoAgent 5 7 true
                   (startWorld (timeoutScript 2000 12 MatchState.COMPLETE) ∅)
                 = (Ok (resultOf timeoutRun), timeoutRun.2))
    by (apply outcome_eta; exact H1).
  split; [exact H1 |].
  split; [vm_compute; reflexivity |].
  split; [vm_compute; reflexivity |].
  split; [vm_compute; reflexivity |].
  exact (playMatch_win_decision demoAgent 5 7 true
           (startWorld (timeoutScript 2000 12 MatchState.COMPLETE) ∅)
           (resultOf timeoutRun) timeoutRun.2 Hrun).
Defined.

Lemma playMatch_round_history_witness :
  forfeitRun.1 = Ok (resultOf forfeitRun)
  ∧ List.map rr_round (mr_rounds (resultOf forfeitRun)) = [1; 2]%Z
  ∧ ∃ m fin before,
      trace forfeitRun.2 = fin ++ EvGetMatch 7 (Resolved m) :: before ++ []
      ∧ only_round_reads 7 fin
      ∧ (state m = MatchState.COMPLETE →
         history_of demoAgent 7 true (currentRound m) fin (mr_rounds (resultOf forfeitRun))
         ∧ StronglySorted Z.lt (List.map rr_round (mr_rounds (resultOf forfeitRun)))
         ∧ (∀ k, In k (List.map rr_round (mr_rounds (resultOf forfeitRun)))
                 ↔ (1 <= k <= currentRound m)%Z ∧ round_shown 7 fin k = true)
         ∧ ((1 <= currentRound m)%Z → round_shown 7 fin (currentRound m) = false →
            (Z.of_nat (List.length (mr_rounds (resultOf forfeitRun))) < currentRound m)%Z)).
Proof.
  assert (H1 : forfeitRun.1 = Ok (resultOf forfeitRun)) by (vm_compute; reflexivity).
  assert (Hrun : playMatch demoAgent 5 7 true (startWorld forfeitScript ∅)
                 = (Ok (resultOf forfeitRun), forfeitRun.2))
    by (apply outcome_eta; exact H1).
  split; [exact H1 |].
  split; [vm_compute; reflexivity |].
  exact (playMatch_round_history demoAgent 5 7 true (startWorld forfeitScript ∅)
           (resultOf forfeitRun) forfeitRun.2 Hrun).
Defined.

Lemma playMatch_cancelled_witness :
  ∃ res w',
    playMatch_loop demoAgent 1 7 false (mkLoop [] false) (startWorld cancelledScript ∅)
    = (Ok res, w')
    ∧ trace w' = [EvGetMatch 7 (Resolved (demoMatch MatchState.CANCELLED 0 0 0))]
    ∧ mr_won res = false
    ∧ mr_score_player res = 0%Z ∧ mr_score_opponent res = 0%Z
    ∧ mr_prize res = "0.00 USDC (refunded)".
Proof.
  destruct (playMatch_cancelled demoAgent 0 7 false (mkLoop [] false)
              (startWorld cancelledScript ∅) (demoMatch MatchState.CANCELLED 0 0 0))
    as (res & w' & Hrun & Ht & _ & Hw & Hp & Ho & Hz & _).
  - reflexivity.
  - reflexivity.
  - exists res, w'. repeat split; assumption.
Defined.

(** C9 as stated fails on the prize: for the cancelled match the prize of
    the result is the text "0.00 USDC (refunded)", not "0.00". *)
Lemma playMatch_cancelled_prize_is_not_bare_zero :
  cancelledRun.1 = Ok (resultOf cancelledRun)
  ∧ mr_won (resultOf cancelledRun) = false
  ∧ mr_score_player (resultOf cancelledRun) = 0%Z
  ∧ mr_score_opponent (resultOf cancelledRun) = 0%Z
  ∧ mr_prize (resultOf cancelledRun) = "0.00 USDC (refunded)"
  ∧ mr_prize (resultOf cancelledRun) ≠ "0.00".
Proof.
  repeat split; try (vm_compute; reflexivity).
  vm_compute. discriminate.
Qed.

(** C2 as stated fails on the grace window: with the deadline at 1000 and
    the latest block stamped 1001, [waitForPhase] submits the claim and
    returns [timeout_claimed], although the time is not past the deadline
    by even one second of margin. *)
Lemma waitForPhase_claims_inside_grace_window :
  graceRun.1 = Ok TimeoutClaimed
  ∧ In (EvWrite (CallClaimTimeout 7) 500000 (Resolved "0xfeed")) (trace graceRun.2)
  ∧ In (EvGetBlock (Resolved 1001%Z)) (trace graceRun.2)
  ∧ ¬ claims_obey 7 (deadline_passed_with_grace 1 true) (trace graceRun.2).
Proof.
  split; [vm_compute; reflexivity |].
  split; [vm_compute; tauto |].
  split; [vm_compute; tauto |].
  intros H. vm_compute in H.
  destruct H as (_ & (_ & (Hlt & _)) & _). discriminate Hlt.
Qed.

(** * Further properties *)

(** ** The resolver *)

(** X1. Apart from the case where both win counts reached the threshold
    (player 1 is then named), [determineMatchWinner] does not depend on
    which side is labelled player 1: exchanging the two sides in the match
    and in the last round gives the same winner. *)
Theorem determineMatchWinner_symmetric (m : MatchData) (lr : option LastRound) :
  ¬ (WINS_REQUIRED <= winsP1 m ∧ WINS_REQUIRED <= winsP2 m)%Z →
  determineMatchWinner (swapMatch m) (swapLastRound <$> lr) = determineMatchWinner m lr.
Proof.
  intros Hboth. unfold determineMatchWinner, swapMatch. simpl.
  destruct (negb (state m =? MatchState.COMPLETE)%Z); [reflexivity |].
  rewrite !Z.geb_leb.
  destruct (Z.leb_spec WINS_REQUIRED (winsP1 m)) as [H1 | H1];
    destruct (Z.leb_spec WINS_REQUIRED (winsP2 m)) as [H2 | H2];
    try reflexivity; [exfalso; apply Hboth; split; assumption |].
  assert (Hfall :
            (if (winsP2 m >? winsP1 m)%Z then Some (player2 m)
             else if (winsP1 m >? winsP2 m)%Z then Some (player1 m) else None)
            = (if (winsP1 m >? winsP2 m)%Z then Some (player1 m)
               else if (winsP2 m >? winsP1 m)%Z then Some (player2 m) else None)).
  { destruct (Z.gtb_spec (winsP1 m) (winsP2 m)), (Z.gtb_spec (winsP2 m) (winsP1 m));
      try reflexivity; lia. }
  destruct lr as [r |]; simpl; [| exact Hfall].
  unfold forfeit_from_last_round, swapLastRound. simpl.
  destruct (str_neq (lr_commitP1 r) ZERO_BYTES32), (str_neq (lr_commitP2 r) ZERO_BYTES32);
    simpl; try reflexivity; try exact Hfall.
  destruct (lr_choiceP1 r >? 0)%Z, (lr_choiceP2 r >? 0)%Z; simpl;
    try reflexivity; exact Hfall.
Qed.

Lemma determineMatchWinner_symmetric_witness :
  determineMatchWinner (swapMatch (demoMatch MatchState.COMPLETE 1 1 3))
    (swapLastRound <$> Some (mkLastRound demoCommit demoCommit 0 2))
  = Some demoOpponent.
Proof.
  rewrite determineMatchWinner_symmetric.
  - reflexivity.
  - unfold WINS_REQUIRED. simpl. lia.
Defined.

(** ** The secret store across calls *)

Section StoreCompositions.
Context {E : Env}.
Variable self : Agent.

Lemma send_run c gas what (w : World E) :
  ∃ out w', send c gas what w = (out, w') ∧ secrets w' = secrets w
            ∧ send_shape c gas out (trace w) (trace w').
Proof.
  destruct (send_cases c gas what w) as (out & w' & Hq & Hs & Ht).
  exists out, w'. split; [exact Hq |]. split; [exact Hs | exact Ht].
Qed.

Lemma commit_run (matchId : Z) (choice : ChoiceType) (w : World E) :
  commit_outline self matchId choice w (commit self matchId choice w).
Proof.
  unfold commit_outline, commit, bind, getMatch, env_call, secrets_get.
  destruct (rpc_getMatch E (ext w) matchId) as [x [m | e]]; simpl; [| auto].
  set (key := secretKey (chainId self) matchId (currentRound m)).
  destruct (secrets w !! key) as [old |] eqn:Hold; simpl.
  - destruct (encodePacked_uint8_bytes32 (ss_choice old) (ss_secret old))
      as [packed | e] eqn:Hpack; simpl; [| auto].
    match goal with
    | |- context [send ?c ?g ?t ?w0] =>
        destruct (send_run c g t w0) as (out & w1 & Hq & Hs & Ht); rewrite Hq
    end.
    simpl in *. auto.
  - match goal with
    | |- context [randomBytes ?n ?w0] =>
        destruct (randomBytes_cases n w0) as (bs & wr & Hq & Hlen & Hsr & Htr);
        rewrite Hq; clear Hq
    end.
    simpl in Hsr, Htr. simpl. exists bs. split; [exact Hlen |].
    rewrite (choice_code_byte choice).
    rewrite (encodePacked_bytes (choice_byte choice) bs Hlen). simpl.
    split; [reflexivity |].
    match goal with
    | |- context [send ?c ?g ?t ?w0] =>
        destruct (send_run c g t w0) as (out & w1 & Hq & Hs & Ht); rewrite Hq
    end.
    simpl in *. rewrite Hsr in *. rewrite Htr in *. auto.
Qed.

Lemma reveal_run (matchId : Z) (w : World E) :
  reveal_outline self matchId w (reveal self matchId w).
Proof.
  unfold reveal_outline, reveal, bind, getMatch, env_call, secrets_get.
  destruct (rpc_getMatch E (ext w) matchId) as [x [m | e]]; simpl; [| auto].
  set (key := secretKey (chainId self) matchId (currentRound m)).
  destruct (secrets w !! key) as [st |] eqn:Hst; simpl; [| auto].
  match goal with
  | |- context [send ?c ?g ?t ?w0] =>
      destruct (send_run c g t w0) as (out & w1 & Hq & Hs & Ht); rewrite Hq
  end.
  simpl in *.
  destruct Ht as [(h & -> & Ht) | (e & -> & Ht)]; simpl.
  - left. exists h. rewrite Hs, Ht. auto.
  - right. exists e. split; [reflexivity |]. split; [exact Hs |].
    right. exists e. split; [reflexivity | exact Ht].
Qed.

(** X2. Commit then reveal is a round trip. When [commit] resolves, the
    store holds under the key of the round a secret whose packed encoding
    hashes to the commitment of the confirmed transaction; and a [reveal]
    that finds this store and the same round submits exactly one
    transaction: [reveal(matchId, choice, blinding)] with the choice and
    the blinding value of that secret. *)
Theorem commit_then_reveal_opens_commitment (matchId : Z) (choice : ChoiceType)
        (w w1 : World E) (h : string) :
  commit self matchId choice w = (Ok h, w1) →
  ∃ m s packed,
    (rpc_getMatch E (ext w) matchId).2 = Resolved m
    ∧ secrets w1 !! secretKey (chainId self) matchId (currentRound m) = Some s
    ∧ encodePacked_uint8_bytes32 (ss_choice s) (ss_secret s) = Resolved packed
    ∧ (∃ older,
          trace w1 = EvReceipt (CallCommit matchId (keccak256 E packed)) h
                               (Resolved "success")
                       :: EvWrite (CallCommit matchId (keccak256 E packed)) 150000
                                  (Resolved h)
                       :: older)
    ∧ ∀ (w2 : World E) (m2 : MatchData),
        secrets w2 = secrets w1 →
        (rpc_getMatch E (ext w2) matchId).2 = Resolved m2 →
        currentRound m2 = currentRound m →
        ∃ pre r,
          trace (reveal self matchId w2).2
          = pre ++ EvWrite (CallReveal matchId (ss_choice s) (ss_secret s)) 500000 r
                :: EvGetMatch matchId (Resolved m2) :: trace w2
          ∧ no_writes pre.
Proof.
  intros Hrun. pose proof (commit_run matchId choice w) as Hc.
  rewrite Hrun in Hc. unfold commit_outline in Hc. simpl in Hc.
  destruct ((rpc_getMatch E (ext w) matchId).2) as [m | e]; [| destruct Hc as [[=] _]].
  set (key := secretKey (chainId self) matchId (currentRound m)) in *.
  assert (Hgoal : ∃ s packed,
             secrets w1 !! key = Some s
             ∧ encodePacked_uint8_bytes32 (ss_choice s) (ss_secret s) = Resolved packed
             ∧ send_shape (CallCommit matchId (keccak256 E packed)) 150000 (Ok h)
                          (match secrets w !! key with
                           | Some _ => EvGetMatch matchId (Resolved m) :: trace w
                           | None => EvSave (secrets w1) :: EvRandom
                                       :: EvGetMatch matchId (Resolved m) :: trace w
                           end) (trace w1)).
  { destruct (secrets w !! key) as [old |] eqn:Hold.
    - destruct Hc as [Hs Hc].
      destruct (encodePacked_uint8_bytes32 (ss_choice old) (ss_secret old))
        as [packed | e] eqn:Hpack; [| destruct Hc as [[=] _]].
      exists old, packed. rewrite Hs. auto.
    - destruct Hc as (bs & Hlen & Hpack & Hs & Hc).
      eexists _, _. split; [rewrite Hs; apply lookup_insert_eq |].
      split; [exact Hpack |]. rewrite Hs. exact Hc. }
  destruct Hgoal as (s & packed & Hs1 & Hpack & Hshape).
  exists m, s, packed. split; [reflexivity |]. split; [exact Hs1 |].
  split; [exact Hpack |]. split.
  { destruct Hshape as [(h' & [= <-] & Ht) | (e & [=] & _)]. eexists. exact Ht. }
  intros w2 m2 Hsec Hm2 Hround.
  pose proof (reveal_run matchId w2) as Hr. unfold reveal_outline in Hr.
  rewrite Hm2 in Hr. simpl in Hr. rewrite Hround, Hsec in Hr. fold key in Hr.
  rewrite Hs1 in Hr.
  destruct Hr as [(h2 & _ & _ & Ht) | (e & _ & _ & Ht)].
  - rewrite Ht. eexists [_; _], _. split; [reflexivity |].
    repeat constructor; discriminate.
  - destruct Ht as [(h2 & [=] & _) | (e' & _ & [(r & Ht) | (h2 & rr & _ & Ht)])];
      rewrite Ht.
    + exists [], (Rejected r). split; [reflexivity | constructor].
    + eexists [_], _. split; [reflexivity |]. repeat constructor; discriminate.
Qed.

(** X3. A confirmed reveal cannot be repeated. After [reveal] resolved,
    a second [reveal] that finds the store it left and the same round
    throws "No stored secret" right after its read of the match: it
    submits nothing. *)
Theorem reveal_is_not_repeatable (matchId : Z) (w w1 : World E) (h : string)
        (m : MatchData) :
  reveal self matchId w = (Ok h, w1) →
  (rpc_getMatch E (ext w) matchId).2 = Resolved m →
  ∀ (w2 : World E) (m2 : MatchData),
    secrets w2 = secrets w1 →
    (rpc_getMatch E (ext w2) matchId).2 = Resolved m2 →
    currentRound m2 = currentRound m →
    (reveal self matchId w2).1
    = Throw ("No stored secret for match " +:+ pretty matchId +:+
             " round " +:+ pretty (currentRound m))
    ∧ trace (reveal self matchId w2).2 = EvGetMatch matchId (Resolved m2) :: trace w2
    ∧ secrets (reveal self matchId w2).2 = secrets w1.
Proof.
  intros Hrun Hm w2 m2 Hsec Hm2 Hround.
  pose proof (reveal_run matchId w) as Hr. rewrite Hrun in Hr.
  unfold reveal_outline in Hr. rewrite Hm in Hr. simpl in Hr.
  set (key := secretKey (chainId self) matchId (currentRound m)) in *.
  assert (Hgone : secrets w1 !! key = None).
  { destruct (secrets w !! key) as [st |]; [| destruct Hr as [[=] _]].
    destruct Hr as [(h' & _ & Hs & _) | (e & [=] & _)].
    rewrite Hs. apply lookup_delete_eq. }
  pose proof (reveal_run matchId w2) as Hr2. unfold reveal_outline in Hr2.
  rewrite Hm2 in Hr2. simpl in Hr2. rewrite Hround, Hsec in Hr2. fold key in Hr2.
  rewrite Hgone in Hr2. destruct Hr2 as (Ho & Hs2 & Ht2).
  split; [exact Ho |]. split; [exact Ht2 | exact Hs2].
Qed.


(** X5. Retrying a commit resubmits the same commitment. After a
    [commit] on a fresh key (whether its transaction went through or
    not), any later [commit] that finds the store it left and the same
    round (with whatever choice) draws no new secret, leaves the store
    alone and submits the commitment the first call submitted. *)
Theorem commit_retry_resubmits_same_commitment (matchId : Z) (choice : ChoiceType)
        (w : World E) (m : MatchData) :
  (rpc_getMatch E (ext w) matchId).2 = Resolved m →
  secrets w !! secretKey (chainId self) matchId (currentRound m) = None →
  ∃ commitment,
    (∃ pre r older,
        trace (commit self matchId choice w).2
        = pre ++ EvWrite (CallCommit matchId commitment) 150000 r :: older
        ∧ no_writes pre)
    ∧ ∀ (choice2 : ChoiceType) (w2 : World E) (m2 : MatchData),
        secrets w2 = secrets (commit self matchId choice w).2 →
        (rpc_getMatch E (ext w2) matchId).2 = Resolved m2 →
        currentRound m2 = currentRound m →
        secrets (commit self matchId choice2 w2).2 = secrets w2
        ∧ send_shape (CallCommit matchId commitment) 150000
                     (commit self matchId choice2 w2).1
                     (EvGetMatch matchId (Resolved m2) :: trace w2)
                     (trace (commit self matchId choice2 w2).2).
Proof.
  intros Hm Hnone. pose proof (commit_run matchId choice w) as Hc.
  unfold commit_outline in Hc. rewrite Hm in Hc. simpl in Hc. rewrite Hnone in Hc.
  destruct Hc as (bs & Hlen & Hpack & Hs & Ht).
  eexists. split.
  - destruct Ht as [(h & _ & Ht) | (e & _ & [(r & Ht) | (h & rr & _ & Ht)])];
      rewrite Ht.
    + eexists [_], _, _. split; [reflexivity |]. repeat constructor; discriminate.
    + exists [], (Rejected r). eexists. split; [reflexivity | constructor].
    + eexists [_], _, _. split; [reflexivity |]. repeat constructor; discriminate.
  - intros choice2 w2 m2 Hsec Hm2 Hround.
    pose proof (commit_run matchId choice2 w2) as Hc2.
    unfold commit_outline in Hc2. rewrite Hm2 in Hc2. simpl in Hc2.
    rewrite Hround, Hsec, Hs, lookup_insert_eq in Hc2.
    cbn [ss_choice ss_secret] in Hc2, Hpack.
    rewrite Hpack in Hc2. destruct Hc2 as [Hs2 Ht2].
    split; [rewrite Hs2, Hsec, Hs; reflexivity | exact Ht2].
Qed.

(** X6. No change of the store is left unsaved. After [commit] and after
    [reveal], whatever their outcome, either the store is the one they
    found or the newest save in the trace holds the store they left. *)
Theorem store_changes_are_saved (matchId : Z) (choice : ChoiceType) (w : World E) :
  saved_last w (commit self matchId choice w).2
  ∧ saved_last w (reveal self matchId w).2.
Proof.
  split.
  - pose proof (commit_run matchId choice w) as Hc. unfold commit_outline in Hc.
    destruct ((rpc_getMatch E (ext w) matchId).2) as [m | e];
      [| left; apply Hc].
    simpl in Hc.
    destruct (secrets w !! secretKey (chainId self) matchId (currentRound m));
      [left; apply Hc |].
    destruct Hc as (bs & _ & _ & Hs & Ht). right. rewrite Hs.
    destruct Ht as [(h & _ & Ht) | (e & _ & [(r & Ht) | (h & rr & _ & Ht)])];
      rewrite Ht.
    + eexists [_; _], _. split; [reflexivity |]. repeat constructor; discriminate.
    + eexists [_], _. split; [reflexivity |]. repeat constructor; discriminate.
    + eexists [_; _], _. split; [reflexivity |]. repeat constructor; discriminate.
  - pose proof (reveal_run matchId w) as Hr. unfold reveal_outline in Hr.
    destruct ((rpc_getMatch E (ext w) matchId).2) as [m | e];
      [| left; apply Hr].
    simpl in Hr.
    destruct (secrets w !! secretKey (chainId self) matchId (currentRound m));
      [| left; apply Hr].
    destruct Hr as [(h & _ & Hs & Ht) | (e & _ & Hs & _)]; [| left; exact Hs].
    right. rewrite Hs, Ht. exists []. eexists. split; [reflexivity | constructor].
Qed.
End StoreCompositions.

(** *** Concrete runs of the store properties *)

Lemma firstCommit_resolves :
  commit demoAgent 7 CRock (startWorld (timeoutScript 2000 12 MatchState.COMPLETE) ∅)
  = (Ok "0xfeed", firstCommit.2).
Proof. apply (outcome_eta firstCommit). vm_compute. reflexivity. Qed.

Lemma firstReveal_resolves :
  reveal demoAgent 7 firstCommit.2 = (Ok "0xfeed", firstReveal.2).
Proof. apply (outcome_eta firstReveal). vm_compute. reflexivity. Qed.

Lemma commit_then_reveal_opens_commitment_witness :
  ∃ s packed pre r,
    secrets firstCommit.2 !! secretKey (chainId demoAgent) 7 1 = Some s
    ∧ encodePacked_uint8_bytes32 (ss_choice s) (ss_secret s) = Resolved packed
    ∧ (∃ older,
          trace firstCommit.2
          = EvReceipt (CallCommit 7 (keccak256 demoEnv packed)) "0xfeed" (Resolved "success")
              :: EvWrite (CallCommit 7 (keccak256 demoEnv packed)) 150000 (Resolved "0xfeed")
              :: older)
    ∧ trace firstReveal.2
      = pre ++ EvWrite (CallReveal 7 (ss_choice s) (ss_secret s)) 500000 r
            :: EvGetMatch 7 (Resolved (demoMatch MatchState.ACTIVE 0 0 1))
            :: trace firstCommit.2.
Proof.
  destruct (commit_then_reveal_opens_commitment demoAgent 7 CRock
              (startWorld (timeoutScript 2000 12 MatchState.COMPLETE) ∅)
              firstCommit.2 "0xfeed" firstCommit_resolves)
    as (m & s & packed & Hm & Hs & Hp & Hold & Hrev).
  simpl in Hm. injection Hm as <-.
  destruct (Hrev firstCommit.2 (demoMatch MatchState.ACTIVE 0 0 1))
    as (pre & r & Ht & _).
  - reflexivity.
  - vm_compute. reflexivity.
  - reflexivity.
  - exists s, packed, pre, r. split; [exact Hs |]. split; [exact Hp |].
    split; [exact Hold | exact Ht].
Defined.

Lemma reveal_is_not_repeatable_witness :
  (reveal demoAgent 7 firstReveal.2).1 = Throw "No stored secret for match 7 round 1"
  ∧ trace (reveal demoAgent 7 firstReveal.2).2
    = EvGetMatch 7 (Resolved (demoMatch MatchState.ACTIVE 0 0 1)) :: trace firstReveal.2.
Proof.
  destruct (reveal_is_not_repeatable demoAgent 7 firstCommit.2 firstReveal.2 "0xfeed"
              (demoMatch MatchState.ACTIVE 0 0 1))
    with (w2 := firstReveal.2) (m2 := demoMatch MatchState.ACTIVE 0 0 1)
    as (H1 & H2 & _).
  - exact firstReveal_resolves.
  - vm_compute. reflexivity.
  - reflexivity.
  - vm_compute. reflexivity.
  - reflexivity.
  - split; [exact H1 | exact H2].
Defined.

Lemma firstReveal_trace :
  trace (reveal demoAgent 7 firstCommit.2).2
  = ([EvSave (delete "8453-7-1" (secrets firstCommit.2));
      EvReceipt (CallReveal 7 Choice.Rock (ss_secret firstSecret)) "0xfeed"
                (Resolved "success");
      EvWrite (CallReveal 7 Choice.Rock (ss_secret firstSecret)) 500000
              (Resolved "0xfeed");
      EvGetMatch 7 (Resolved (demoMatch MatchState.ACTIVE 0 0 1))]
     ++ trace firstCommit.2)%list.
Proof. vm_compute. reflexivity. Qed.

Lemma reveal_deletes_only_on_success_witness :
  (∃ h, (reveal demoAgent 7 firstCommit.2).1 = Ok h)
  ∧ secrets firstCommit.2 !! "8453-7-1" = Some firstSecret
  ∧ secrets firstReveal.2 !! "8453-7-1" = None.
Proof.
  destruct (reveal_deletes_only_on_success demoAgent 7 firstCommit.2)
    as (new & Ht & Hiff & Hcase).
  rewrite firstReveal_trace in Ht. apply app_inv_tail in Ht. subst new.
  split.
  - apply Hiff. eexists _, _. right. left. reflexivity.
  - rewrite firstReveal_resolves in Hcase.
    destruct Hcase as (m & st & Hst & _ & Hgone & Htr).
    unfold firstReveal in Htr. rewrite firstReveal_trace in Htr.
    injection Htr as _ _ _ Hm. subst m. split; [| exact Hgone].
    vm_compute. reflexivity.
Defined.


Lemma commit_retry_resubmits_same_commitment_witness :
  ∃ commitment pre r older,
    trace firstCommit.2 = pre ++ EvWrite (CallCommit 7 commitment) 150000 r :: older
    ∧ send_shape (CallCommit 7 commitment) 150000
                 (commit demoAgent 7 CPaper firstCommit.2).1
                 (EvGetMatch 7 (Resolved (demoMatch MatchState.ACTIVE 0 0 1))
                    :: trace firstCommit.2)
                 (trace (commit demoAgent 7 CPaper firstCommit.2).2).
Proof.
  destruct (commit_retry_resubmits_same_commitment demoAgent 7 CRock
              (startWorld (timeoutScript 2000 12 MatchState.COMPLETE) ∅)
              (demoMatch MatchState.ACTIVE 0 0 1))
    as (commitment & (pre & r & older & Ht & _) & Hretry).
  - reflexivity.
  - apply lookup_empty.
  - destruct (Hretry CPaper firstCommit.2 (demoMatch MatchState.ACTIVE 0 0 1))
      as [_ Hshape].
    + reflexivity.
    + vm_compute. reflexivity.
    + reflexivity.
    + exists commitment, pre, r, older. split; [exact Ht | exact Hshape].
Defined.

(** ** Relations kept along a computation *)

Section Keeps.
Context {E : Env}.
Variable R : World E → World E → Prop.
Hypothesis R_refl : ∀ w, R w w.
Hypothesis R_trans : ∀ a b c, R a b → R b c → R a c.

Lemma keeps_ret {A} (a : A) : keeps R (ret a).
Proof. intros w. apply R_refl. Qed.

Lemma keeps_throw {A} (e : Exn) : keeps R (@throw E A e).
Proof. intros w. apply R_refl. Qed.

Lemma keeps_out_of_fuel {A} : keeps R (@out_of_fuel E A).
Proof. intros w. apply R_refl. Qed.

Lemma keeps_liftReply {A} (r : Reply A) : keeps R (@liftReply E A r).
Proof. destruct r; intros w; apply R_refl. Qed.

Lemma keeps_secrets_get key : keeps R (secrets_get key).
Proof. intros w. apply R_refl. Qed.

Lemma keeps_bind {A B} (c : M E A) (k : A → M E B) :
  keeps R c → (∀ a, keeps R (k a)) → keeps R (bind c k).
Proof.
  intros Hc Hk w. unfold bind. specialize (Hc w).
  destruct (c w) as [[a | e |] w1]; simpl in *; auto.
  eapply R_trans; [exact Hc | apply Hk].
Qed.

Lemma keeps_try_catch {A} (c : M E A) (h : Exn → M E A) :
  keeps R c → (∀ e, keeps R (h e)) → keeps R (try_catch c h).
Proof.
  intros Hc Hh w. unfold try_catch. specialize (Hc w).
  destruct (c w) as [[a | e |] w1]; simpl in *; auto.
  eapply R_trans; [exact Hc | apply Hh].
Qed.

Variable φ : Event → Prop.
Hypothesis R_frame : ∀ w w', step_ok φ w w' → R w w'.

Lemma keeps_env_call {A} (f : env_state E → env_state E * Reply A) ev :
  (∀ r, φ (ev r)) → keeps R (env_call f ev).
Proof.
  intros Hev w. apply R_frame. split.
  - unfold env_call. destruct (f (ext w)) as [x [a | e]]; reflexivity.
  - exists [ev (f (ext w)).2]. split; [apply env_call_trace |].
    constructor; [apply Hev | constructor].
Qed.

Lemma keeps_dateNow : (∀ t, φ (EvNow t)) → keeps R dateNow.
Proof.
  intros Hev w. apply R_frame. unfold dateNow.
  destruct (clock_now E (ext w)) as [x t]. split; [reflexivity |].
  exists [EvNow t]. split; [reflexivity |]. constructor; [apply Hev | constructor].
Qed.

Lemma keeps_sleep ms : φ (EvSleep ms) → keeps R (sleep ms).
Proof.
  intros Hev w. apply R_frame. split; [reflexivity |].
  exists [EvSleep ms]. split; [reflexivity |]. constructor; [apply Hev | constructor].
Qed.

Lemma keeps_randomBytes n : φ EvRandom → keeps R (randomBytes n).
Proof.
  intros Hev w. apply R_frame.
  destruct (randomBytes_cases n w) as (bs & w' & Hq & _ & Hs & Ht).
  rewrite Hq. split; [exact Hs |].
  exists [EvRandom]. split; [exact Ht |]. constructor; [apply Hev | constructor].
Qed.

Lemma keeps_randomInt max : φ EvRandom → keeps R (randomInt max).
Proof.
  intros Hev w. apply R_frame. unfold randomInt.
  destruct (os_randomInt E (ext w)) as [x n]. split; [reflexivity |].
  exists [EvRandom]. split; [reflexivity |]. constructor; [apply Hev | constructor].
Qed.

Lemma keeps_saveSecrets : (∀ snap, φ (EvSave snap)) → keeps R saveSecrets.
Proof.
  intros Hev w. apply R_frame. split; [reflexivity |].
  exists [EvSave (secrets w)]. split; [reflexivity |].
  constructor; [apply Hev | constructor].
Qed.
End Keeps.

(** Walks down a computation built from the primitives above; [side]
    settles the conditions on the events. *)
Ltac keeps_steps Hrefl Htrans Hframe side :=
  repeat first
    [ match goal with H : _ |- keeps _ _ => apply H end
    | apply (keeps_ret _ Hrefl)
    | apply (keeps_throw _ Hrefl)
    | apply (keeps_out_of_fuel _ Hrefl)
    | apply (keeps_liftReply _ Hrefl)
    | apply (keeps_secrets_get _ Hrefl)
    | apply (keeps_env_call _ _ Hframe); intros; side
    | apply (keeps_dateNow _ _ Hframe); intros; side
    | apply (keeps_sleep _ _ Hframe); intros; side
    | apply (keeps_randomBytes _ _ Hframe); intros; side
    | apply (keeps_randomInt _ _ Hframe); intros; side
    | apply (keeps_saveSecrets _ _ Hframe); intros; side
    | apply (keeps_bind _ Htrans); [| intros ?]
    | apply (keeps_try_catch _ Htrans); [| intros ?]
    | match goal with
      | |- keeps _ (match ?x with _ => _ end) => destruct x
      end ].

(** ** Secrets along a whole match *)

Section SecretsKept.
Context {E : Env}.
Variable self : Agent.
Variable matchId : Z.

Lemma sec_kept_refl (w : World E) : sec_kept matchId w w.
Proof. exists []. split; [reflexivity | auto]. Qed.

Lemma sec_kept_trans (a b c : World E) :
  sec_kept matchId a b → sec_kept matchId b c → sec_kept matchId a c.
Proof.
  intros (n1 & Ht1 & H1) (n2 & Ht2 & H2). exists (n2 ++ n1).
  split; [rewrite Ht2, Ht1, List.app_assoc; reflexivity |].
  intros k s Hk. rewrite Exists_app.
  destruct (H1 k s Hk) as [Hb | Hr]; [| auto].
  destruct (H2 k s Hb) as [Hc | Hr]; auto.
Qed.

Lemma sec_kept_frame (w w' : World E) :
  step_ok (fun _ => True) w w' → sec_kept matchId w w'.
Proof.
  intros (Hs & new & Ht & _). exists new. split; [exact Ht |].
  intros k s Hk. left. rewrite Hs. exact Hk.
Qed.

Lemma send_shape_extends c gas out (base tr : list Event) :
  send_shape c gas out base tr → ∃ new, tr = new ++ base.
Proof.
  intros [(h & _ & Ht) | (e & _ & [(r & Ht) | (h & rr & _ & Ht)])]; rewrite Ht.
  - eexists [_; _]. reflexivity.
  - eexists [_]. reflexivity.
  - eexists [_; _]. reflexivity.
Qed.

Lemma sec_kept_commit choice : keeps (E:=E) (sec_kept matchId) (commit self matchId choice).
Proof.
  intros w. pose proof (commit_run self matchId choice w) as Hc.
  unfold commit_outline in Hc.
  destruct ((rpc_getMatch E (ext w) matchId).2) as [m | e].
  2:{ destruct Hc as (_ & Hs & Ht). eexists [_]. split; [exact Ht |].
      intros k s Hk. left. rewrite Hs. exact Hk. }
  simpl in Hc.
  destruct (secrets w !! secretKey (chainId self) matchId (currentRound m))
    as [old |] eqn:Hold.
  - destruct Hc as [Hs Hc].
    assert (Hext : ∃ new, trace (commit self matchId choice w).2 = new ++ trace w).
    { destruct (encodePacked_uint8_bytes32 (ss_choice old) (ss_secret old)).
      - apply send_shape_extends in Hc as (new & Ht).
        exists (new ++ [EvGetMatch matchId (Resolved m)]).
        rewrite Ht, <- List.app_assoc. reflexivity.
      - destruct Hc as [_ Ht]. eexists [_]. exact Ht. }
    destruct Hext as (new & Ht). exists new. split; [exact Ht |].
    intros k s Hk. left. rewrite Hs. exact Hk.
  - destruct Hc as (bs & _ & _ & Hs & Hc).
    apply send_shape_extends in Hc as (new & Ht).
    eexists (new ++ [_; _; _]). split; [rewrite Ht, <- List.app_assoc; reflexivity |].
    intros k s Hk. left. rewrite Hs.
    rewrite lookup_insert_ne; [exact Hk |]. intros <-. congruence.
Qed.

Lemma sec_kept_reveal : keeps (E:=E) (sec_kept matchId) (reveal self matchId).
Proof.
  intros w. pose proof (reveal_run self matchId w) as Hr.
  unfold reveal_outline in Hr.
  destruct ((rpc_getMatch E (ext w) matchId).2) as [m | e].
  2:{ destruct Hr as (_ & Hs & Ht). eexists [_]. split; [exact Ht |].
      intros k s Hk. left. rewrite Hs. exact Hk. }
  simpl in Hr.
  destruct (secrets w !! secretKey (chainId self) matchId (currentRound m))
    as [st |] eqn:Hst.
  2:{ destruct Hr as (_ & Hs & Ht). eexists [_]. split; [exact Ht |].
      intros k s Hk. left. rewrite Hs. exact Hk. }
  destruct Hr as [(h & _ & Hs & Ht) | (e & _ & Hs & Hsh)].
  - eexists [_; _; _; _]. split; [exact Ht |].
    intros k s Hk. rewrite Hs.
    destruct (decide (k = secretKey (chainId self) matchId (currentRound m)))
      as [-> | Hne].
    + right. rewrite Hst in Hk. injection Hk as ->.
      apply Exists_cons_tl, Exists_cons_hd. exists h. reflexivity.
    + left. rewrite lookup_delete_ne by congruence. exact Hk.
  - apply send_shape_extends in Hsh as (new & Ht).
    exists (new ++ [EvGetMatch matchId (Resolved m)]).
    split; [rewrite Ht, <- List.app_assoc; reflexivity |].
    intros k s Hk. left. rewrite Hs. exact Hk.
Qed.

Ltac sec_steps :=
  keeps_steps (sec_kept_refl) (sec_kept_trans) (sec_kept_frame) ltac:(exact I).

Lemma sec_kept_send c gas what : keeps (E:=E) (sec_kept matchId) (send c gas what).
Proof. unfold send. sec_steps. Qed.

Lemma sec_kept_waitForPhase fuel target timeoutMs :
  keeps (E:=E) (sec_kept matchId) (waitForPhase fuel matchId target timeoutMs).
Proof.
  pose proof sec_kept_send as Hsend.
  assert (Hloop : ∀ start,
             keeps (E:=E) (sec_kept matchId)
                   (waitForPhase_loop fuel matchId target start timeoutMs)).
  { induction fuel as [| n IH]; intros start; cbn [waitForPhase_loop].
    - sec_steps.
    - unfold waitForPhase_poll, getMatch, getRound, getBlockTimestamp, claimTimeout.
      sec_steps. }
  unfold waitForPhase. sec_steps.
Qed.

Lemma sec_kept_rebuildRounds n isPlayer1 r acc :
  keeps (E:=E) (sec_kept matchId) (rebuildRounds self n matchId isPlayer1 r acc).
Proof.
  revert r acc. induction n as [| n IH]; intros r acc; cbn [rebuildRounds].
  - sec_steps.
  - unfold rebuildRound, getRound. sec_steps.
Qed.

Lemma sec_kept_waitActive fuel waitStart :
  keeps (E:=E) (sec_kept matchId) (waitActive fuel matchId waitStart).
Proof.
  induction fuel as [| n IH]; cbn [waitActive].
  - sec_steps.
  - unfold getMatch. sec_steps.
Qed.

Lemma sec_kept_pass fuel isPlayer1 st :
  keeps (E:=E) (sec_kept matchId) (playMatch_pass self fuel matchId isPlayer1 st).
Proof.
  pose proof sec_kept_commit as Hcommit.
  pose proof sec_kept_reveal as Hreveal.
  pose proof sec_kept_waitForPhase as Hwait.
  pose proof sec_kept_rebuildRounds as Hrebuild.
  unfold playMatch_pass, commitPhase, revealPhase, finalizeComplete,
    pickRandomChoice, getMatch, getRound.
  sec_steps.
Qed.

(** X7. A match played by [playMatch] never loses a secret it has not
    revealed: every secret the store held when [playMatch] started is
    still stored under its key when it stops (returning, throwing or out
    of fuel), unless a receipt confirmed the reveal of that very
    (choice, blinding) for this match in between. *)
Theorem playMatch_keeps_unrevealed_secrets (fuel : nat) (isPlayer1 : bool)
        (w : World E) :
  sec_kept matchId w (playMatch self fuel matchId isPlayer1 w).2.
Proof.
  pose proof sec_kept_pass as Hpass.
  pose proof sec_kept_waitActive as Hactive.
  assert (Hloop : ∀ st,
             keeps (E:=E) (sec_kept matchId) (playMatch_loop self fuel matchId isPlayer1 st)).
  { clear Hactive. induction fuel as [| n IH]; intros st; cbn [playMatch_loop].
    - sec_steps.
    - sec_steps. }
  revert w. change (keeps (E:=E) (sec_kept matchId) (playMatch self fuel matchId isPlayer1)).
  unfold playMatch. sec_steps.
Qed.
End SecretsKept.

(** ** What the result of the wait loop means *)

Section WaitVerdict.
Context {E : Env}.

Lemma waitForPhase_poll_verdict (matchId targetPhase timeoutMs : Z)
      (base : list Event) (w : World E) :
  ∃ out w' new,
    waitForPhase_poll matchId targetPhase w = (out, w')
    ∧ trace w' = new ++ trace w
    ∧ secrets w' = secrets w
    ∧ match out with
      | Ok (Some r) => wait_verdict matchId targetPhase timeoutMs base (Ok r) (trace w')
      | Ok None => True
      | Throw e => ∃ ev older, trace w' = ev :: older ∧ rejected_read e ev
      | OutOfFuel => False
      end.
Proof.
  unfold waitForPhase_poll, bind, getMatch, getRound, getBlockTimestamp, env_call.
  destruct (rpc_getMatch E (ext w) matchId) as [x [m | e]]; simpl.
  2:{ eexists _, _, [_]. repeat split. eexists _, _. split; [reflexivity |].
      left. eexists. reflexivity. }
  destruct (Z.eqb_spec (state m) MatchState.COMPLETE) as [Hc | Hc]; simpl.
  { eexists _, _, [_]. repeat split. eexists _, _. split; [reflexivity | auto]. }
  destruct (Z.eqb_spec (state m) MatchState.CANCELLED) as [Hx | Hx]; simpl.
  { eexists _, _, [_]. repeat split. eexists _, _. split; [reflexivity | auto]. }
  destruct (rpc_getRound E x matchId (currentRound m)) as [x1 [rd | e]]; simpl.
  2:{ eexists _, _, [_; _]. repeat split. eexists _, _. split; [reflexivity |].
      right; left. eexists _, _. reflexivity. }
  destruct (Z.eqb_spec (phase rd) targetPhase) as [Hph | Hph]; simpl.
  { eexists _, _, [_; _]. repeat split. eexists m, rd, _. auto. }
  destruct (phaseDeadline rd >? 0)%Z; simpl.
  2:{ unfold sleep. simpl. eexists _, _, [_; _; _]. repeat split. }
  destruct (rpc_getBlock E x1) as [x2 [ts | e]]; simpl.
  2:{ eexists _, _, [_; _; _]. repeat split. eexists _, _. split; [reflexivity |].
      right; right. reflexivity. }
  destruct (ts >? phaseDeadline rd)%Z; simpl.
  2:{ unfold sleep. simpl. eexists _, _, [_; _; _; _]. repeat split. }
  unfold try_catch, claimTimeout, bind.
  match goal with
  | |- context [send ?c ?g ?t ?w0] =>
      destruct (send_cases c g t w0) as (out & w1 & Hq & Hs & Ht);
      rewrite Hq; clear Hq
  end.
  simpl in Hs, Ht.
  destruct Ht as [(h & -> & Ht) | (e & -> & [(r & Ht) | (h & rr & Hrr & Ht)])]; simpl.
  - eexists _, _, [_; _; _; _; _]. split; [reflexivity |].
    split; [rewrite Ht; reflexivity |]. split; [exact Hs |].
    rewrite Ht. eexists _, _. reflexivity.
  - unfold sleep. simpl. eexists _, _, [_; _; _; _; _]. split; [reflexivity |].
    split; [simpl; rewrite Ht; reflexivity |]. split; [exact Hs | exact I].
  - unfold sleep. simpl. eexists _, _, [_; _; _; _; _; _]. split; [reflexivity |].
    split; [simpl; rewrite Ht; reflexivity |]. split; [exact Hs | exact I].
Qed.

Lemma waitForPhase_loop_verdict (fuel : nat) (matchId targetPhase start timeoutMs : Z)
      (base between : list Event) (w : World E) :
  trace w = between ++ EvNow start :: base →
  ∃ out w',
    waitForPhase_loop fuel matchId targetPhase start timeoutMs w = (out, w')
    ∧ wait_verdict matchId targetPhase timeoutMs base out (trace w')
    ∧ secrets w' = secrets w.
Proof.
  revert between w. induction fuel as [| fuel IH]; intros between w Hbase.
  - exists OutOfFuel, w. simpl. auto.
  - cbn [waitForPhase_loop]. unfold bind at 1. unfold dateNow.
    destruct (clock_now E (ext w)) as [x now]; simpl.
    set (w0 := mkWorld x (secrets w) (EvNow now :: trace w)).
    destruct (Z.ltb_spec (now - start) timeoutMs) as [Hlt | Hge].
    2:{ eexists _, _. split; [reflexivity |]. simpl. split; [| reflexivity].
        left. split; [reflexivity |].
        exists now, start, between. rewrite Hbase. auto. }
    unfold bind.
    destruct (waitForPhase_poll_verdict matchId targetPhase timeoutMs base w0)
      as (out1 & w1 & new1 & Hq & Ht & Hs & Hv).
    rewrite Hq. destruct out1 as [[res |] | e |]; simpl.
    + eexists _, _. split; [reflexivity |]. split; [exact Hv | exact Hs].
    + destruct (IH (new1 ++ EvNow now :: between) w1) as (out2 & w2 & Hq2 & Hv2 & Hs2).
      { rewrite Ht. unfold w0. simpl. rewrite Hbase, <- List.app_assoc. reflexivity. }
      exists out2, w2. split; [exact Hq2 |].
      split; [exact Hv2 | rewrite Hs2; exact Hs].
    + eexists _, _. split; [reflexivity |]. split; [right; exact Hv | exact Hs].
    + contradiction.
Qed.

(** X8. What the result of [waitForPhase] means. It returns "ok" right
    after a read of the current round of a match that has not ended shows
    the target phase; "match_ended" right after a read of the match shows
    it COMPLETE or CANCELLED; "timeout_claimed" right after the receipt of
    its own [claimTimeout] call reported success. It throws only when its
    budget of wall-clock time is used up (the clock read is at least
    [timeoutMs] past the first one) or when a read was rejected: a
    timeout claim that is rejected or reverts never ends the wait. The
    secret store is never touched. *)
Theorem waitForPhase_verdict (fuel : nat) (matchId targetPhase timeoutMs : Z)
        (w : World E) :
  wait_verdict matchId targetPhase timeoutMs (trace w)
    (waitForPhase fuel matchId targetPhase timeoutMs w).1
    (trace (waitForPhase fuel matchId targetPhase timeoutMs w).2)
  ∧ secrets (waitForPhase fuel matchId targetPhase timeoutMs w).2 = secrets w.
Proof.
  unfold waitForPhase, bind, dateNow.
  destruct (clock_now E (ext w)) as [x start]; simpl.
  set (w0 := mkWorld x (secrets w) (EvNow start :: trace w)).
  destruct (waitForPhase_loop_verdict fuel matchId targetPhase start timeoutMs
              (trace w) [] w0 eq_refl) as (out & w1 & Hq & Hv & Hs).
  rewrite Hq. simpl. split; [exact Hv | exact Hs].
Qed.
End WaitVerdict.

(** ** The live result and the resolver *)

Section LiveAndResolved.
Context {E : Env}.
Variable self : Agent.

(** X9. On a match decided on wins, [playMatch] and
    [determineMatchWinner] agree. For a COMPLETE snapshot with two
    distinct players in which exactly one side reached the threshold of 3
    wins, the result that [playMatch] builds for a caller that claimed no
    timeout says "won" exactly when the resolver names the caller's side,
    whatever last round the resolver is given. *)
Theorem live_result_agrees_with_resolver (matchId : Z) (isPlayer1 : bool)
        (m : MatchData) (lr : option LastRound) (w : World E) :
  state m = MatchState.COMPLETE →
  player1 m ≠ player2 m →
  (WINS_REQUIRED <= winsP1 m ∧ winsP2 m < WINS_REQUIRED)%Z
  ∨ (WINS_REQUIRED <= winsP2 m ∧ winsP1 m < WINS_REQUIRED)%Z →
  ∃ res,
    (finalizeComplete self matchId isPlayer1 false m w).1 = Ok res
    ∧ (mr_won res = true
       ↔ determineMatchWinner m lr = Some (if isPlayer1 then player1 m else player2 m)).
Proof.
  intros Hst Hne Hwins.
  destruct (finalizeComplete_cases self matchId isPlayer1 false m w)
    as (res & w' & fin & Hq & _ & _ & (Hwon & _) & _).
  exists res. rewrite Hq. split; [reflexivity |]. rewrite Hwon. simpl.
  unfold determineMatchWinner. rewrite Hst. simpl. rewrite !Z.geb_leb.
  unfold WINS_REQUIRED in *.
  destruct Hwins as [[H1 H2] | [H2 H1]].
  - destruct (Z.leb_spec 3 (winsP1 m)); [| lia].
    destruct isPlayer1.
    + destruct (Z.gtb_spec (winsP1 m) (winsP2 m)); [tauto | lia].
    + destruct (Z.gtb_spec (winsP2 m) (winsP1 m)); [lia |].
      split; [discriminate | intros [= Heq]; contradiction].
  - destruct (Z.leb_spec 3 (winsP1 m)); [lia |].
    destruct (Z.leb_spec 3 (winsP2 m)); [| lia].
    destruct isPlayer1.
    + destruct (Z.gtb_spec (winsP1 m) (winsP2 m)); [lia |].
      split; [discriminate | intros [= Heq]; congruence].
    + destruct (Z.gtb_spec (winsP2 m) (winsP1 m)); [tauto | lia].
Qed.
End LiveAndResolved.

Lemma live_result_agrees_with_resolver_witness :
  ∃ res,
    (finalizeComplete demoAgent 7 true false (demoMatch MatchState.COMPLETE 3 1 4)
       (startWorld (timeoutScript 2000 12 MatchState.COMPLETE) ∅)).1 = Ok res
    ∧ (mr_won res = true
       ↔ determineMatchWinner (demoMatch MatchState.COMPLETE 3 1 4) None
         = Some (address demoAgent)).
Proof.
  apply (live_result_agrees_with_resolver demoAgent 7 true
           (demoMatch MatchState.COMPLETE 3 1 4) None
           (startWorld (timeoutScript 2000 12 MatchState.COMPLETE) ∅)).
  - reflexivity.
  - simpl. discriminate.
  - left. unfold WINS_REQUIRED. simpl. lia.
Defined.

(** ** Match details *)

Section DetailsTheorems.
Context {E : Env}.
Variable toISOString : Z → Reply string.

Lemma detailRounds_cases (n : nat) (mid r : Z) (rounds : list RoundView)
      (lastRaw : option LastRound) (w : World E) :
  ∃ rds stop w',
    detailRounds n mid r rounds lastRaw w
    = (Ok (rounds ++ views r rds,
           match last rds with
           | Some rd => Some (lastRawOf rd)
           | None => lastRaw
           end), w')
    ∧ trace w' = stop ++ rev (round_reads mid r rds) ++ trace w
    ∧ secrets w' = secrets w
    ∧ (List.length rds <= n)%nat
    ∧ ((stop = [] ∧ List.length rds = n)
       ∨ ∃ e, stop = [EvGetRound mid (r + Z.of_nat (List.length rds)) (Rejected e)]).
Proof.
  revert r rounds lastRaw w. induction n as [| n IH]; intros r rounds lastRaw w.
  - exists [], [], w. simpl. rewrite List.app_nil_r. auto 10.
  - cbn [detailRounds]. unfold bind at 1. unfold try_catch, bind, getRound, env_call.
    destruct (rpc_getRound E (ext w) mid r) as [x [rd | e]]; simpl.
    + match goal with
      | |- context [detailRounds n mid ?r' ?acc ?l ?w0] =>
          destruct (IH r' acc l w0) as (rds & stop & w' & Hq & Ht & Hs & Hlen & Hstop);
          rewrite Hq
      end.
      exists (rd :: rds), stop, w'. simpl in Ht, Hs.
      split.
      { rewrite <- List.app_assoc, last_cons. simpl.
        destruct (last rds); reflexivity. }
      split.
      { rewrite Ht. simpl. rewrite <- !List.app_assoc. reflexivity. }
      split; [exact Hs |]. split; [simpl; lia |].
      destruct Hstop as [[-> Hn] | (e & ->)].
      * left. simpl. auto.
      * right. exists e. simpl List.length.
        replace (r + Z.of_nat (S (List.length rds)))%Z
          with (r + 1 + Z.of_nat (List.length rds))%Z by lia.
        reflexivity.
    + exists [], [EvGetRound mid r (Rejected e)], (mkWorld x (secrets w)
                 (EvGetRound mid r (Rejected e) :: trace w)).
      simpl. rewrite List.app_nil_r, Z.add_0_r.
      split; [reflexivity |]. split; [reflexivity |]. split; [reflexivity |].
      split; [lia |]. right. exists e. reflexivity.
Qed.

(** X10. The rounds and the winner [getMatchDetails] reports. When the
    read of the match is rejected the call fails with that error and
    reads nothing else. Otherwise it reads the rounds 1, 2, ... of the
    match in order and stops at the first read that is rejected, or after
    round [currentRound]: the entries of [rounds] are those of the rounds
    read so far, in order. For a COMPLETE match the winner is the one
    [determineMatchWinner] names from the match and from the commitments
    and choices of the last round that was read (none if no round was
    read), with "timeout" in place of [null]; for any other state it is
    [null]. After a resolved read of the match the call fails only when
    the creation time cannot be formatted. The store is left as it was. *)
Theorem getMatchDetails_reports (matchId : Z) (w : World E) :
  secrets (getMatchDetails toISOString matchId w).2 = secrets w
  ∧ match (rpc_getMatch E (ext w) matchId).2 with
    | Rejected e =>
        (getMatchDetails toISOString matchId w).1 = Throw e
        ∧ trace (getMatchDetails toISOString matchId w).2
          = EvGetMatch matchId (Rejected e) :: trace w
    | Resolved m =>
        ∃ rds stop,
          trace (getMatchDetails toISOString matchId w).2
          = stop ++ rev (round_reads matchId 1 rds)
              ++ EvGetMatch matchId (Resolved m) :: trace w
          ∧ (List.length rds <= Z.to_nat (currentRound m))%nat
          ∧ ((stop = [] ∧ List.length rds = Z.to_nat (currentRound m))
             ∨ ∃ e, stop = [EvGetRound matchId (1 + Z.of_nat (List.length rds))
                                       (Rejected e)])
          ∧ match (getMatchDetails toISOString matchId w).1 with
            | Ok d =>
                md_rounds d = views 1 rds
                ∧ md_winner d
                  = (if (state m =? MatchState.COMPLETE)%Z
                     then Some (default "timeout"
                                  (determineMatchWinner m (lastRawOf <$> last rds)))
                     else None)
            | Throw e => toISOString (createdAt m) = Rejected e
            | OutOfFuel => False
            end
    end.
Proof.
  unfold getMatchDetails, bind, getMatch, env_call.
  destruct (rpc_getMatch E (ext w) matchId) as [x [m | e]]; simpl; [| auto].
  match goal with
  | |- context [detailRounds ?n ?mid ?r ?acc ?l ?w0] =>
      destruct (detailRounds_cases n mid r acc l w0)
        as (rds & stop & w' & Hq & Ht & Hs & Hlen & Hstop);
      rewrite Hq
  end.
  simpl in Ht, Hs.
  assert (Hlast : match last rds with
                  | Some rd => Some (lastRawOf rd)
                  | None => None
                  end = lastRawOf <$> last rds) by (destruct (last rds); reflexivity).
  destruct (toISOString (createdAt m)) as [created | e]; simpl;
    (split; [exact Hs |]); exists rds, stop;
    (split; [exact Ht |]); (split; [exact Hlen |]); (split; [exact Hstop |]).
  - rewrite Hlast. split; reflexivity.
  - reflexivity.
Qed.
End DetailsTheorems.

Lemma getMatchDetails_reports_witness :
  ∃ rds stop,
    trace detailsRun.2
    = stop ++ rev (round_reads 7 1 rds)
        ++ [EvGetMatch 7 (Resolved (demoMatch MatchState.COMPLETE 2 0 3))]
    ∧ match detailsRun.1 with
      | Ok d =>
          md_rounds d = views 1 rds
          ∧ md_winner d
            = Some (default "timeout"
                      (determineMatchWinner (demoMatch MatchState.COMPLETE 2 0 3)
                                            (lastRawOf <$> last rds)))
      | _ => False
      end.
Proof.
  destruct (getMatchDetails_reports (fun z => Resolved (pretty z)) 7
              (startWorld forfeitScript ∅))
    as [_ H].
  change (rpc_getMatch _ (ext (startWorld forfeitScript ∅)) 7).2
    with (Resolved (demoMatch MatchState.COMPLETE 2 0 3)) in H.
  cbv iota in H. destruct H as (rds & stop & Ht & _ & _ & Hd).
  exists rds, stop. split; [exact Ht |].
  unfold detailsRun.
  destruct (getMatchDetails _ 7 (startWorld forfeitScript ∅)).1 as [d | e |];
    [exact Hd | | exact Hd].
  discriminate Hd.
Defined.

(** ** The per-round tool *)

Section PlayRoundTheorems.
Context {E : Env}.
Variable toLowerCase : string → string.
Variable self : Agent.
Variable matchId : Z.

Lemma claims_follow_app cond (a b : list Event) :
  claims_follow matchId cond a → claims_follow matchId cond b →
  claims_follow matchId cond (a ++ b).
Proof.
  induction a as [| ev a IH]; simpl; [auto |].
  intros [Hev Ha] Hb. split; [| auto].
  destruct (claim_submitted ev) as [id |]; [| exact I].
  destruct Hev as [Hid Hobs]. split; [exact Hid |].
  destruct a as [| [] a']; simpl in *; try contradiction.
  destruct a' as [| [] a'']; simpl in *; try contradiction.
  exact Hobs.
Qed.

Lemma claims_follow_none cond (tr : list Event) :
  Forall (fun ev => claim_submitted ev = None) tr → claims_follow matchId cond tr.
Proof.
  induction 1 as [| ev tr Hev _ IH]; simpl; [exact I |].
  rewrite Hev. auto.
Qed.

Lemma claims_kept_refl cond (w : World E) : claims_kept matchId cond w w.
Proof. exists []. split; [reflexivity | exact I]. Qed.

Lemma claims_kept_trans cond (a b c : World E) :
  claims_kept matchId cond a b → claims_kept matchId cond b c →
  claims_kept matchId cond a c.
Proof.
  intros (n1 & Ht1 & H1) (n2 & Ht2 & H2). exists (n2 ++ n1).
  split; [rewrite Ht2, Ht1, List.app_assoc; reflexivity |].
  apply claims_follow_app; assumption.
Qed.

Lemma claims_kept_frame cond (w w' : World E) :
  step_ok (fun ev => claim_submitted ev = None) w w' → claims_kept matchId cond w w'.
Proof.
  intros (_ & new & Ht & Hall). exists new. split; [exact Ht |].
  apply claims_follow_none. exact Hall.
Qed.

Lemma claims_kept_secrets_set cond key v :
  keeps (E:=E) (claims_kept matchId cond) (secrets_set key v).
Proof. intros w. exists []. split; [reflexivity | exact I]. Qed.

Lemma claims_kept_secrets_delete cond key :
  keeps (E:=E) (claims_kept matchId cond) (secrets_delete key).
Proof. intros w. exists []. split; [reflexivity | exact I]. Qed.

Ltac claim_steps cond :=
  keeps_steps (claims_kept_refl cond) (claims_kept_trans cond) (claims_kept_frame cond)
              ltac:(reflexivity).

Lemma claims_kept_commit cond id choice :
  keeps (E:=E) (claims_kept matchId cond) (commit self id choice).
Proof.
  pose proof (claims_kept_secrets_set cond) as Hset.
  unfold commit, getMatch, send. claim_steps cond.
Qed.

Lemma claims_kept_commitArg cond id arg :
  keeps (E:=E) (claims_kept matchId cond) (commitArg self id arg).
Proof.
  pose proof (claims_kept_commit cond) as Hcommit.
  unfold commitArg, getMatch, send. claim_steps cond.
Qed.

Lemma claims_kept_reveal cond id :
  keeps (E:=E) (claims_kept matchId cond) (reveal self id).
Proof.
  pose proof (claims_kept_secrets_delete cond) as Hdel.
  unfold reveal, getMatch, send. claim_steps cond.
Qed.

(** A wait loop claims only on the condition it tested. *)
Lemma claims_kept_roundWait (cond : Z → Z → RoundData → Prop) fuel leave absent
      roundNum yourChoice isPlayer1 message waitUntil :
  (∀ t rd, leave rd = false → absent rd = true →
           (0 < phaseDeadline rd)%Z → (phaseDeadline rd + 5 < t / 1000)%Z →
           cond t roundNum rd) →
  keeps (E:=E) (claims_kept matchId cond)
        (roundWait fuel leave absent
                   (timeoutWin matchId roundNum yourChoice isPlayer1 message)
                   matchId roundNum waitUntil).
Proof.
  intros Hcond. induction fuel as [| fuel IH]; intros w.
  - apply claims_kept_refl.
  - unfold claims_kept. cbn [roundWait]. unfold bind at 1. unfold dateNow.
    destruct (clock_now E (ext w)) as [x now]; simpl.
    destruct (now <? waitUntil)%Z.
    2:{ eexists [_]. split; [reflexivity | simpl; auto]. }
    unfold bind at 1. unfold sleep. simpl.
    unfold bind at 1. unfold getRound, env_call. simpl.
    destruct (rpc_getRound E (clock_sleep E x 3000) matchId roundNum)
      as [x1 [rd | e]]; simpl.
    2:{ eexists [_; _; _]. split; [reflexivity | simpl; auto]. }
    destruct (leave rd) eqn:Hleave.
    { eexists [_; _; _]. split; [reflexivity | simpl; auto]. }
    unfold bind at 1.
    destruct (Z.gtb_spec (phaseDeadline rd) 0) as [Hdl | Hdl].
    2:{ simpl.
        match goal with
        | |- context [roundWait fuel ?l ?a ?o ?i ?r ?u ?w0] =>
            destruct (IH w0) as (new & Ht & Hc)
        end.
        exists (new ++ [EvGetRound matchId roundNum (Resolved rd); EvSleep 3000; EvNow now]).
        split; [rewrite Ht; simpl; rewrite <- List.app_assoc; reflexivity |].
        apply claims_follow_app; [exact Hc | simpl; auto]. }
    unfold bind at 1. unfold dateNow. simpl.
    destruct (clock_now E x1) as [x2 t]; simpl.
    destruct (Z.gtb_spec (t / 1000) (phaseDeadline rd + 5)) as [Hlate | Hlate].
    2:{ match goal with
        | |- context [roundWait fuel ?l ?a ?o ?i ?r ?u ?w0] =>
            destruct (IH w0) as (new & Ht & Hc)
        end.
        exists (new ++ [EvNow t; EvGetRound matchId roundNum (Resolved rd);
                        EvSleep 3000; EvNow now]).
        split; [rewrite Ht; simpl; rewrite <- List.app_assoc; reflexivity |].
        apply claims_follow_app; [exact Hc | simpl; auto]. }
    destruct (absent rd) eqn:Habsent.
    2:{ match goal with
        | |- context [roundWait fuel ?l ?a ?o ?i ?r ?u ?w0] =>
            destruct (IH w0) as (new & Ht & Hc)
        end.
        exists (new ++ [EvNow t; EvGetRound matchId roundNum (Resolved rd);
                        EvSleep 3000; EvNow now]).
        split; [rewrite Ht; simpl; rewrite <- List.app_assoc; reflexivity |].
        apply claims_follow_app; [exact Hc | simpl; auto]. }
    assert (Hok : cond t roundNum rd) by (apply Hcond; assumption || lia).
    unfold bind at 1. unfold timeoutWin. unfold bind at 1. unfold claimTimeout.
    match goal with
    | |- context [send ?c ?g ?what ?w0] =>
        destruct (send_cases c g what w0) as (out & w1 & Hq & _ & Ht);
        rewrite Hq; clear Hq
    end.
    simpl in Ht.
    destruct Ht as [(h & -> & Ht) | (e & -> & [(r & Ht) | (h & rr & _ & Ht)])].
    + unfold bind, sleep, getMatch, env_call. simpl.
      destruct (rpc_getMatch E (clock_sleep E (ext w1) 3000) matchId)
        as [x3 [fm | e]]; simpl; rewrite Ht;
        eexists [_; _; _; _; _; _; _; _]; (split; [reflexivity |]);
        simpl; repeat split; auto.
    + simpl. rewrite Ht. eexists [_; _; _; _; _]. split; [reflexivity |].
      simpl. repeat split; auto.
    + simpl. rewrite Ht. eexists [_; _; _; _; _; _]. split; [reflexivity |].
      simpl. repeat split; auto.
Qed.

Lemma claims_kept_phases fuel choice isPlayer1 roundNum :
  keeps (E:=E) (claims_kept matchId (round_claim_cond isPlayer1 roundNum))
        (play_round_phases toLowerCase self fuel matchId choice isPlayer1 roundNum).
Proof.
  set (cond := round_claim_cond isPlayer1 roundNum).
  pose proof (claims_kept_commitArg cond) as Hcommit.
  pose proof (claims_kept_reveal cond) as Hreveal.
  assert (Hwait1 : ∀ waitUntil,
             keeps (E:=E) (claims_kept matchId cond)
               (roundWait fuel
                  (fun round => negb (phase round =? RoundPhase.COMMIT)%Z)
                  (fun round =>
                     String.eqb (if isPlayer1 then commitP2 round else commitP1 round)
                                ZERO_BYTES32)
                  (timeoutWin matchId roundNum (choiceName choice) isPlayer1
                              "Opponent timed out on commit. You win!")
                  matchId roundNum waitUntil)).
  { intros waitUntil. apply claims_kept_roundWait. intros t rd Hl Ha Hd Ht.
    unfold cond, round_claim_cond. repeat split; try assumption. left.
    apply negb_false_iff, Z.eqb_eq in Hl. apply String.eqb_eq in Ha. auto. }
  assert (Hwait2 : ∀ waitUntil,
             keeps (E:=E) (claims_kept matchId cond)
               (roundWait fuel
                  (fun round => (phase round =? RoundPhase.COMPLETE)%Z)
                  (fun round =>
                     ((if isPlayer1 then choiceP2 round else choiceP1 round)
                      =? Choice.None)%Z)
                  (timeoutWin matchId roundNum (choiceName choice) isPlayer1
                              "Opponent timed out on reveal. You win!")
                  matchId roundNum waitUntil)).
  { intros waitUntil. apply claims_kept_roundWait. intros t rd Hl Ha Hd Ht.
    unfold cond, round_claim_cond. repeat split; try assumption. right.
    apply Z.eqb_neq in Hl. apply Z.eqb_eq in Ha. auto. }
  unfold play_round_phases, getMatch, getRound. claim_steps cond.
Qed.

(** X11. [play_round] claims a timeout only past the deadline plus a
    grace of 5 seconds, and only when the opponent's item is missing.
    Every [claimTimeout] call it submits is for its own match and directly
    follows a read of the round being played and a read of the wall
    clock that show: a phase deadline is assigned, the clock in whole
    seconds is more than 5 past it, and the opponent has no commitment
    (round in COMMIT) or no revealed choice (round not COMPLETE). *)
Theorem play_round_claims_with_grace (fuel : nat) (choiceRaw : string)
        (w : World E) (m : MatchData) :
  (rpc_getMatch E (ext w) matchId).2 = Resolved m →
  claims_kept matchId
    (round_claim_cond
       (String.eqb (toLowerCase (player1 m)) (toLowerCase (address self)))
       (currentRound m))
    w (play_round toLowerCase self fuel matchId choiceRaw w).2.
Proof.
  intros Hm. unfold play_round.
  set (cond := round_claim_cond _ _).
  assert (Hrest : claims_kept matchId cond w
            ((let* m0 := getMatch matchId in
              if negb (state m0 =? MatchState.ACTIVE)%Z then
                ret (PRError ("Match #" +:+ pretty matchId +:+ " is not ACTIVE (current: " +:+
                              js_text (js_index STATE_NAMES (state m0)) +:+ ")"))
              else
                if negb (String.eqb (toLowerCase (player1 m0)) (toLowerCase (address self)))
                   && negb (String.eqb (toLowerCase (player2 m0)) (toLowerCase (address self)))
                then ret (PRError ("You are not a player in match #" +:+ pretty matchId +:+ "."))
                else play_round_phases toLowerCase self fuel matchId (choiceMap (toLowerCase choiceRaw))
                       (String.eqb (toLowerCase (player1 m0)) (toLowerCase (address self)))
                       (currentRound m0)) w).2).
  { unfold bind, getMatch, env_call.
    destruct (rpc_getMatch E (ext w) matchId) as [x r]. simpl in Hm. subst r. simpl.
    destruct (negb (state m =? MatchState.ACTIVE)%Z).
    { eexists [_]. split; [reflexivity | simpl; auto]. }
    destruct (negb _ && negb _).
    { eexists [_]. split; [reflexivity | simpl; auto]. }
    eapply claims_kept_trans; [| apply claims_kept_phases].
    eexists [_]. split; [reflexivity | simpl; auto]. }
  destruct (choiceMap (toLowerCase choiceRaw)); [exact Hrest | exact Hrest |].
  apply claims_kept_refl.
Qed.
End PlayRoundTheorems.

Lemma play_round_claims_with_grace_witness :
  claims_kept 7 (round_claim_cond true 1) (startWorld lateScript ∅) roundRun.2
  ∧ Exists (fun ev => claim_submitted ev = Some 7) (trace roundRun.2).
Proof.
  split.
  - apply (play_round_claims_with_grace toLowerCase demoAgent 7 5 "Rock" (startWorld lateScript ∅)
             (demoMatch MatchState.ACTIVE 0 0 1)).
    reflexivity.
  - vm_compute. do 3 apply Exists_cons_tl. apply Exists_cons_hd. reflexivity.
Defined.

Section PlayRoundWrites.
Context {E : Env}.
Variable toLowerCase : string → string.
Variable self : Agent.
Variable matchId : Z.

Lemma emitted_refl φ (w : World E) : emitted φ w w.
Proof. exists []. split; [reflexivity | constructor]. Qed.

Lemma emitted_trans φ (a b c : World E) :
  emitted φ a b → emitted φ b c → emitted φ a c.
Proof.
  intros (n1 & Ht1 & H1) (n2 & Ht2 & H2). exists (n2 ++ n1).
  split; [rewrite Ht2, Ht1, List.app_assoc; reflexivity |].
  apply Forall_app. auto.
Qed.

Lemma emitted_frame φ (w w' : World E) : step_ok φ w w' → emitted φ w w'.
Proof. intros (_ & new & Ht & Hall). exists new. auto. Qed.

Lemma emitted_secrets_set φ key v : keeps (E:=E) (emitted φ) (secrets_set key v).
Proof. intros w. exists []. split; [reflexivity | constructor]. Qed.

Lemma emitted_secrets_delete φ key : keeps (E:=E) (emitted φ) (secrets_delete key).
Proof. intros w. exists []. split; [reflexivity | constructor]. Qed.

Ltac write_side :=
  unfold writes_for; intros;
  match goal with
  | H : _ = EvWrite _ _ _ |- _ =>
      first [discriminate H | injection H as <- _ _; reflexivity]
  end.

Ltac write_steps :=
  keeps_steps (emitted_refl (writes_for matchId)) (emitted_trans (writes_for matchId))
              (emitted_frame (writes_for matchId)) ltac:(write_side).

Lemma writes_commit choice :
  keeps (E:=E) (emitted (writes_for matchId)) (commit self matchId choice).
Proof.
  pose proof (emitted_secrets_set (writes_for matchId)) as Hset.
  unfold commit, getMatch, send. write_steps.
Qed.

Lemma writes_commitArg arg :
  keeps (E:=E) (emitted (writes_for matchId)) (commitArg self matchId arg).
Proof.
  pose proof writes_commit as Hcommit.
  unfold commitArg, getMatch, send. write_steps.
Qed.

Lemma writes_reveal :
  keeps (E:=E) (emitted (writes_for matchId)) (reveal self matchId).
Proof.
  pose proof (emitted_secrets_delete (writes_for matchId)) as Hdel.
  unfold reveal, getMatch, send. write_steps.
Qed.

Lemma writes_roundWait fuel leave absent roundNum yourChoice isPlayer1 message waitUntil :
  keeps (E:=E) (emitted (writes_for matchId))
        (roundWait fuel leave absent
                   (timeoutWin matchId roundNum yourChoice isPlayer1 message)
                   matchId roundNum waitUntil).
Proof.
  induction fuel as [| fuel IH]; cbn [roundWait].
  - write_steps.
  - unfold timeoutWin, claimTimeout, send, getRound, getMatch. write_steps.
Qed.

Lemma writes_phases fuel choice isPlayer1 roundNum :
  keeps (E:=E) (emitted (writes_for matchId))
        (play_round_phases toLowerCase self fuel matchId choice isPlayer1 roundNum).
Proof.
  pose proof writes_commitArg as Hcommit.
  pose proof writes_reveal as Hreveal.
  pose proof writes_roundWait as Hwait.
  unfold play_round_phases, getMatch, getRound. write_steps.
Qed.

Lemma no_new_secret_refl (w : World E) : no_new_secret w w.
Proof. unfold no_new_secret. reflexivity. Qed.

Lemma no_new_secret_trans (a b c : World E) :
  no_new_secret a b → no_new_secret b c → no_new_secret a c.
Proof. unfold no_new_secret. intros Hab Hbc. etransitivity; eassumption. Qed.

Lemma no_new_secret_frame (w w' : World E) :
  step_ok (fun _ => True) w w' → no_new_secret w w'.
Proof. intros [Hs _]. unfold no_new_secret. rewrite Hs. reflexivity. Qed.

Lemma no_new_secret_delete key : keeps (E:=E) no_new_secret (secrets_delete key).
Proof. intros w. unfold no_new_secret. simpl. apply delete_subseteq. Qed.

Ltac store_steps :=
  keeps_steps no_new_secret_refl no_new_secret_trans no_new_secret_frame
              ltac:(exact I).

Lemma no_new_secret_commitArg arg :
  (∀ c, arg ≠ OwnChoice c) →
  keeps (E:=E) no_new_secret (commitArg self matchId arg).
Proof.
  intros Hnot. destruct arg as [c | |]; [destruct (Hnot c eq_refl) | |];
    unfold commitArg, getMatch, send; store_steps.
Qed.

Lemma no_new_secret_reveal : keeps (E:=E) no_new_secret (reveal self matchId).
Proof.
  pose proof no_new_secret_delete as Hdel.
  unfold reveal, getMatch, send. store_steps.
Qed.

Lemma no_new_secret_roundWait fuel leave absent roundNum yourChoice isPlayer1 message
      waitUntil :
  keeps (E:=E) no_new_secret
        (roundWait fuel leave absent
                   (timeoutWin matchId roundNum yourChoice isPlayer1 message)
                   matchId roundNum waitUntil).
Proof.
  induction fuel as [| fuel IH]; cbn [roundWait].
  - store_steps.
  - unfold timeoutWin, claimTimeout, send, getRound, getMatch. store_steps.
Qed.

Lemma no_new_secret_phases fuel arg isPlayer1 roundNum :
  (∀ c, arg ≠ OwnChoice c) →
  keeps (E:=E) no_new_secret
        (play_round_phases toLowerCase self fuel matchId arg isPlayer1 roundNum).
Proof.
  intros Hnot.
  pose proof (no_new_secret_commitArg arg Hnot) as Hcommit.
  pose proof no_new_secret_reveal as Hreveal.
  pose proof no_new_secret_roundWait as Hwait.
  unfold play_round_phases, getMatch, getRound. store_steps.
Qed.

(** What [play_round] does before its three phases: a choice text that
    reads [undefined] in the map ends the call at once; otherwise the
    match is read, and the phases run only for an ACTIVE match of which
    the caller is player 1 or player 2. *)
Lemma play_round_guards (fuel : nat) (choiceRaw : string) (w : World E) :
  let arg := choiceMap (toLowerCase choiceRaw) in
  let run := play_round toLowerCase self fuel matchId choiceRaw w in
  (arg = NoSuchKey ∧ run.2 = w)
  ∨ (arg ≠ NoSuchKey
     ∧ ((∃ r, trace run.2 = EvGetMatch matchId r :: trace w
              ∧ secrets run.2 = secrets w)
        ∨ ∃ m x,
            rpc_getMatch E (ext w) matchId = (x, Resolved m)
            ∧ state m = MatchState.ACTIVE
            ∧ (toLowerCase (player1 m) = toLowerCase (address self)
               ∨ toLowerCase (player2 m) = toLowerCase (address self))
            ∧ run
              = play_round_phases toLowerCase self fuel matchId arg
                  (String.eqb (toLowerCase (player1 m)) (toLowerCase (address self)))
                  (currentRound m)
                  (mkWorld x (secrets w) (EvGetMatch matchId (Resolved m) :: trace w)))).
Proof.
  intros arg run. subst run. unfold play_round. cbv zeta. fold arg. clearbody arg.
  destruct arg as [c | |];
    [right; split; [discriminate |] .. | left; split; reflexivity];
    unfold bind, getMatch, env_call;
    (destruct (rpc_getMatch E (ext w) matchId) as [x [m | e]]; simpl;
     [| left; eexists; split; reflexivity]);
    (destruct (Z.eqb_spec (state m) MatchState.ACTIVE) as [Hact | Hact]; simpl;
     [| left; eexists; split; reflexivity]);
    (destruct (negb _ && negb _) eqn:Hnot; [left; eexists; split; reflexivity |]);
    right; exists m, x; (split; [reflexivity |]); (split; [exact Hact |]);
    (split; [| reflexivity]);
    apply andb_false_iff in Hnot as [H | H]; apply negb_false_iff, String.eqb_eq in H;
    auto.
Qed.

(** X12. [play_round] transacts only for its own match, and only as one
    of its players. Every transaction it submits is about match
    [matchId]. If it submits any, then the lower-cased choice text named
    a member of the choice map object, one of its own three (rock, paper,
    scissors) or one that every object inherits (such as constructor),
    and its first read of the match resolved and showed the match ACTIVE
    with the caller's address (both lower-cased) as player 1 or player 2.
    Unless the text named one of the three choices, no secret is
    created: the store afterwards holds nothing it did not hold before. *)
Theorem play_round_transacts_only_as_player (fuel : nat) (choiceRaw : string)
        (w : World E) :
  ∃ new,
    trace (play_round toLowerCase self fuel matchId choiceRaw w).2 = new ++ trace w
    ∧ Forall (writes_for matchId) new
    ∧ (Exists is_write new →
       ((∃ c, choiceMap (toLowerCase choiceRaw) = OwnChoice c)
        ∨ choiceMap (toLowerCase choiceRaw) = InheritedMember)
       ∧ ∃ m, (rpc_getMatch E (ext w) matchId).2 = Resolved m
              ∧ state m = MatchState.ACTIVE
              ∧ (toLowerCase (player1 m) = toLowerCase (address self)
                 ∨ toLowerCase (player2 m) = toLowerCase (address self)))
    ∧ ((∀ c, choiceMap (toLowerCase choiceRaw) ≠ OwnChoice c) →
       secrets (play_round toLowerCase self fuel matchId choiceRaw w).2 ⊆ secrets w).
Proof.
  assert (Hread : ∀ r, ¬ Exists is_write [EvGetMatch matchId r]).
  { intros r Hex. apply Exists_cons in Hex as [(? & ? & ? & [=]) | H]; inversion H. }
  destruct (play_round_guards fuel choiceRaw w)
    as [[Hkey Hrun] | [Hkey [(r & Ht & Hs) | (m & x & Hm & Hact & Hplayer & Hrun)]]].
  - exists []. rewrite Hrun. split; [reflexivity |]. split; [constructor |].
    split; [intros Hex; inversion Hex | reflexivity].
  - exists [EvGetMatch matchId r]. split; [exact Ht |]. split.
    { constructor; [intros ? ? ? [=] | constructor]. }
    split; [intros Hex; destruct (Hread r Hex) |].
    intros _. rewrite Hs. reflexivity.
  - rewrite Hrun.
    match goal with
    | |- context [play_round_phases toLowerCase self fuel matchId ?c ?p ?rn ?w0] =>
        destruct (writes_phases fuel c p rn w0) as (new & Ht & Hall);
        pose proof (no_new_secret_phases fuel c p rn) as Hstore;
        set (run := play_round_phases toLowerCase self fuel matchId c p rn w0) in *
    end.
    exists (new ++ [EvGetMatch matchId (Resolved m)]).
    split; [rewrite Ht; simpl; rewrite <- List.app_assoc; reflexivity |].
    split.
    { apply Forall_app. split; [exact Hall |].
      constructor; [intros ? ? ? [=] | constructor]. }
    split.
    + intros _. split.
      * destruct (choiceMap (toLowerCase choiceRaw)) as [c | |];
          [left; exists c; reflexivity | right; reflexivity | contradiction].
      * exists m. rewrite Hm. auto.
    + intros Hnot. exact (Hstore Hnot _).
Qed.
End PlayRoundWrites.

(** ** Matches in batches *)

Section BatchTheorems.
Context {E : Env}.
Variable X : EnvX E.

Lemma Zseq_app (start : Z) (a b : nat) :
  Zseq start (a + b) = Zseq start a ++ Zseq (start + Z.of_nat a) b.
Proof.
  revert start. induction a as [| a IH]; intros start.
  - simpl. rewrite Z.add_0_r. reflexivity.
  - cbn [Nat.add Zseq app]. rewrite IH. do 3 f_equal. lia.
Qed.

Lemma map_set_fresh {V} (k : Z) (v : V) (l : list (Z * V)) :
  Forall (fun p => p.1 ≠ k) l → map_set k v l = l ++ [(k, v)].
Proof.
  induction 1 as [| [k' v'] l Hk _ IH]; [reflexivity |].
  simpl in *. destruct (Z.eqb_spec k' k); [contradiction |]. now rewrite IH.
Qed.

Lemma kept_bounds (lo : Z) (rs : list (option MatchData)) (n : nat) :
  Forall (fun p => (lo <= p.1 < lo + Z.of_nat n)%Z) (kept (Zseq lo n) rs).
Proof.
  revert lo rs. induction n as [| n IH]; intros lo rs; [constructor |].
  destruct rs as [| [m |] rs]; cbn [Zseq kept]; [constructor | |].
  - constructor; [simpl; lia |].
    eapply Forall_impl; [apply IH |]. simpl. intros p Hp. lia.
  - eapply Forall_impl; [apply IH |]. simpl. intros p Hp. lia.
Qed.

Lemma kept_sorted (lo : Z) (rs : list (option MatchData)) (n : nat) :
  StronglySorted Z.lt (List.map fst (kept (Zseq lo n) rs)).
Proof.
  revert lo rs. induction n as [| n IH]; intros lo rs; [constructor |].
  destruct rs as [| [m |] rs]; cbn [Zseq kept]; [constructor | | apply IH].
  simpl. constructor; [apply IH |].
  apply Forall_map. eapply Forall_impl; [apply (kept_bounds (lo + 1) rs n) |].
  simpl. intros p Hp. lia.
Qed.

Lemma kept_app (a b : list Z) (ra rb : list (option MatchData)) :
  List.length ra = List.length a →
  kept (a ++ b) (ra ++ rb) = kept a ra ++ kept b rb.
Proof.
  revert ra. induction a as [| id a IH]; intros [| [m |] ra]; simpl; try discriminate.
  - reflexivity.
  - intros [= Hlen]. now rewrite IH.
  - intros [= Hlen]. now rewrite IH.
Qed.

Lemma storeResults_fresh (batchStart j : Z) (rs : list (option MatchData))
      (matches : list (Z * MatchData)) :
  Forall (fun p => (p.1 < batchStart + j)%Z) matches →
  storeResults batchStart j rs matches
  = matches ++ kept (Zseq (batchStart + j) (List.length rs)) rs.
Proof.
  revert j matches. induction rs as [| r rs IH]; intros j matches Hlt.
  - simpl. now rewrite List.app_nil_r.
  - cbn [storeResults List.length Zseq].
    replace (batchStart + j + 1)%Z with (batchStart + (j + 1))%Z by lia.
    destruct r as [m |]; cbn [kept].
    + rewrite map_set_fresh.
      2:{ eapply Forall_impl; [exact Hlt |]. simpl. intros p Hp. lia. }
      rewrite IH.
      * rewrite <- List.app_assoc. reflexivity.
      * apply Forall_app. split.
        -- eapply Forall_impl; [exact Hlt |]. simpl. intros p Hp. lia.
        -- constructor; [simpl; lia | constructor].
    + apply IH. eapply Forall_impl; [exact Hlt |]. simpl. intros p Hp. lia.
Qed.

Lemma requests_app (a b : list EventX) : requests (a ++ b) = requests a ++ requests b.
Proof.
  induction a as [| [] a IH]; simpl; try exact IH; [reflexivity |]. now rewrite IH.
Qed.

Lemma replies_app (a b : list EventX) : replies (a ++ b) = replies a ++ replies b.
Proof.
  induction a as [| [] a IH]; simpl; try exact IH; [reflexivity |].
  destruct r; simpl; now rewrite IH.
Qed.

Lemma length_batchIds (lo hi : Z) :
  List.length (batchIds lo hi) = Z.to_nat (hi - lo + 1).
Proof. apply length_Zseq. Qed.

(** The first batch of a range and the rest of the range. *)
Lemma batch_split (batchStart endId : Z) :
  (batchStart <= endId)%Z →
  let batchEnd := if (batchStart + 500 - 1 >? endId)%Z then endId
                  else (batchStart + 500 - 1)%Z in
  batchIds batchStart batchEnd
    ++ Zseq (batchStart + 500) (Z.to_nat (endId - (batchStart + 500) + 1))
  = Zseq batchStart (Z.to_nat (endId - batchStart + 1))
  ∧ batchIds batchStart batchEnd ≠ []
  ∧ (List.length (batchIds batchStart batchEnd) <= 500)%nat.
Proof.
  intros Hle. simpl.
  destruct (Z.gtb_spec (batchStart + 500 - 1) endId) as [Hlast | Hmore].
  - replace (Z.to_nat (endId - (batchStart + 500) + 1)) with 0%nat by lia.
    simpl. rewrite List.app_nil_r. split; [reflexivity |]. split.
    + intros Hnil. apply (f_equal (@List.length Z)) in Hnil.
      rewrite length_batchIds in Hnil. simpl in Hnil. lia.
    + rewrite length_batchIds. lia.
  - unfold batchIds.
    replace (Z.to_nat (batchStart + 500 - 1 - batchStart + 1)) with 500%nat by lia.
    replace (Z.to_nat (endId - batchStart + 1))
      with (500 + Z.to_nat (endId - (batchStart + 500) + 1))%nat by lia.
    rewrite Zseq_app. split; [reflexivity |]. split.
    + intros Hnil. apply (f_equal (@List.length Z)) in Hnil.
      rewrite length_Zseq in Hnil. discriminate.
    + rewrite length_Zseq. lia.
Qed.

(** The loop of [getMatches], with enough passes. *)
Lemma getMatches_loop_cases (fuel : nat) (batchStart endId : Z)
      (matches : list (Z * MatchData)) (w : World (logged E)) :
  (Z.to_nat (endId - batchStart + 1) < fuel)%nat →
  ∃ out w' new,
    getMatches_loop X fuel batchStart endId matches w = (out, w')
    ∧ xlog w' = new ++ xlog w
    ∧ trace w' = trace w
    ∧ secrets w' = secrets w
    ∧ Forall (fun ev => ∃ ids r, ev = EvMulticall ids r) new
    ∧ Forall (fun ids => ids ≠ [] ∧ (List.length ids <= 500)%nat) (requests new)
    ∧ match out with
      | Ok res =>
          concat (rev (requests new))
          = Zseq batchStart (Z.to_nat (endId - batchStart + 1))
          ∧ (multicall_aligned X →
             Forall (fun p => (p.1 < batchStart)%Z) matches →
             res = matches
                     ++ kept (Zseq batchStart (Z.to_nat (endId - batchStart + 1)))
                             (concat (rev (replies new))))
      | Throw _ =>
          ∃ rest, Zseq batchStart (Z.to_nat (endId - batchStart + 1))
                  = concat (rev (requests new)) ++ rest
      | OutOfFuel => False
      end.
Proof.
  revert batchStart matches w.
  induction fuel as [| fuel IH]; intros batchStart matches w Hfuel; [lia |].
  cbn [getMatches_loop].
  destruct (Z.leb_spec batchStart endId) as [Hle | Hgt].
  2:{ exists (Ok matches), w, []. simpl.
      replace (Z.to_nat (endId - batchStart + 1)) with 0%nat by lia.
      repeat split; auto. intros _ _. now rewrite List.app_nil_r. }
  unfold MULTICALL_BATCH.
  destruct (batch_split batchStart endId Hle) as (Hsplit & Hne & Hlen).
  set (batchEnd := if (batchStart + 500 - 1 >? endId)%Z then endId
                   else (batchStart + 500 - 1)%Z) in *.
  set (contracts := batchIds batchStart batchEnd) in *.
  unfold bind at 1. unfold ext_call.
  destruct (rpc_multicall X (inner w) contracts) as [x [rs | e]] eqn:Hmc.
  - set (w1 := mkWorld (E:=logged E) (x, EvMulticall contracts (Resolved rs) :: xlog w)
                       (secrets w) (trace w)).
    destruct (IH (batchStart + 500)%Z (storeResults batchStart 0 rs matches) w1)
      as (out & w' & new & Hq & Hx & Ht & Hs & Hall & Hreq & Hout); [lia |].
    exists out, w', (new ++ [EvMulticall contracts (Resolved rs)]).
    split; [exact Hq |].
    split; [rewrite Hx; unfold w1, xlog; simpl; rewrite <- List.app_assoc; reflexivity |].
    split; [exact Ht |]. split; [exact Hs |].
    split.
    { apply Forall_app. split; [exact Hall |].
      constructor; [eexists _, _; reflexivity | constructor]. }
    rewrite requests_app, replies_app. simpl.
    split.
    { apply Forall_app. split; [exact Hreq |].
      constructor; [split; assumption | constructor]. }
    rewrite !rev_app_distr. simpl.
    destruct out as [res | err |]; [| | exact Hout].
    + destruct Hout as [Hcat Hres]. split.
      * rewrite Hcat. exact Hsplit.
      * intros Haligned Hkeys.
        assert (Hrs : List.length rs = List.length contracts).
        { apply (Haligned (inner w)). rewrite Hmc. reflexivity. }
        assert (Hstore : storeResults batchStart 0 rs matches
                         = matches ++ kept contracts rs).
        { rewrite storeResults_fresh.
          - rewrite Z.add_0_r, Hrs. unfold contracts, batchIds.
            rewrite length_Zseq. reflexivity.
          - eapply Forall_impl; [exact Hkeys |]. simpl. intros p Hp. lia. }
        rewrite Hres; [| exact Haligned |].
        -- rewrite Hstore, <- List.app_assoc. f_equal.
           rewrite <- kept_app by exact Hrs. rewrite Hsplit. reflexivity.
        -- rewrite Hstore. apply Forall_app. split.
           ++ eapply Forall_impl; [exact Hkeys |]. simpl. intros p Hp. lia.
           ++ unfold contracts, batchIds.
              eapply Forall_impl; [apply kept_bounds |]. simpl. intros p Hp.
              unfold contracts in Hlen. rewrite length_batchIds in Hlen. lia.
    + destruct Hout as (rest & Hrest). exists rest.
      rewrite <- Hsplit, Hrest, <- List.app_assoc. reflexivity.
  - eexists (Throw e), _, [EvMulticall contracts (Rejected e)].
    split; [reflexivity |]. simpl.
    split; [reflexivity |]. split; [reflexivity |]. split; [reflexivity |].
    split; [constructor; [eexists _, _; reflexivity | constructor] |].
    split; [constructor; [split; assumption | constructor] |].
    exists (Zseq (batchStart + 500) (Z.to_nat (endId - (batchStart + 500) + 1))).
    rewrite List.app_nil_r. symmetry. exact Hsplit.
Qed.

(** [getMatches]: its loop with the passes it is given. *)
Lemma getMatches_cases (startId endId : Z) (w : World (logged E)) :
  ∃ out w' new,
    getMatches X startId endId w = (out, w')
    ∧ xlog w' = new ++ xlog w
    ∧ trace w' = trace w
    ∧ secrets w' = secrets w
    ∧ Forall (fun ev => ∃ ids r, ev = EvMulticall ids r) new
    ∧ Forall (fun ids => ids ≠ [] ∧ (List.length ids <= 500)%nat) (requests new)
    ∧ match out with
      | Ok res =>
          concat (rev (requests new)) = Zseq startId (Z.to_nat (endId - startId + 1))
          ∧ (multicall_aligned X →
             res = kept (Zseq startId (Z.to_nat (endId - startId + 1)))
                        (concat (rev (replies new)))
             ∧ StronglySorted Z.lt (List.map fst res)
             ∧ Forall (fun p => (startId <= p.1 <= endId)%Z) res)
      | Throw _ =>
          ∃ rest, Zseq startId (Z.to_nat (endId - startId + 1))
                  = concat (rev (requests new)) ++ rest
      | OutOfFuel => False
      end.
Proof.
  unfold getMatches.
  destruct (getMatches_loop_cases (S (Z.to_nat (endId - startId + 1))) startId endId [] w)
    as (out & w' & new & Hq & Hx & Ht & Hs & Hall & Hreq & Hout); [lia |].
  exists out, w', new. repeat (split; [assumption |]).
  destruct out as [res | e |]; [| exact Hout | exact Hout].
  destruct Hout as [Hcat Hres]. split; [exact Hcat |]. intros Haligned.
  specialize (Hres Haligned (List.Forall_nil _)). simpl in Hres.
  split; [exact Hres |]. rewrite Hres. split.
  - apply kept_sorted.
  - eapply Forall_impl; [apply kept_bounds |]. simpl. intros p Hp. lia.
Qed.

(** X13. [getMatches] asks for the range in batches of at most 500. It
    always returns or fails (its loop never runs short of passes); it
    touches neither the store nor the trace of the other calls; the
    multicall requests it makes are non-empty lists of at most 500 ids
    which, put end to end in the order they were made, are exactly the
    ids [startId .. endId] in ascending order when it returns, and a
    prefix of them when a multicall is rejected. An empty range makes no
    request. *)
Theorem getMatches_batches (startId endId : Z) (w : World (logged E)) :
  ∃ new,
    xlog (getMatches X startId endId w).2 = new ++ xlog w
    ∧ trace (getMatches X startId endId w).2 = trace w
    ∧ secrets (getMatches X startId endId w).2 = secrets w
    ∧ Forall (fun ev => ∃ ids r, ev = EvMulticall ids r) new
    ∧ Forall (fun ids => ids ≠ [] ∧ (List.length ids <= 500)%nat) (requests new)
    ∧ match (getMatches X startId endId w).1 with
      | Ok _ =>
          concat (rev (requests new)) = Zseq startId (Z.to_nat (endId - startId + 1))
      | Throw _ =>
          ∃ rest, Zseq startId (Z.to_nat (endId - startId + 1))
                  = concat (rev (requests new)) ++ rest
      | OutOfFuel => False
      end.
Proof.
  destruct (getMatches_cases startId endId w)
    as (out & w' & new & Hq & Hx & Ht & Hs & Hall & Hreq & Hout).
  rewrite Hq. exists new. simpl.
  repeat (split; [assumption |]).
  destruct out; [apply Hout | exact Hout | exact Hout].
Qed.

(** X14. What [getMatches] returns. When every multicall answers with
    one item per call, the map returned holds, in ascending order of id,
    exactly the ids of the range whose item came back with status
    "success", each with the data of its item: the failed items are left
    out, not reported. *)
Theorem getMatches_content (startId endId : Z) (w : World (logged E))
        (res : list (Z * MatchData)) :
  multicall_aligned X →
  (getMatches X startId endId w).1 = Ok res →
  ∃ new,
    xlog (getMatches X startId endId w).2 = new ++ xlog w
    ∧ res = kept (Zseq startId (Z.to_nat (endId - startId + 1)))
                 (concat (rev (replies new)))
    ∧ StronglySorted Z.lt (List.map fst res)
    ∧ Forall (fun p => (startId <= p.1 <= endId)%Z) res.
Proof.
  intros Haligned.
  destruct (getMatches_cases startId endId w)
    as (out & w' & new & Hq & Hx & _ & _ & _ & _ & Hout).
  rewrite Hq. simpl. intros ->. destruct Hout as [_ Hres].
  destruct (Hres Haligned) as (Heq & Hsorted & Hrange).
  exists new. auto.
Qed.
End BatchTheorems.

(** ** Joining, creating and refunding *)

Section MoreTheorems.
Context {E : Env}.
Variable X : EnvX E.
Variable arenaAddress : string.

Lemma getMatch_logged (matchId : Z) (w : World (logged E)) :
  getMatch matchId w
  = (match (rpc_getMatch E (inner w) matchId).2 with
     | Resolved m => Ok m
     | Rejected e => Throw e
     end,
     mkWorld (E:=logged E) ((rpc_getMatch E (inner w) matchId).1, xlog w) (secrets w)
             (EvGetMatch matchId (rpc_getMatch E (inner w) matchId).2 :: trace w)).
Proof.
  unfold getMatch, env_call, inner, xlog. simpl.
  destruct (rpc_getMatch E (ext w).1 matchId) as [x [m | e]]; reflexivity.
Qed.

Lemma ext_call_run {A} (f : env_state E → env_state E * Reply A) ev
      (w : World (logged E)) :
  ext_call f ev w
  = (match (f (inner w)).2 with
     | Resolved a => Ok a
     | Rejected e => Throw e
     end,
     mkWorld (E:=logged E) ((f (inner w)).1, ev (f (inner w)).2 :: xlog w)
             (secrets w) (trace w)).
Proof. unfold ext_call. destruct (f (inner w)) as [x [a | e]]; reflexivity. Qed.

(** What [approveUsdc] does: the write, the receipt (whose status it
    does not read), one second of sleep. *)
Lemma approveUsdc_cases (amount : Z) (w : World (logged E)) :
  let c := CallApprove arenaAddress amount in
  ∃ out w',
    approveUsdc X arenaAddress amount w = (out, w')
    ∧ secrets w' = secrets w
    ∧ ((∃ h rc, out = Ok h
                ∧ xlog w' = EvReceiptX c h (Resolved rc)
                              :: EvWriteX c None (Resolved h) :: xlog w
                ∧ trace w' = EvSleep 1000 :: trace w)
       ∨ (∃ e, out = Throw e
               ∧ trace w' = trace w
               ∧ (xlog w' = EvWriteX c None (Rejected e) :: xlog w
                  ∨ ∃ h, xlog w' = EvReceiptX c h (Rejected e)
                                     :: EvWriteX c None (Resolved h) :: xlog w))).
Proof.
  intros c. unfold approveUsdc, writeContractX, waitForTransactionReceiptX.
  fold c. unfold bind at 1. rewrite ext_call_run.
  destruct (rpc_writeX X (inner w) c None) as [x [h | e]]; simpl.
  2:{ eexists _, _. split; [reflexivity |]. split; [reflexivity |].
      right. exists e. auto. }
  unfold bind at 1. rewrite ext_call_run. unfold inner, xlog. simpl.
  destruct (rpc_receiptX X x h) as [x1 [rc | e]]; simpl.
  - eexists _, _. split; [reflexivity |]. split; [reflexivity |].
    left. exists h, rc. auto.
  - eexists _, _. split; [reflexivity |]. split; [reflexivity |].
    right. exists e. split; [reflexivity |]. split; [reflexivity |].
    right. exists h. reflexivity.
Qed.

(** The fee loop of [joinMatch]: it stops at the first read that shows a
    positive fee or is rejected, and after [n] reads otherwise. *)
Lemma joinMatch_fee_cases (n : nat) (matchId : Z) (fee : option Z)
      (w : World (logged E)) :
  ∃ out w' ms,
    joinMatch_fee n matchId fee w = (out, w')
    ∧ xlog w' = xlog w ∧ secrets w' = secrets w
    ∧ Forall (fun m => (entryFee m <= 0)%Z) ms
    ∧ ((out = Ok fee ∧ List.length ms = n
        ∧ trace w' = fee_polls matchId ms ++ trace w)
       ∨ (∃ m, out = Ok (Some (entryFee m)) ∧ (0 < entryFee m)%Z
               ∧ (List.length ms < n)%nat
               ∧ trace w' = EvGetMatch matchId (Resolved m)
                              :: fee_polls matchId ms ++ trace w)
       ∨ (∃ e, out = Throw e ∧ (List.length ms < n)%nat
               ∧ trace w' = EvGetMatch matchId (Rejected e)
                              :: fee_polls matchId ms ++ trace w)).
Proof.
  revert w. induction n as [| n IH]; intros w.
  - exists (Ok fee), w, []. simpl. auto 10.
  - cbn [joinMatch_fee]. unfold bind at 1. rewrite getMatch_logged.
    destruct (rpc_getMatch E (inner w) matchId) as [x [m | e]]; simpl.
    2:{ eexists _, _, []. split; [reflexivity |]. unfold xlog. simpl.
        split; [reflexivity |]. split; [reflexivity |]. split; [constructor |].
        right; right. exists e. simpl. split; [reflexivity |]. split; [lia | reflexivity]. }
    destruct (Z.gtb_spec (entryFee m) 0) as [Hpos | Hnon].
    { eexists _, _, []. split; [reflexivity |]. unfold xlog. simpl.
      split; [reflexivity |]. split; [reflexivity |]. split; [constructor |].
      right; left. exists m. simpl. repeat split; auto; lia. }
    unfold bind at 1. unfold sleep. simpl.
    match goal with
    | |- context [joinMatch_fee n matchId fee ?w0] =>
        destruct (IH w0) as (out & w' & ms & Hq & Hx & Hs & Hall & Hcase)
    end.
    rewrite Hq. exists out, w', (m :: ms). split; [reflexivity |].
    unfold xlog in *. simpl in *. split; [exact Hx |]. split; [exact Hs |].
    split; [constructor; [lia | exact Hall] |].
    destruct Hcase as [(Ho & Hlen & Ht) | [(m' & Ho & Hp & Hlen & Ht) | (e & Ho & Hlen & Ht)]].
    + left. split; [exact Ho |]. split; [lia |].
      rewrite Ht, <- List.app_assoc. reflexivity.
    + right; left. exists m'. split; [exact Ho |]. split; [exact Hp |]. split; [lia |].
      rewrite Ht, <- List.app_assoc. reflexivity.
    + right; right. exists e. split; [exact Ho |]. split; [lia |].
      rewrite Ht, <- List.app_assoc. reflexivity.
Qed.

(** The part of [joinMatch] that pays and joins, once the fee is known. *)
Lemma joinMatch_pays (matchId fee : Z) (w : World (logged E)) :
  let approve := CallApprove arenaAddress fee in
  let join := CallJoinMatch matchId in
  ∃ out w' pre r post,
    (approveUsdc X arenaAddress fee ;;
     let* hash := writeContractX X join None in
     waitForTransactionReceiptX X join hash ;;
     ret hash) w = (out, w')
    ∧ secrets w' = secrets w
    ∧ xlog w' = pre ++ EvWriteX approve None r :: xlog w
    ∧ trace w' = post ++ trace w
    ∧ (post = [] ∨ post = [EvSleep 1000])
    ∧ match out with
      | Ok h =>
          ∃ h1 rc1 rc2,
            xlog w' = EvReceiptX join h (Resolved rc2)
                        :: EvWriteX join None (Resolved h)
                        :: EvReceiptX approve h1 (Resolved rc1)
                        :: EvWriteX approve None (Resolved h1) :: xlog w
      | Throw e => ∃ ev older, xlog w' = ev :: older ∧ rejectedX e ev
      | OutOfFuel => False
      end.
Proof.
  intros approve join. unfold bind at 1.
  destruct (approveUsdc_cases fee w) as (out1 & w1 & Hq & Hs & Hcase).
  rewrite Hq. fold approve in Hcase.
  destruct Hcase as [(h1 & rc1 & -> & Hx & Ht) | (e & -> & Ht & Hx)].
  2:{ destruct Hx as [Hx | (h1 & Hx)].
      - exists (Throw e), w1, [], (Rejected e), [].
        split; [reflexivity |]. split; [exact Hs |]. split; [exact Hx |].
        split; [exact Ht |]. split; [auto |].
        eexists _, _. split; [exact Hx |]. left. eexists _, _. reflexivity.
      - eexists (Throw e), w1, [_], _, [].
        split; [reflexivity |]. split; [exact Hs |]. split; [exact Hx |].
        split; [exact Ht |]. split; [auto |].
        eexists _, _. split; [exact Hx |]. right. eexists _, _. reflexivity. }
  unfold writeContractX, waitForTransactionReceiptX.
  unfold bind at 1. rewrite ext_call_run.
  destruct (rpc_writeX X (inner w1) join None) as [x [h | e]]; simpl.
  2:{ eexists _, _, [_; _], _, [_]. split; [reflexivity |]. unfold xlog in *. simpl.
      split; [exact Hs |]. split; [rewrite Hx; reflexivity |].
      split; [rewrite Ht; reflexivity |]. split; [auto |].
      eexists _, _. split; [reflexivity |]. left. eexists _, _. reflexivity. }
  unfold bind at 1. rewrite ext_call_run. unfold inner, xlog in *. simpl.
  destruct (rpc_receiptX X x h) as [x1 [rc2 | e]]; simpl.
  - eexists _, _, [_; _; _], _, [_]. split; [reflexivity |]. simpl.
    split; [exact Hs |]. split; [rewrite Hx; reflexivity |].
    split; [rewrite Ht; reflexivity |]. split; [auto |].
    exists h1, rc1, rc2. rewrite Hx. reflexivity.
  - eexists _, _, [_; _; _], _, [_]. split; [reflexivity |]. simpl.
    split; [exact Hs |]. split; [rewrite Hx; reflexivity |].
    split; [rewrite Ht; reflexivity |]. split; [auto |].
    eexists _, _. split; [reflexivity |]. right. eexists _, _. reflexivity.
Qed.

(** X15. [joinMatch] without a fee looks the fee up before it pays.
    Called with no fee (or with 0), it reads the match up to 5 times, one
    second apart, until a read shows a positive entry fee. It then
    approves exactly that fee; the approval is the first thing it
    submits. After 5 reads without a positive fee it throws "Could not
    get entry fee", and after a rejected read it throws the rejection:
    in both cases nothing has been submitted. *)
Theorem joinMatch_looks_up_the_fee (matchId : Z) (entryFee0 : option Z)
        (w : World (logged E)) :
  falsy entryFee0 = true →
  ∃ ms,
    Forall (fun m => (entryFee m <= 0)%Z) ms
    ∧ ((List.length ms = 5%nat
        ∧ (joinMatch X arenaAddress matchId entryFee0 w).1
          = Throw ("Could not get entry fee for match " +:+ pretty matchId)
        ∧ trace (joinMatch X arenaAddress matchId entryFee0 w).2
          = fee_polls matchId ms ++ trace w
        ∧ xlog (joinMatch X arenaAddress matchId entryFee0 w).2 = xlog w)
       ∨ (∃ e, (List.length ms < 5)%nat
               ∧ (joinMatch X arenaAddress matchId entryFee0 w).1 = Throw e
               ∧ trace (joinMatch X arenaAddress matchId entryFee0 w).2
                 = EvGetMatch matchId (Rejected e) :: fee_polls matchId ms ++ trace w
               ∧ xlog (joinMatch X arenaAddress matchId entryFee0 w).2 = xlog w)
       ∨ (∃ m pre r post,
             (0 < entryFee m)%Z ∧ (List.length ms < 5)%nat
             ∧ xlog (joinMatch X arenaAddress matchId entryFee0 w).2
               = pre ++ EvWriteX (CallApprove arenaAddress (entryFee m)) None r
                     :: xlog w
             ∧ trace (joinMatch X arenaAddress matchId entryFee0 w).2
               = post ++ EvGetMatch matchId (Resolved m)
                      :: fee_polls matchId ms ++ trace w)).
Proof.
  intros Hfalsy.
  destruct (joinMatch X arenaAddress matchId entryFee0 w) as [out w'] eqn:Hrun.
  simpl. unfold joinMatch in Hrun. rewrite Hfalsy in Hrun.
  unfold bind at 1 in Hrun. unfold bind at 1 in Hrun.
  destruct (joinMatch_fee_cases 5 matchId entryFee0 w)
    as (out1 & w1 & ms & Hq & Hx & Hs & Hall & Hcase).
  rewrite Hq in Hrun. exists ms. split; [exact Hall |].
  destruct Hcase as [(-> & Hlen & Ht) | [(m & -> & Hpos & Hlen & Ht) | (e & -> & Hlen & Ht)]].
  - left. rewrite Hfalsy in Hrun. simpl in Hrun. injection Hrun as <- <-. auto.
  - right; right. cbn [falsy] in Hrun.
    destruct (Z.eqb_spec (entryFee m) 0) as [H0 | _]; [lia |].
    cbn [ret] in Hrun.
    destruct (joinMatch_pays matchId (entryFee m) w1)
      as (out2 & w2 & pre & r & post & Hq2 & _ & Hx2 & Ht2 & _).
    rewrite Hq2 in Hrun. injection Hrun as <- <-. exists m, pre, r, post.
    split; [exact Hpos |]. split; [exact Hlen |].
    split; [rewrite Hx2, Hx; reflexivity |].
    rewrite Ht2, Ht. reflexivity.
  - right; left. exists e. simpl in Hrun. injection Hrun as <- <-. auto.
Qed.

(** X16. [joinMatch] does not read the status of its receipts. Given a
    fee (not 0) it reads nothing; it submits the approval of exactly that
    fee to the arena, awaits its receipt, sleeps one second, submits the
    join and awaits its receipt. It resolves with the hash of the join
    whenever both submissions were accepted and both receipts delivered,
    whatever status the receipts carry; it throws only when a submission
    or the delivery of a receipt is rejected. *)
Theorem joinMatch_ignores_receipt_status (matchId fee : Z) (w : World (logged E)) :
  fee ≠ 0%Z →
  let approve := CallApprove arenaAddress fee in
  let join := CallJoinMatch matchId in
  let run := joinMatch X arenaAddress matchId (Some fee) w in
  (trace run.2 = trace w ∨ trace run.2 = EvSleep 1000 :: trace w)
  ∧ match run.1 with
    | Ok h =>
        ∃ h1 rc1 rc2,
          xlog run.2 = EvReceiptX join h (Resolved rc2)
                         :: EvWriteX join None (Resolved h)
                         :: EvReceiptX approve h1 (Resolved rc1)
                         :: EvWriteX approve None (Resolved h1) :: xlog w
    | Throw e => ∃ ev older, xlog run.2 = ev :: older ∧ rejectedX e ev
    | OutOfFuel => False
    end.
Proof.
  intros Hfee approve join run. subst run.
  destruct (joinMatch X arenaAddress matchId (Some fee) w) as [out0 w0] eqn:Hrun.
  simpl. unfold joinMatch in Hrun. cbn [falsy] in Hrun.
  destruct (Z.eqb_spec fee 0) as [H0 | _]; [contradiction |].
  unfold bind at 1 in Hrun. cbn [ret] in Hrun.
  destruct (joinMatch_pays matchId fee w)
    as (out & w' & pre & r & post & Hq & _ & _ & Ht & Hpost & Hout).
  rewrite Hq in Hrun. injection Hrun as <- <-. split; [| exact Hout].
  destruct Hpost as [-> | ->]; rewrite Ht; auto.
Qed.

(** What [sendX] does: it resolves exactly when the write was accepted
    and its receipt reports "success". *)
Lemma sendX_cases c gas what (w : World (logged E)) :
  ∃ out w',
    sendX X c gas what w = (out, w')
    ∧ secrets w' = secrets w ∧ trace w' = trace w
    ∧ ((∃ h rc, out = Ok h ∧ rc_status rc = "success"
                ∧ xlog w' = EvReceiptX c h (Resolved rc)
                              :: EvWriteX c (Some gas) (Resolved h) :: xlog w)
       ∨ (∃ e, out = Throw e
               ∧ ∃ pre r, xlog w' = pre ++ EvWriteX c (Some gas) r :: xlog w)).
Proof.
  unfold sendX, writeContractX, waitForTransactionReceiptX.
  unfold bind at 1. rewrite ext_call_run.
  destruct (rpc_writeX X (inner w) c (Some gas)) as [x [h | e]]; simpl.
  2:{ eexists _, _. split; [reflexivity |]. split; [reflexivity |].
      split; [reflexivity |]. right. exists e. split; [reflexivity |].
      exists [], (Rejected e). reflexivity. }
  unfold bind at 1. rewrite ext_call_run. unfold inner, xlog. simpl.
  destruct (rpc_receiptX X x h) as [x1 [rc | e]]; simpl.
  - unfold str_neq. destruct (String.eqb_spec (rc_status rc) "success") as [Hok | Hno];
      simpl.
    + eexists _, _. split; [reflexivity |]. split; [reflexivity |].
      split; [reflexivity |]. left. exists h, rc. auto.
    + eexists _, _. split; [reflexivity |]. split; [reflexivity |].
      split; [reflexivity |]. right. eexists. split; [reflexivity |].
      eexists [_], _. reflexivity.
  - eexists _, _. split; [reflexivity |]. split; [reflexivity |].
    split; [reflexivity |]. right. exists e. split; [reflexivity |].
    eexists [_], _. reflexivity.
Qed.

(** X17. [claim_refund] reports a refund only after a confirmed
    transaction. When its read of the match is rejected it throws that
    error and submits nothing. Otherwise it answers REFUNDED only when the
    receipt of the transaction it submitted says "success":
    [claimMatchExpiry] (gas 500000) for a match it read as ACTIVE,
    [cancelMatch] (gas 150000) for one it read as WAITING. For any other
    state it answers NO_ACTION and submits nothing. After a resolved read
    it throws only after trying one of the two transactions. *)
Theorem claim_refund_reports (matchId : Z) (w : World (logged E)) :
  match (rpc_getMatch E (inner w) matchId).2 with
  | Rejected e =>
      (claim_refund X matchId w).1 = Throw e
      ∧ xlog (claim_refund X matchId w).2 = xlog w
  | Resolved m =>
      match (claim_refund X matchId w).1 with
      | Ok (CRRefunded _ _ _) =>
          ∃ c gas h rc,
            xlog (claim_refund X matchId w).2
            = EvReceiptX c h (Resolved rc) :: EvWriteX c (Some gas) (Resolved h) :: xlog w
            ∧ rc_status rc = "success"
            ∧ ((state m = MatchState.ACTIVE
                ∧ c = CallClaimMatchExpiry matchId ∧ gas = 500000%Z)
               ∨ (state m = MatchState.WAITING
                  ∧ c = CallCancelMatch matchId ∧ gas = 150000%Z))
      | Ok (CRNoAction _ _) =>
          xlog (claim_refund X matchId w).2 = xlog w
          ∧ state m ≠ MatchState.ACTIVE ∧ state m ≠ MatchState.WAITING
      | Throw _ =>
          (state m = MatchState.ACTIVE ∨ state m = MatchState.WAITING)
          ∧ ∃ pre c gas r,
              xlog (claim_refund X matchId w).2 = pre ++ EvWriteX c gas r :: xlog w
      | OutOfFuel => False
      end
  end.
Proof.
  destruct (claim_refund X matchId w) as [out w'] eqn:Hrun. simpl.
  unfold claim_refund in Hrun. unfold bind at 1 in Hrun.
  rewrite getMatch_logged in Hrun.
  destruct ((rpc_getMatch E (inner w) matchId).2) as [m | e0].
  2:{ injection Hrun as <- <-. split; reflexivity. }
  destruct (Z.eqb_spec (state m) MatchState.ACTIVE) as [Hact | Hact].
  { unfold bind at 1, claimMatchExpiry in Hrun.
    match type of Hrun with
    | context [sendX X ?c ?g ?what ?w0] =>
        destruct (sendX_cases c g what w0) as (out1 & w1 & Hq & _ & _ & Hcase)
    end.
    rewrite Hq in Hrun. unfold xlog in Hcase. simpl in Hcase.
    destruct Hcase as [(h & rc & -> & Hok & Hx) | (e & -> & pre & r & Hx)];
      simpl in Hrun; injection Hrun as <- <-.
    - eexists _, _, h, rc. split; [exact Hx |]. split; [exact Hok |]. left. auto.
    - split; [auto |]. eexists pre, _, _, r. exact Hx. }
  destruct (Z.eqb_spec (state m) MatchState.WAITING) as [Hwait | Hwait].
  { unfold bind at 1, cancelMatch in Hrun.
    match type of Hrun with
    | context [sendX X ?c ?g ?what ?w0] =>
        destruct (sendX_cases c g what w0) as (out1 & w1 & Hq & _ & _ & Hcase)
    end.
    rewrite Hq in Hrun. unfold xlog in Hcase. simpl in Hcase.
    destruct Hcase as [(h & rc & -> & Hok & Hx) | (e & -> & pre & r & Hx)];
      simpl in Hrun; injection Hrun as <- <-.
    - eexists _, _, h, rc. split; [exact Hx |]. split; [exact Hok |]. right. auto.
    - split; [auto |]. eexists pre, _, _, r. exact Hx. }
  destruct (state m =? MatchState.COMPLETE)%Z; simpl in Hrun;
    injection Hrun as <- <-; auto.
Qed.


End MoreTheorems.

(** ** Open matches *)

Section OpenMatches.
Context {E : Env}.
Variable X : EnvX E.

Lemma sublist_sorted {A} (R : A → A → Prop) (l1 l2 : list A) :
  sublist l1 l2 → StronglySorted R l2 → StronglySorted R l1.
Proof.
  induction 1 as [| x l1 l2 Hsub IH | x l1 l2 Hsub IH]; intros Hsorted.
  - constructor.
  - apply StronglySorted_inv in Hsorted as [Hrest Hx]. constructor; [auto |].
    rewrite List.Forall_forall in *. intros y Hy. apply Hx.
    apply list_elem_of_In. apply (sublist_subseteq _ _ Hsub).
    apply list_elem_of_In. exact Hy.
  - apply StronglySorted_inv in Hsorted as [Hrest _]. auto.
Qed.

Lemma kept_length (ids : list Z) (rs : list (option MatchData)) :
  (List.length (kept ids rs) <= List.length ids)%nat.
Proof.
  revert rs. induction ids as [| id ids IH]; intros [| [m |] rs]; simpl; try lia.
  - specialize (IH rs). lia.
  - specialize (IH rs). lia.
Qed.

(** The scan of [findOpenMatches]: it keeps, in order, matches that are
    WAITING and were not older than the join timeout at a clock read. *)
Lemma scanOpen_cases (allMatches : list (Z * MatchData)) (open : list MatchInfo)
      (w : World (logged E)) :
  ∃ infos w' new,
    scanOpen allMatches open w = (Ok (open ++ infos), w')
    ∧ trace w' = new ++ trace w
    ∧ xlog w' = xlog w
    ∧ secrets w' = secrets w
    ∧ Forall (fun ev => ∃ t, ev = EvNow t) new
    ∧ sublist (List.map mi_matchId infos) (List.map fst allMatches)
    ∧ Forall (fun i => mi_state i = Some "Waiting"
                       ∧ ∃ t, In (EvNow t) new
                              ∧ (t / 1000 <= mi_createdAt i + JOIN_TIMEOUT)%Z) infos.
Proof.
  revert open w. induction allMatches as [| [id m] rest IH]; intros open w.
  - exists [], w, []. simpl. rewrite List.app_nil_r.
    repeat split; auto; constructor.
  - cbn [scanOpen].
    destruct (Z.eqb_spec (state m) MatchState.WAITING) as [Hst | Hst].
    2:{ destruct (IH open w) as (infos & w' & new & Hq & Ht & Hx & Hs & Hall & Hsub & Hok).
        exists infos, w', new. repeat (split; [assumption |]).
        split; [| exact Hok]. simpl. apply sublist_cons. exact Hsub. }
    unfold bind at 1. unfold dateNow. simpl.
    destruct (clock_now E (ext w).1) as [x t]; simpl.
    destruct (Z.leb_spec (t / 1000) (createdAt m + JOIN_TIMEOUT)) as [Hfresh | Hold].
    + match goal with
      | |- context [scanOpen rest ?acc ?w0] =>
          destruct (IH acc w0) as (infos & w' & new & Hq & Ht & Hx & Hs & Hall & Hsub & Hok)
      end.
      exists (matchInfo (E:=E) id m :: infos), w', (new ++ [EvNow t]).
      split; [rewrite Hq, <- List.app_assoc; reflexivity |].
      split; [rewrite Ht; simpl; rewrite <- List.app_assoc; reflexivity |].
      split; [exact Hx |]. split; [exact Hs |].
      split; [apply Forall_app; split; [exact Hall |];
              constructor; [eexists; reflexivity | constructor] |].
      split; [simpl; apply sublist_skip; exact Hsub |].
      constructor.
      * split; [simpl; rewrite Hst; reflexivity |].
        exists t. split; [apply in_or_app; right; left; reflexivity | exact Hfresh].
      * eapply Forall_impl; [exact Hok |]. simpl.
        intros i (Hi & t' & Hin & Hle). split; [exact Hi |].
        exists t'. split; [apply in_or_app; left; exact Hin | exact Hle].
    + match goal with
      | |- context [scanOpen rest ?acc ?w0] =>
          destruct (IH acc w0) as (infos & w' & new & Hq & Ht & Hx & Hs & Hall & Hsub & Hok)
      end.
      exists infos, w', (new ++ [EvNow t]).
      split; [exact Hq |].
      split; [rewrite Ht; simpl; rewrite <- List.app_assoc; reflexivity |].
      split; [exact Hx |]. split; [exact Hs |].
      split; [apply Forall_app; split; [exact Hall |];
              constructor; [eexists; reflexivity | constructor] |].
      split; [simpl; apply sublist_cons; exact Hsub |].
      eapply Forall_impl; [exact Hok |]. simpl.
      intros i (Hi & t' & Hin & Hle). split; [exact Hi |].
      exists t'. split; [apply in_or_app; left; exact Hin | exact Hle].
Qed.

(** X19. What [findOpenMatches] lists. When every multicall answers with
    one item per call, the list it returns is in ascending order of match
    id and has at most 50 entries; every entry is a match among the last
    50 ids up to the match counter it read (and at least 1), in state
    "Waiting", that was at most [JOIN_TIMEOUT] = 600 seconds old by a
    wall-clock read made during the scan. *)
Theorem findOpenMatches_lists (w : World (logged E)) (infos : list MatchInfo) :
  multicall_aligned X →
  (findOpenMatches X w).1 = Ok infos →
  ∃ counter new,
    (rpc_matchCounter X (inner w)).2 = Resolved counter
    ∧ trace (findOpenMatches X w).2 = new ++ trace w
    ∧ StronglySorted Z.lt (List.map mi_matchId infos)
    ∧ (List.length infos <= 50)%nat
    ∧ Forall (fun i => (1 <= mi_matchId i)%Z
                       ∧ (counter - 50 < mi_matchId i <= counter)%Z
                       ∧ mi_state i = Some "Waiting"
                       ∧ ∃ t, In (EvNow t) new
                              ∧ (t / 1000 <= mi_createdAt i + JOIN_TIMEOUT)%Z) infos.
Proof.
  intros Haligned.
  destruct (findOpenMatches X w) as [out w'] eqn:Hrun. simpl. intros ->.
  unfold findOpenMatches in Hrun. unfold bind at 1 in Hrun.
  unfold getMatchCounter in Hrun. rewrite ext_call_run in Hrun.
  destruct (rpc_matchCounter X (inner w)) as [x [counter | e]]; simpl in Hrun;
    [| discriminate Hrun].
  exists counter.
  set (start := if (counter >? 50)%Z then (counter - 50 + 1)%Z else 1%Z) in *.
  unfold bind at 1 in Hrun.
  match type of Hrun with
  | context [getMatches X start counter ?w0] =>
      destruct (getMatches_cases X start counter w0)
        as (out1 & w1 & xnew & Hq1 & _ & Htr & _ & _ & _ & Hout1)
  end.
  rewrite Hq1 in Hrun.
  destruct out1 as [all | e |]; [| discriminate Hrun | discriminate Hrun].
  destruct Hout1 as [_ Hcontent].
  destruct (Hcontent Haligned) as (Hall & Hsorted & Hrange).
  simpl in Htr.
  destruct (scanOpen_cases all [] w1) as (found & w2 & new & Hq & Ht & _ & _ & _ & Hsub & Hok).
  rewrite Hq in Hrun. simpl in Hrun. injection Hrun as <- <-.
  exists new. split; [reflexivity |]. split; [rewrite Ht, Htr; reflexivity |].
  split; [eapply sublist_sorted; eassumption |].
  assert (Hstart : (1 <= start ∧ counter - 50 < start)%Z).
  { unfold start. destruct (Z.gtb_spec counter 50); lia. }
  split.
  { apply sublist_length in Hsub. rewrite !List.length_map in Hsub.
    etransitivity; [exact Hsub |]. rewrite Hall.
    etransitivity; [apply kept_length |]. rewrite length_Zseq. lia. }
  rewrite List.Forall_forall. intros i Hi.
  rewrite List.Forall_forall in Hok. destruct (Hok i Hi) as (Hstate & Hfresh).
  assert (Hin : In (mi_matchId i) (List.map fst all)).
  { apply list_elem_of_In. apply (sublist_subseteq _ _ Hsub).
    apply list_elem_of_In. apply List.in_map. exact Hi. }
  apply List.in_map_iff in Hin as (p & Hp & Hpin).
  rewrite List.Forall_forall in Hrange. specialize (Hrange p Hpin). simpl in Hrange.
  rewrite <- Hp. repeat split; try assumption; lia.
Qed.
End OpenMatches.

(** *** Concrete runs of this part *)

Lemma scriptedX_aligned sc counter status logs :
  multicall_aligned (scriptedX sc counter status logs).
Proof.
  intros x ids rs. simpl. intros [= <-]. apply List.length_map.
Qed.

Lemma getMatches_content_witness :
  ∃ new,
    xlog batchRun.2 = new
    ∧ [(2%Z, openMatch 1000000)] = kept (Zseq 1 3) (concat (rev (replies new)))
    ∧ StronglySorted Z.lt (List.map fst [(2%Z, openMatch 1000000)]).
Proof.
  destruct (getMatches_content (scriptedX syncScript 3 "success" []) 1 3
              (startWorldX syncScript) [(2%Z, openMatch 1000000)])
    as (new & Hx & Hres & Hsorted & _).
  - apply scriptedX_aligned.
  - vm_compute. reflexivity.
  - exists new. split; [rewrite List.app_nil_r in Hx; exact Hx |].
    split; [exact Hres | exact Hsorted].
Defined.

Lemma findOpenMatches_lists_witness :
  ∃ new,
    trace openRun.2 = new
    ∧ Forall (fun i => (1 <= mi_matchId i)%Z
                       ∧ (3 - 50 < mi_matchId i <= 3)%Z
                       ∧ mi_state i = Some "Waiting"
                       ∧ ∃ t, In (EvNow t) new
                              ∧ (t / 1000 <= mi_createdAt i + JOIN_TIMEOUT)%Z)
             [matchInfo (E:=scripted syncScript) 2 (openMatch 1000000)].
Proof.
  destruct (findOpenMatches_lists (scriptedX syncScript 3 "success" [])
              (startWorldX syncScript)
              [matchInfo (E:=scripted syncScript) 2 (openMatch 1000000)])
    as (counter & new & Hc & Ht & _ & _ & Hall).
  - apply scriptedX_aligned.
  - vm_compute. reflexivity.
  - simpl in Hc. injection Hc as <-. exists new.
    split; [rewrite List.app_nil_r in Ht; exact Ht | exact Hall].
Defined.

Lemma joinMatch_looks_up_the_fee_witness :
  ∃ ms,
    Forall (fun m => (entryFee m <= 0)%Z) ms
    ∧ ∃ pre r post,
        xlog lookupRun.2 = pre ++ [EvWriteX (CallApprove demoArena 1000000) None r]
        ∧ trace lookupRun.2
          = post ++ EvGetMatch 7 (Resolved (openMatch 1000000)) :: fee_polls 7 ms.
Proof.
  destruct (joinMatch_looks_up_the_fee (scriptedX syncScript 3 "reverted" []) demoArena
              7 None (startWorldX syncScript) eq_refl)
    as (ms & Hall & [(_ & Hout & _) | [(e & _ & Hout & _) | Hfound]]).
  - exfalso.
    assert (Hrun : lookupRun.1 = Ok "0xbeef") by (vm_compute; reflexivity).
    unfold lookupRun in Hrun. rewrite Hrun in Hout. discriminate Hout.
  - exfalso.
    assert (Hrun : lookupRun.1 = Ok "0xbeef") by (vm_compute; reflexivity).
    unfold lookupRun in Hrun. rewrite Hrun in Hout. discriminate Hout.
  - destruct Hfound as (m & pre & r & post & Hpos & _ & Hx & Ht).
    rewrite List.app_nil_r in Ht.
    assert (Hfee : ∀ m', In (EvGetMatch 7 (Resolved m')) (trace lookupRun.2) →
                         m' = openMatch 0 ∨ m' = openMatch 1000000).
    { vm_compute. intros m' H.
      repeat (destruct H as [H | H]; [try discriminate H; injection H as <-; auto |]).
      destruct H. }
    unfold lookupRun in Hfee.
    assert (Hm : m = openMatch 0 ∨ m = openMatch 1000000).
    { apply Hfee. rewrite Ht. apply in_or_app. right. left. reflexivity. }
    destruct Hm as [-> | ->]; [simpl in Hpos; lia |].
    exists ms. split; [exact Hall |]. exists pre, r, post. split; [exact Hx | exact Ht].
Defined.

Lemma joinMatch_ignores_receipt_status_witness :
  ∃ h1 h,
    revertedRun.1 = Ok h
    ∧ xlog revertedRun.2
      = [EvReceiptX (CallJoinMatch 7) h (Resolved (mkReceipt "reverted" []));
         EvWriteX (CallJoinMatch 7) None (Resolved h);
         EvReceiptX (CallApprove demoArena 1000000) h1
                    (Resolved (mkReceipt "reverted" []));
         EvWriteX (CallApprove demoArena 1000000) None (Resolved h1)].
Proof.
  destruct (joinMatch_ignores_receipt_status (scriptedX syncScript 3 "reverted" [])
              demoArena 7 1000000 (startWorldX syncScript)) as [_ Hout].
  - discriminate.
  - assert (Hrun : revertedRun.1 = Ok "0xbeef") by (vm_compute; reflexivity).
    unfold revertedRun in Hrun. rewrite Hrun in Hout.
    destruct Hout as (h1 & rc1 & rc2 & Hx).
    assert (Hlog : ∀ c h rc, In (EvReceiptX c h (Resolved rc)) (xlog revertedRun.2) →
                             rc = mkReceipt "reverted" []).
    { vm_compute. intros c h rc H.
      repeat (destruct H as [H | H]; [try discriminate H; injection H as _ _ <-; auto |]).
      destruct H. }
    unfold revertedRun in Hlog.
    assert (H1 : rc1 = mkReceipt "reverted" []).
    { eapply Hlog. rewrite Hx. right; right; left. reflexivity. }
    assert (H2 : rc2 = mkReceipt "reverted" []).
    { eapply Hlog. rewrite Hx. left. reflexivity. }
    subst rc1 rc2. exists h1, "0xbeef". split; [exact Hrun | exact Hx].
Defined.

Lemma claim_refund_reports_witness :
  ∃ h rc,
    xlog refundRun.2
    = [EvReceiptX (CallCancelMatch 7) h (Resolved rc);
       EvWriteX (CallCancelMatch 7) (Some 150000%Z) (Resolved h)]
    ∧ rc_status rc = "success".
Proof.
  pose proof (claim_refund_reports (scriptedX syncScript 3 "success" []) 7
                (startWorldX syncScript)) as H.
  change (rpc_getMatch _ (inner (startWorldX syncScript)) 7).2
    with (Resolved (openMatch 0)) in H.
  assert (Hrun : refundRun.1
                 = Ok (CRRefunded 7 "Match cancelled (no opponent joined within timeout)"
                                  "Entry fee refunded."))
    by (vm_compute; reflexivity).
  unfold refundRun in Hrun. rewrite Hrun in H.
  destruct H as (c & gas & h & rc & Hx & Hok & [(Hst & _) | (_ & -> & ->)]).
  - discriminate Hst.
  - exists h, rc. split; [exact Hx | exact Hok].
Defined.


(** ** The leaderboard *)

Section LeaderboardTheorems.
Context {E : Env}.
Variable X : EnvX E.
Variable winRateText : Z → Z → string.

Lemma smap_update_keys k f (sm : list (string * Stats)) :
  List.map fst (smap_update k f sm) = List.map fst sm.
Proof.
  unfold smap_update. rewrite List.map_map. apply List.map_ext.
  intros [k' s]. simpl. destruct (String.eqb k' k); reflexivity.
Qed.

Lemma smap_has_false k (sm : list (string * Stats)) :
  smap_has k sm = false → ¬ In k (List.map fst sm).
Proof.
  unfold smap_has. intros Hno Hin. apply List.in_map_iff in Hin as ([k' s] & <- & Hin).
  assert (Hyes : List.existsb (fun p : string * Stats => String.eqb p.1 k') sm = true).
  { apply List.existsb_exists. exists (k', s). split; [exact Hin |]. apply String.eqb_refl. }
  simpl in Hno. congruence.
Qed.

(** The change of the sum of a counter under an update of one key. *)
Lemma sumZ_update (g : Stats → Z) k f (d : Z) (sm : list (string * Stats)) :
  NoDup (List.map fst sm) →
  (0 <= d)%Z →
  (∀ s, g (f s) = g s + d)%Z →
  (sumZ (fun p => g p.2) sm <= sumZ (fun p => g p.2) (smap_update k f sm)
                               <= sumZ (fun p => g p.2) sm + d)%Z.
Proof.
  intros Hnd Hd Hf. induction sm as [| [k' s] sm IH]; simpl; [lia |].
  apply NoDup_cons in Hnd as [Hfresh Hnd].
  destruct (String.eqb_spec k' k) as [-> | Hne]; simpl.
  - rewrite Hf.
    assert (Hsame : smap_update k f sm = sm).
    { unfold smap_update. rewrite <- (List.map_id sm) at 2. apply List.map_ext_in.
      intros [k2 s2] Hin. simpl. destruct (String.eqb_spec k2 k) as [-> | _]; [| reflexivity].
      exfalso. apply Hfresh. apply list_elem_of_In. apply List.in_map_iff.
      exists (k, s2). auto. }
    rewrite Hsame. lia.
  - specialize (IH Hnd). lia.
Qed.

Lemma sumZ_update_same (g : Stats → Z) k f (sm : list (string * Stats)) :
  (∀ s, g (f s) = g s) →
  sumZ (fun p => g p.2) (smap_update k f sm) = sumZ (fun p => g p.2) sm.
Proof.
  intros Hf. induction sm as [| [k' s] sm IH]; simpl; [reflexivity |].
  destruct (String.eqb k' k); simpl; rewrite ?Hf, IH; reflexivity.
Qed.

Lemma sumZ_app {A} (g : A → Z) (a b : list A) :
  sumZ g (a ++ b) = (sumZ g a + sumZ g b)%Z.
Proof. induction a as [| x a IH]; simpl; [reflexivity | rewrite IH; lia]. Qed.

Lemma smap_ok_add k address (sm : list (string * Stats)) :
  smap_ok sm → smap_has k sm = false → k = toLowerCase address →
  smap_ok (smap_add k address sm).
Proof.
  intros [Hnd Hall] Hno Hk. unfold smap_add. split.
  - rewrite List.map_app. simpl. apply NoDup_app. split; [exact Hnd |].
    split; [| apply NoDup_singleton].
    intros k' Hin Hk'. apply list_elem_of_In in Hin.
    apply list_elem_of_In in Hk'. destruct Hk' as [<- | []].
    apply (smap_has_false _ _ Hno). exact Hin.
  - apply Forall_app. split; [exact Hall |].
    constructor; [| constructor]. simpl. split; [exact Hk |].
    unfold stats_ok. simpl. lia.
Qed.

Lemma sumZ_add (g : Stats → Z) k address (sm : list (string * Stats)) :
  g (mkStats address 0 0 0 0 0 0 0) = 0%Z →
  sumZ (fun p => g p.2) (smap_add k address sm) = sumZ (fun p => g p.2) sm.
Proof. intros Hg. unfold smap_add. rewrite sumZ_app. simpl. rewrite Hg. lia. Qed.

(** The counters after the updates of one pass, entry by entry. *)
Lemma tallied_ok (p1 p2 : string) (has2 decided winnerIsP1 : bool)
      (fee w1 w2 prize : Z) (sm : list (string * Stats)) :
  smap_ok sm → smap_ok (tallied p1 p2 has2 decided winnerIsP1 fee w1 w2 prize sm).
Proof.
  intros [Hnd Hall]. unfold tallied. split.
  - destruct decided, winnerIsP1, has2; cbv zeta; rewrite ?smap_update_keys; exact Hnd.
  - unfold smap_update.
    destruct decided, winnerIsP1, has2; cbv zeta; rewrite ?List.map_map;
      apply Forall_map; (eapply Forall_impl; [exact Hall |]);
      intros [k s] [Hk (H1 & H2 & H3)]; cbn [fst snd] in *;
      destruct (String.eqb k p1) eqn:Hp1, (String.eqb k p2) eqn:Hp2;
      repeat (cbn [fst snd]; rewrite ?Hp1, ?Hp2);
      (split; [exact Hk |]); unfold stats_ok; simpl; lia.
Qed.

(** A pass counts at most one more match won and one more match lost. *)
Lemma tallied_sums (p1 p2 : string) (has2 decided winnerIsP1 : bool)
      (fee w1 w2 prize : Z) (sm : list (string * Stats)) :
  NoDup (List.map fst sm) →
  (sumZ (fun p => st_matchesWon p.2)
        (tallied p1 p2 has2 decided winnerIsP1 fee w1 w2 prize sm)
   <= sumZ (fun p => st_matchesWon p.2) sm + 1)%Z
  ∧ (sumZ (fun p => st_matchesLost p.2)
          (tallied p1 p2 has2 decided winnerIsP1 fee w1 w2 prize sm)
     <= sumZ (fun p => st_matchesLost p.2) sm + 1)%Z.
Proof.
  intros Hnd. unfold tallied.
  set (sm1 := smap_update p1 (played fee w1 w2) sm).
  set (sm2 := if has2 then smap_update p2 (played fee w2 w1) sm1 else sm1).
  assert (Hnd2 : NoDup (List.map fst sm2)).
  { unfold sm2, sm1. destruct has2; rewrite ?smap_update_keys; exact Hnd. }
  assert (Hw2 : sumZ (fun p => st_matchesWon p.2) sm2
                = sumZ (fun p => st_matchesWon p.2) sm
                ∧ sumZ (fun p => st_matchesLost p.2) sm2
                  = sumZ (fun p => st_matchesLost p.2) sm).
  { unfold sm2, sm1. destruct has2;
      rewrite ?(sumZ_update_same st_matchesWon), ?(sumZ_update_same st_matchesLost)
        by reflexivity; auto. }
  destruct Hw2 as [Hw2 Hl2]. rewrite <- Hw2, <- Hl2. cbv zeta.
  assert (Hnd1 : ∀ f, NoDup (List.map fst (smap_update p1 f sm2)))
    by (intros f; rewrite smap_update_keys; exact Hnd2).
  destruct decided; [| lia].
  destruct winnerIsP1, has2;
    rewrite ?(sumZ_update_same st_matchesWon _ lostMatch),
            ?(sumZ_update_same st_matchesLost _ (wonMatch prize)) by reflexivity.
  - pose proof (sumZ_update st_matchesWon p1 (wonMatch prize) 1 sm2 Hnd2
                  ltac:(lia) ltac:(reflexivity)).
    pose proof (sumZ_update st_matchesLost p2 lostMatch 1 _ (Hnd1 (wonMatch prize))
                  ltac:(lia) ltac:(reflexivity)) as Hl.
    rewrite (sumZ_update_same st_matchesLost p1 (wonMatch prize)) in Hl by reflexivity.
    lia.
  - pose proof (sumZ_update st_matchesWon p1 (wonMatch prize) 1 sm2 Hnd2
                  ltac:(lia) ltac:(reflexivity)).
    lia.
  - pose proof (sumZ_update st_matchesLost p1 lostMatch 1 sm2 Hnd2
                  ltac:(lia) ltac:(reflexivity)).
    pose proof (sumZ_update st_matchesWon p2 (wonMatch prize) 1 _ (Hnd1 lostMatch)
                  ltac:(lia) ltac:(reflexivity)) as Hw.
    rewrite (sumZ_update_same st_matchesWon p1 lostMatch) in Hw by reflexivity.
    lia.
  - pose proof (sumZ_update st_matchesLost p1 lostMatch 1 sm2 Hnd2
                  ltac:(lia) ltac:(reflexivity)).
    lia.
Qed.

Lemma ensured_ok (m : MatchData) (sm : list (string * Stats)) :
  smap_ok sm →
  smap_ok (ensured m sm)
  ∧ sumZ (fun p => st_matchesWon p.2) (ensured m sm)
    = sumZ (fun p => st_matchesWon p.2) sm
  ∧ sumZ (fun p => st_matchesLost p.2) (ensured m sm)
    = sumZ (fun p => st_matchesLost p.2) sm.
Proof.
  intros Hok. unfold ensured.
  set (p1 := toLowerCase (player1 m)). set (p2 := toLowerCase (player2 m)).
  set (smA := if negb (smap_has p1 sm) then smap_add p1 (player1 m) sm else sm).
  assert (HokA : smap_ok smA
                 ∧ sumZ (fun p => st_matchesWon p.2) smA
                   = sumZ (fun p => st_matchesWon p.2) sm
                 ∧ sumZ (fun p => st_matchesLost p.2) smA
                   = sumZ (fun p => st_matchesLost p.2) sm).
  { unfold smA. destruct (smap_has p1 sm) eqn:Hhas; simpl; [auto |].
    split; [apply smap_ok_add; auto |].
    split; apply sumZ_add; reflexivity. }
  destruct HokA as (HokA & HwA & HlA). cbv zeta.
  destruct (str_neq p2 ZERO_ADDRESS); simpl; [| auto].
  destruct (smap_has p2 smA) eqn:Hhas; simpl; [auto |].
  split; [apply smap_ok_add; auto |].
  rewrite !sumZ_add by reflexivity. auto.
Qed.

(** One pass of the tally loop, with its updates gathered. *)
Lemma tallyMatch_unfold forfeitRounds (acc : Tally) (entry : Z * MatchData) :
  tallyMatch forfeitRounds acc entry
  = let m := entry.2 in
    if negb (state m =? MatchState.COMPLETE)%Z then acc
    else
      let p1 := toLowerCase (player1 m) in
      let p2 := toLowerCase (player2 m) in
      let has2 := str_neq p2 ZERO_ADDRESS in
      let winner :=
        determineMatchWinner m (forfeitRounds !! forfeitKey entry.1 (currentRound m)) in
      let decided := match winner with
                     | Some wn => negb (String.eqb wn "")
                     | None => false
                     end in
      let winnerIsP1 := match winner with
                        | Some wn => String.eqb (toLowerCase wn) p1
                        | None => false
                        end in
      mkTally (tallied p1 p2 has2 decided winnerIsP1 (entryFee m) (winsP1 m) (winsP2 m)
                       ((entryFee m * 2 * 98) / 100)%Z (ensured m (statsMap acc)))
              (if has2 then (volume acc + entryFee m * 2)%Z else volume acc)
              (completedMatches acc + 1)%Z.
Proof.
  unfold tallyMatch, tallied, ensured. cbv zeta.
  destruct (negb (state entry.2 =? MatchState.COMPLETE)%Z); [reflexivity |].
  f_equal.
  destruct (determineMatchWinner entry.2 _) as [wn |]; [| reflexivity].
  destruct (String.eqb wn ""); reflexivity.
Qed.

Lemma tallyMatch_ok forfeitRounds (acc : Tally) (entry : Z * MatchData) :
  tally_ok acc → tally_ok (tallyMatch forfeitRounds acc entry).
Proof.
  intros (Hok & Hwon & Hlost). rewrite tallyMatch_unfold. cbv zeta.
  destruct (negb (state entry.2 =? MatchState.COMPLETE)%Z);
    [exact (conj Hok (conj Hwon Hlost)) |].
  destruct (ensured_ok entry.2 (statsMap acc) Hok) as (HokE & HwE & HlE).
  unfold tally_ok. cbn [statsMap completedMatches].
  split; [apply tallied_ok; exact HokE |].
  match goal with
  | |- context [tallied ?a ?b ?c ?d ?e ?f ?g ?h ?i ?sm] =>
      destruct (tallied_sums a b c d e f g h i sm (proj1 HokE)) as [Hsw Hsl]
  end.
  lia.
Qed.

Lemma fold_tally_ok forfeitRounds (all : list (Z * MatchData)) (acc : Tally) :
  tally_ok acc → tally_ok (List.fold_left (tallyMatch forfeitRounds) all acc).
Proof.
  revert acc. induction all as [| e all IH]; intros acc Hok; simpl; [exact Hok |].
  apply IH. apply tallyMatch_ok. exact Hok.
Qed.

Lemma fetchForfeitRounds_returns (all : list (Z * MatchData))
      (forfeitRounds : gmap string LastRound) (w : World (logged E)) :
  ∃ found w', fetchForfeitRounds all forfeitRounds w = (Ok found, w').
Proof.
  revert forfeitRounds w. induction all as [| [id m] all IH]; intros fr w.
  - eexists _, _. reflexivity.
  - cbn [fetchForfeitRounds].
    destruct ((state m =? MatchState.COMPLETE)%Z && (winsP1 m <? WINS_REQUIRED)%Z
              && (winsP2 m <? WINS_REQUIRED)%Z && (currentRound m >? 0)%Z);
      [| apply IH].
    unfold bind at 1. unfold try_catch, bind, getRound, env_call. simpl.
    destruct (rpc_getRound E (ext w).1 id (currentRound m)) as [x [rd | e]]; simpl;
      apply IH.
Qed.

Lemma insertPlayer_perm (x : PlayerStats) (l : list PlayerStats) :
  Permutation (insertPlayer x l) (x :: l).
Proof.
  induction l as [| y l IH]; simpl; [reflexivity |].
  destruct (ps_matchesWon y - ps_matchesWon x <=? 0)%Z; [reflexivity |].
  rewrite IH. apply perm_swap.
Qed.

Lemma sortPlayers_perm (l : list PlayerStats) : Permutation (sortPlayers l) l.
Proof.
  induction l as [| x l IH]; simpl; [reflexivity |].
  rewrite insertPlayer_perm. now rewrite IH.
Qed.

Lemma insertPlayer_sorted (x : PlayerStats) (l : list PlayerStats) :
  StronglySorted (fun a b => (ps_matchesWon b <= ps_matchesWon a)%Z) l →
  StronglySorted (fun a b => (ps_matchesWon b <= ps_matchesWon a)%Z) (insertPlayer x l).
Proof.
  induction 1 as [| y l Hsorted IH Hy]; simpl; [repeat constructor |].
  destruct (Z.leb_spec (ps_matchesWon y - ps_matchesWon x) 0) as [Hle | Hgt].
  - constructor; [constructor; assumption |].
    constructor; [lia |]. eapply Forall_impl; [exact Hy |]. simpl. intros z Hz. lia.
  - constructor; [exact IH |].
    eapply Permutation_Forall; [symmetry; apply insertPlayer_perm |].
    constructor; [lia | exact Hy].
Qed.

Lemma sortPlayers_sorted (l : list PlayerStats) :
  StronglySorted (fun a b => (ps_matchesWon b <= ps_matchesWon a)%Z) (sortPlayers l).
Proof.
  induction l as [| x l IH]; simpl; [constructor |]. now apply insertPlayer_sorted.
Qed.

Lemma sumZ_perm {A} (g : A → Z) (a b : list A) :
  Permutation a b → sumZ g a = sumZ g b.
Proof. induction 1; simpl; lia. Qed.

Lemma listPlayers_ok (sm : list (string * Stats)) :
  smap_ok sm →
  Forall player_ok (listPlayers (E:=E) winRateText sm)
  ∧ NoDup (List.map (fun p => toLowerCase (ps_address p))
                    (listPlayers (E:=E) winRateText sm))
  ∧ (sumZ ps_matchesWon (listPlayers (E:=E) winRateText sm)
     <= sumZ (fun p => st_matchesWon p.2) sm)%Z
  ∧ (sumZ ps_matchesLost (listPlayers (E:=E) winRateText sm)
     <= sumZ (fun p => st_matchesLost p.2) sm)%Z.
Proof.
  intros [Hnd Hall]. unfold listPlayers.
  induction sm as [| [k s] sm IH]; simpl.
  - repeat split; try constructor; lia.
  - apply NoDup_cons in Hnd as [Hfresh Hnd].
    apply Forall_cons in Hall as [[Hk (H1 & H2 & H3)] Hall]. simpl in *.
    destruct (IH Hnd Hall) as (Hok & Hdist & Hw & Hl).
    destruct (Z.gtb_spec (st_matchesPlayed s) 0) as [Hpos | Hzero]; simpl.
    + split; [constructor; [unfold player_ok; simpl; lia | exact Hok] |].
      split; [| lia].
      apply NoDup_cons. split; [| exact Hdist].
      rewrite <- Hk. intros Hin. apply Hfresh.
      apply list_elem_of_In in Hin. apply list_elem_of_In.
      apply List.in_map_iff in Hin as (p & Hp & Hin).
      apply List.in_map_iff in Hin as (s' & <- & Hin).
      apply List.filter_In in Hin as [Hin _].
      apply List.in_map_iff in Hin as ([k' s''] & <- & Hin). simpl in *.
      apply List.in_map_iff. exists (k', s''). split; [| exact Hin]. simpl.
      rewrite List.Forall_forall in Hall. destruct (Hall _ Hin) as [Hk' _].
      simpl in Hk'. congruence.
    + split; [exact Hok |]. split; [exact Hdist |]. lia.
Qed.

(** X20. The leaderboard is consistent. In the object [getLeaderboard]
    returns, no address is listed twice (addresses compared without
    regard to case); every player listed played at least one match, and
    the matches it won and lost together do not outnumber those it
    played; the players are in descending order of matches won; and the
    matches won, and the matches lost, summed over all players, do not
    outnumber [totalMatches]. *)
Theorem getLeaderboard_is_consistent (w : World (logged E)) (lb : Leaderboard) :
  (getLeaderboard X winRateText w).1 = Ok lb →
  Forall player_ok (lb_players lb)
  ∧ StronglySorted (fun a b => (ps_matchesWon b <= ps_matchesWon a)%Z) (lb_players lb)
  ∧ NoDup (List.map (fun p => toLowerCase (ps_address p)) (lb_players lb))
  ∧ (sumZ ps_matchesWon (lb_players lb) <= lb_totalMatches lb)%Z
  ∧ (sumZ ps_matchesLost (lb_players lb) <= lb_totalMatches lb)%Z.
Proof.
  destruct (getLeaderboard X winRateText w) as [out w'] eqn:Hrun. simpl. intros ->.
  unfold getLeaderboard in Hrun. unfold bind at 1 in Hrun.
  destruct (getMatchCounter X w) as [[counter | e |] w1]; try discriminate Hrun.
  unfold bind at 1 in Hrun.
  destruct (getMatches X 1 counter w1) as [[all | e |] w2]; try discriminate Hrun.
  unfold bind at 1 in Hrun.
  destruct (fetchForfeitRounds_returns all ∅ w2) as (found & w3 & Hq).
  rewrite Hq in Hrun. simpl in Hrun. injection Hrun as <- <-.
  cbn [lb_players lb_totalMatches].
  assert (Hstart : tally_ok (mkTally [] 0 0)).
  { unfold tally_ok, smap_ok. simpl.
    repeat split; try constructor; lia. }
  pose proof (fold_tally_ok found all _ Hstart) as (Hok & Hwon & Hlost).
  set (tally := List.fold_left (tallyMatch found) all (mkTally [] 0 0)) in *.
  destruct (listPlayers_ok (statsMap tally) Hok) as (Hplayers & Hdist & Hw & Hl).
  pose proof (sortPlayers_perm (listPlayers (E:=E) winRateText (statsMap tally))) as Hperm.
  split; [eapply Permutation_Forall; [symmetry; exact Hperm | exact Hplayers] |].
  split; [apply sortPlayers_sorted |].
  split.
  { rewrite (Permutation_map (fun p => toLowerCase (ps_address p)) Hperm).
    exact Hdist. }
  rewrite (sumZ_perm ps_matchesWon _ _ Hperm), (sumZ_perm ps_matchesLost _ _ Hperm).
  lia.
Qed.
End LeaderboardTheorems.

Lemma getLeaderboard_is_consistent_witness :
  lb_totalMatches boardResult = 2%Z
  ∧ List.map ps_matchesWon (lb_players boardResult) = [2%Z; 0%Z]
  ∧ Forall player_ok (lb_players boardResult)
  ∧ (sumZ ps_matchesWon (lb_players boardResult) <= lb_totalMatches boardResult)%Z.
Proof.
  destruct (getLeaderboard_is_consistent (boardX syncScript)
              (fun won played => pretty (won * 100 / played)%Z)
              (startWorldX syncScript) boardResult)
    as (Hok & _ & _ & Hwon & _).
  - vm_compute. reflexivity.
  - split; [vm_compute; reflexivity |]. split; [vm_compute; reflexivity |].
    split; [exact Hok | exact Hwon].
Defined.
